(** * nlogo_graphs: graph generation, influence paths and opinion metrics

    A shallow embedding of [nlogo_graphs.py].  The module builds networkx
    graphs, samples edges from probability matrices, prunes Kronecker graphs
    to their largest connected component, searches threshold-bounded
    influence paths, and measures homophily, polarization and disagreement.

    Conventions of the embedding.
    - Python dictionaries are insertion-ordered association lists ([Dict]):
      the order of [G.nodes] and of [G.edges] is observable (it decides which
      endpoint of a link is [e[0]]), so the order is kept.
    - The numbers held by a graph (attribute values, link weights) are
      recorded by their exact rational value.  The opinion metrics compute
      with them in an arithmetic [Number]: [binary64] is the arithmetic of
      Python and numpy (IEEE 754 double precision, every operation rounded to
      nearest even, on the primitive floats of the kernel), [exact] is the
      arithmetic of the rationals without rounding.  General statements
      about the metrics are made in [exact]; where rounding decides the
      outcome the statement is made in [binary64].  In [exact], the places
      where numpy would produce [nan] or [inf] are reported as
      [FloatingPointError].
    - Exceptions are values of [exn], carried by the error monad [Res].
    - [random()] reads the next value of a draw sequence [rnd : nat -> Q];
      the position in the sequence is threaded explicitly.
    - An undirected networkx graph stores ONE attribute dictionary per edge,
      referenced from both adjacency entries.  The graph therefore carries a
      store of edge-data cells and the adjacency entries hold locations.
    - Functions of modules that are imported but are not part of this file
      ([mag.attr_mag], [kronecker.kronecker_pow],
      [messaging.dist_to_agent_brain]) and the random graph generators of
      networkx are parameters. *)

From Stdlib Require Import List ZArith QArith Qabs Qround Bool Lia String Ascii.
From Stdlib Require Import Relations Setoid Morphisms Lqa.
From Stdlib Require Import PrimFloat FloatOps SpecFloat.
Import ListNotations.

Set Implicit Arguments.

(* ================================================================== *)
(** * Part I: the program *)

(* ------------------------------------------------------------------ *)
(** ** Exceptions and the error monad *)

Inductive exn : Set :=
| IndexError
| KeyError
| ValueError
| ZeroDivisionError
| FloatingPointError
| NetworkXError
| NodeNotFound
| NetworkXNoPath.

Inductive Res (A : Type) : Type :=
| Ok (a : A)
| Raise (e : exn).

Arguments Ok {A} a.
Arguments Raise {A} e.

Definition bind {A B : Type} (c : Res A) (k : A -> Res B) : Res B :=
  match c with
  | Ok a => k a
  | Raise e => Raise e
  end.

Notation "x <- c ;; k" := (bind c (fun x => k))
  (at level 61, c at next level, right associativity).
Notation "' pat <- c ;; k" := (bind c (fun x => match x with pat => k end))
  (at level 61, pat pattern, c at next level, right associativity).

(** Monadic left fold: a [for] loop whose body may raise. *)
Fixpoint foldM {A S : Type} (body : S -> A -> Res S) (xs : list A) (s : S) : Res S :=
  match xs with
  | [] => Ok s
  | x :: tl => s' <- body s x ;; foldM body tl s'
  end.

(** Monadic map: a list comprehension whose element expression may raise. *)
Fixpoint mapM {A B : Type} (f : A -> Res B) (xs : list A) : Res (list B) :=
  match xs with
  | [] => Ok []
  | x :: tl => y <- f x ;; ys <- mapM f tl ;; Ok (y :: ys)
  end.

(** [range(0, n)] *)
Definition range (n : nat) : list nat := seq 0 n.

(** [xs[i]] for a Python integer index: negative indices count from the end. *)
Definition py_index {A : Type} (xs : list A) (i : Z) : Res A :=
  let n := Z.of_nat (List.length xs) in
  let k := (if i <? 0 then n + i else i)%Z in
  if (k <? 0)%Z then Raise IndexError
  else match nth_error xs (Z.to_nat k) with
       | Some x => Ok x
       | None => Raise IndexError
       end.

Definition Qltb (x y : Q) : bool := negb (Qle_bool y x).

(* ------------------------------------------------------------------ *)
(** ** Numbers *)

(** An arithmetic for the metrics: how a recorded number is read and how a
    number is recorded, the operations of Python and numpy, Python's test
    [y == 0] before a division, and the division of numpy scalars, which
    does not raise. *)
Class Number (F : Type) : Type := mkNumber {
  of_Q : Q -> F;
  to_Q : F -> Q;
  nadd : F -> F -> F;
  nsub : F -> F -> F;
  nmul : F -> F -> F;
  ndiv : F -> F -> F;
  nabs : F -> F;
  nsquare : F -> F;
  is_zero : F -> bool;
  np_div : F -> F -> Res F
}.

(** Arithmetic without rounding.  A division of numpy scalars by zero,
    which gives [nan] or [inf], is reported as [FloatingPointError].  It is
    the arithmetic of a statement whose numbers are rationals, and of one
    that names no number. *)
#[global] Instance exact : Number Q | 0 := {
  of_Q := fun x => x;
  to_Q := fun x => x;
  nadd := Qplus;
  nsub := Qminus;
  nmul := Qmult;
  ndiv := Qdiv;
  nabs := Qabs;
  nsquare := fun x => x ^ 2;
  is_zero := fun y => Qeq_bool y 0;
  np_div := fun x y =>
    if Qeq_bool y 0 then Raise FloatingPointError else Ok (x / y)
}.

(** The binary64 number nearest to an integer (ties to even). *)
Definition float_of_Z (z : Z) : float :=
  SF2Prim (binary_normalize prec emax z 0 false).

(** The binary64 number that a recorded rational [p / q] stands for: the
    quotient of [p] and [q] in binary64.  An integer below [2^53] in
    magnitude and the value of a finite binary64 number are read exactly,
    [1 / 10] is read as the number that Python writes [0.1]. *)
Definition float_of_Q (q : Q) : float :=
  (float_of_Z (Qnum q) / float_of_Z (Z.pos (Qden q)))%float.

(** The exact value of a finite binary64 number, [m * 2^e] with its sign
    (0 for an infinity or [nan], which have none). *)
Definition Q_of_float (x : float) : Q :=
  match Prim2SF x with
  | S754_finite s m e =>
      let v := match e with
               | Z.neg k => Z.pos m # (2 ^ k)
               | _ => inject_Z (Z.pos m * 2 ^ e)
               end in
      if s then - v else v
  | _ => 0
  end.

(** The arithmetic of Python floats and of numpy's [float64].  [x ** 2] on
    an array is [x * x]; a division of numpy scalars by zero gives [nan] or
    [inf] and goes on. *)
#[global] Instance binary64 : Number float | 9 := {
  of_Q := float_of_Q;
  to_Q := Q_of_float;
  nadd := PrimFloat.add;
  nsub := PrimFloat.sub;
  nmul := PrimFloat.mul;
  ndiv := PrimFloat.div;
  nabs := PrimFloat.abs;
  nsquare := fun x => PrimFloat.mul x x;
  is_zero := fun y => PrimFloat.eqb y PrimFloat.zero;
  np_div := fun x y => Ok (PrimFloat.div x y)
}.

(** [xs.sum()]: the terms are added from left to right, starting from 0
    (the order of numpy below eight terms). *)
Definition np_sum {F : Type} {N : Number F} (xs : list F) : F :=
  fold_left nadd xs (of_Q 0).

(** [x / y] on Python numbers. *)
Definition py_div {F : Type} {N : Number F} (x y : F) : Res F :=
  if is_zero y then Raise ZeroDivisionError else Ok (ndiv x y).

(* ------------------------------------------------------------------ *)
(** ** Insertion-ordered dictionaries *)

Module Dict.
Section Ops.
Variables K V : Type.
Variable K_dec : forall x y : K, {x = y} + {x <> y}.

Definition t := list (K * V).

Definition keys (d : t) : list K := map fst d.

Fixpoint get (k : K) (d : t) : option V :=
  match d with
  | [] => None
  | (k', v) :: tl => if K_dec k k' then Some v else get k tl
  end.

Definition mem (k : K) (d : t) : bool :=
  match get k d with Some _ => true | None => false end.

(** [d[k] = v]: overwrite in place, or append a new key at the end. *)
Fixpoint set (k : K) (v : V) (d : t) : t :=
  match d with
  | [] => [(k, v)]
  | (k', v') :: tl =>
      if K_dec k k' then (k', v) :: tl else (k', v') :: set k v tl
  end.

(** [del d[k]] for a key that is present; nothing changes otherwise. *)
Fixpoint del (k : K) (d : t) : t :=
  match d with
  | [] => []
  | (k', v') :: tl =>
      if K_dec k k' then del k tl else (k', v') :: del k tl
  end.

(** [d[k]], raising [KeyError]. *)
Definition lookup (k : K) (d : t) : Res V :=
  match get k d with Some v => Ok v | None => Raise KeyError end.

End Ops.
End Dict.

Definition zget {V : Type} := @Dict.get Z V Z.eq_dec.
Definition zset {V : Type} := @Dict.set Z V Z.eq_dec.
Definition zdel {V : Type} := @Dict.del Z V Z.eq_dec.
Definition zhas {V : Type} := @Dict.mem Z V Z.eq_dec.
Definition zkeys {V : Type} := @Dict.keys Z V.

(** Python sets of integers: lists without duplicates, in order of arrival. *)
Definition zmem (x : Z) (s : list Z) : bool :=
  if in_dec Z.eq_dec x s then true else false.

Definition set_add (x : Z) (s : list Z) : list Z :=
  if zmem x s then s else s ++ [x].

Definition set_update (s xs : list Z) : list Z :=
  fold_left (fun acc x => set_add x acc) xs s.

(** [s - t] *)
Definition set_diff (s t : list Z) : list Z :=
  filter (fun x => negb (zmem x t)) s.

(* ------------------------------------------------------------------ *)
(** ** networkx graphs *)

(** Location of an edge-data dictionary in the graph's store. *)
Definition loc := nat.

(** An edge attribute dictionary; ['weight'] is the only key the program
    ever writes or reads. *)
Record EdgeData : Type := mkEdgeData { ed_weight : option Q }.

(** A node attribute dictionary: attribute name to numeric value. *)
Definition NodeAttrs : Type := list (string * Q).

(** What a graph keeps for one node: [G._node[n]] and [G._adj[n]].  networkx
    inserts into and deletes from the two dictionaries together, so they are
    kept as one insertion-ordered dictionary of pairs. *)
Record NodeEntry : Type := mkEntry {
  n_attrs : NodeAttrs;
  n_nbrs : list (Z * loc)
}.

(** [nx.Graph]: the nodes in insertion order, and the store of edge data
    that the adjacency entries point into. *)
Record Graph : Type := mkGraph {
  g_nodes : list (Z * NodeEntry);
  g_data : list EdgeData
}.

Module UG.

Definition empty : Graph := mkGraph [] [].

(** [list(G.nodes)] *)
Definition nodes (G : Graph) : list Z := zkeys (g_nodes G).

(** [n in G] *)
Definition has_node (G : Graph) (n : Z) : bool := zhas n (g_nodes G).

(** The neighbour dictionary [G._adj[n]]; empty for a node that is absent
    (the program only reads it for nodes of the graph). *)
Definition adj (G : Graph) (n : Z) : list (Z * loc) :=
  match zget n (g_nodes G) with
  | Some e => n_nbrs e
  | None => []
  end.

(** Where the data of the adjacency entry [G._adj[u][v]] lives. *)
Definition edge_loc (G : Graph) (u v : Z) : option loc := zget v (adj G u).

(** [G.degree(n)]: the number of neighbours, a self-loop counting twice. *)
Definition degree (G : Graph) (n : Z) : nat :=
  (List.length (adj G n) + (if zhas n (adj G n) then 1 else 0))%nat.

(** [G.has_edge(u, v)] *)
Definition has_edge (G : Graph) (u v : Z) : bool :=
  match edge_loc G u v with Some _ => true | None => false end.

(** [G.add_node(n)] without attributes. *)
Definition add_node (n : Z) (G : Graph) : Graph :=
  if has_node G n then G
  else mkGraph (g_nodes G ++ [(n, mkEntry [] [])]) (g_data G).

(** [G.add_nodes_from(ns)] *)
Definition add_nodes_from (ns : list Z) (G : Graph) : Graph :=
  fold_left (fun g n => add_node n g) ns G.

(** [G._adj[u][v] = l] for a node [u] that is present. *)
Definition adj_set (u v : Z) (l : loc) (ns : list (Z * NodeEntry)) :=
  match zget u ns with
  | Some e => zset u (mkEntry (n_attrs e) (zset v l (n_nbrs e))) ns
  | None => ns
  end.

(** [del G._adj[u][n]] *)
Definition adj_del (u n : Z) (ns : list (Z * NodeEntry)) :=
  match zget u ns with
  | Some e => zset u (mkEntry (n_attrs e) (zdel n (n_nbrs e))) ns
  | None => ns
  end.

(** [G.add_edge(u, v)]: both endpoints are added when missing; the data
    dictionary is the existing one of [(u, v)], or a fresh empty one; both
    adjacency entries are made to refer to it. *)
Definition add_edge (u v : Z) (G : Graph) : Graph :=
  let G2 := add_node v (add_node u G) in
  match edge_loc G2 u v with
  | Some l =>
      mkGraph (adj_set v u l (adj_set u v l (g_nodes G2))) (g_data G2)
  | None =>
      let l := List.length (g_data G2) in
      mkGraph (adj_set v u l (adj_set u v l (g_nodes G2)))
              (g_data G2 ++ [mkEdgeData None])
  end.

(** One step of [G.remove_nodes_from]: a node that is absent is skipped;
    otherwise the node is deleted from the adjacency of each of its
    neighbours, and its own entry is deleted. *)
Definition remove_node (n : Z) (G : Graph) : Graph :=
  if has_node G n then
    mkGraph
      (zdel n (fold_left (fun ns u => adj_del u n ns) (zkeys (adj G n)) (g_nodes G)))
      (g_data G)
  else G.

Definition remove_nodes_from (ns : list Z) (G : Graph) : Graph :=
  fold_left (fun g n => remove_node n g) ns G.

(** Iteration of [G.edges] on an undirected graph: nodes in order, each
    with its neighbours in order; a neighbour that was already visited as
    a node is skipped, so every link is reported once, from the endpoint
    that comes first in node order. *)
Fixpoint edges_from (seen : list Z) (items : list (Z * NodeEntry)) : list (Z * Z) :=
  match items with
  | [] => []
  | (n, e) :: rest =>
      map (pair n) (filter (fun nbr => negb (zmem nbr seen)) (zkeys (n_nbrs e)))
        ++ edges_from (n :: seen) rest
  end.

Definition edges (G : Graph) : list (Z * Z) := edges_from [] (g_nodes G).

(** [G.nodes[n]] *)
Definition node_attrs (G : Graph) (n : Z) : Res NodeAttrs :=
  match zget n (g_nodes G) with
  | Some e => Ok (n_attrs e)
  | None => Raise KeyError
  end.

(** [G.nodes[n][attr] = x] *)
Definition set_node_attr (n : Z) (attr : string) (x : Q) (G : Graph) : Res Graph :=
  match zget n (g_nodes G) with
  | Some e =>
      Ok (mkGraph
            (zset n (mkEntry (Dict.set string_dec attr x (n_attrs e)) (n_nbrs e))
                  (g_nodes G))
            (g_data G))
  | None => Raise KeyError
  end.

(** The data dictionary [G[u][v]]. *)
Definition edge_data (G : Graph) (u v : Z) : Res EdgeData :=
  match edge_loc G u v with
  | Some l =>
      match nth_error (g_data G) l with
      | Some d => Ok d
      | None => Raise KeyError
      end
  | None => Raise KeyError
  end.

Fixpoint store_set (l : loc) (d : EdgeData) (st : list EdgeData) : list EdgeData :=
  match st, l with
  | [], _ => []
  | _ :: tl, O => d :: tl
  | x :: tl, S l' => x :: store_set l' d tl
  end.

(** [G[u][v]['weight'] = w]: the write goes to the one dictionary that both
    [G[u][v]] and [G[v][u]] refer to. *)
Definition set_weight (u v : Z) (w : Q) (G : Graph) : Res Graph :=
  match edge_loc G u v with
  | Some l => Ok (mkGraph (g_nodes G) (store_set l (mkEdgeData (Some w)) (g_data G)))
  | None => Raise KeyError
  end.

(** The class invariant of an undirected graph: node keys are unique, and
    [v] is a neighbour of [u] exactly when [u] is one of [v], both entries
    referring to the same data dictionary. *)
Definition wf (G : Graph) : Prop :=
  NoDup (nodes G) /\
  forall u v l, edge_loc G u v = Some l -> edge_loc G v u = Some l.

Fixpoint nodupb (xs : list Z) : bool :=
  match xs with
  | [] => true
  | x :: tl => negb (zmem x tl) && nodupb tl
  end.

(** The invariant as a check that can be run on a given graph. *)
Definition wfb (G : Graph) : bool :=
  nodupb (nodes G) &&
  forallb (fun ue : Z * NodeEntry =>
    forallb (fun vl : Z * loc =>
      match edge_loc G (fst vl) (fst ue) with
      | Some l' => Nat.eqb l' (snd vl)
      | None => false
      end) (n_nbrs (snd ue))) (g_nodes G).

End UG.

(** [nx.DiGraph], as far as the program observes it: nodes in insertion
    order, each with its successors in insertion order (the predecessor
    dictionary mirrors it and is never read). *)
Definition DiGraph : Type := list (Z * list Z).

Module DG.

Definition empty : DiGraph := [].

Definition nodes (D : DiGraph) : list Z := zkeys D.

Definition add_node (n : Z) (D : DiGraph) : DiGraph :=
  if zhas n D then D else D ++ [(n, [])].

Definition succ (D : DiGraph) (n : Z) : list Z :=
  match zget n D with Some s => s | None => [] end.

(** [D.add_edge(u, v)] *)
Definition add_edge (u v : Z) (D : DiGraph) : DiGraph :=
  let D2 := add_node v (add_node u D) in
  zset u (set_add v (succ D2 u)) D2.

(** Iteration of [D.edges]: every successor of every node. *)
Definition edges (D : DiGraph) : list (Z * Z) :=
  flat_map (fun ns : Z * list Z => map (pair (fst ns)) (snd ns)) D.

End DG.

(** Both graph classes answer [.nodes] and [.edges]. *)
Class GraphLike (T : Type) : Type := {
  nx_nodes : T -> list Z;
  nx_edges : T -> list (Z * Z)
}.

#[export] Instance Graph_GraphLike : GraphLike Graph :=
  {| nx_nodes := UG.nodes; nx_edges := UG.edges |}.

#[export] Instance DiGraph_GraphLike : GraphLike DiGraph :=
  {| nx_nodes := DG.nodes; nx_edges := DG.edges |}.

(* ------------------------------------------------------------------ *)
(** ** Conversion helpers of the module *)

(** The record handed to NetLogo.  An edge [[e[0], e[1]]] is kept as a pair;
    the MAG generators add the field ['L']. *)
Record Nlogo (LT : Type) : Type := mkNlogo {
  nl_nodes : list Z;
  nl_edges : list (Z * Z);
  nl_L : option LT
}.

Definition nlogo_safe_nodes_edges {LT T : Type} `{GraphLike T} (G : T) : Nlogo LT :=
  let nodes := nx_nodes G in
  let edges := map (fun e : Z * Z => (fst e, snd e)) (nx_edges G) in
  mkNlogo nodes edges None.

(** [nlogo_G.update({'L': L})] *)
Definition update_L {LT : Type} (r : Nlogo LT) (L : LT) : Nlogo LT :=
  mkNlogo (nl_nodes r) (nl_edges r) (Some L).

Definition bidirected_graph (G : Graph) : DiGraph :=
  fold_left
    (fun bidirected_G edge =>
       DG.add_edge (snd edge) (fst edge)
         (DG.add_edge (fst edge) (snd edge) bidirected_G))
    (UG.edges G) DG.empty.

(* ------------------------------------------------------------------ *)
(** ** Connected components (networkx) *)

(** One level of [_plain_bfs]: every node of the level that was not seen is
    recorded, and its neighbours form the next level. *)
Fixpoint bfs_level (G : Graph) (thislevel seen nextlevel : list Z)
  : list Z * list Z :=
  match thislevel with
  | [] => (seen, nextlevel)
  | v :: tl =>
      if zmem v seen then bfs_level G tl seen nextlevel
      else bfs_level G tl (seen ++ [v]) (set_update nextlevel (zkeys (UG.adj G v)))
  end.

(** [while nextlevel: ...].  A level either records a new node or leaves
    the next level empty, so the loop body runs at most once more than
    there are nodes; [fuel] is that bound (see [plain_bfs_closed]). *)
Fixpoint bfs_loop (fuel : nat) (G : Graph) (seen nextlevel : list Z) : list Z :=
  match nextlevel with
  | [] => seen
  | _ :: _ =>
      match fuel with
      | O => seen
      | S f =>
          let '(seen', next') := bfs_level G nextlevel seen [] in
          bfs_loop f G seen' next'
      end
  end.

Definition plain_bfs (G : Graph) (source : Z) : list Z :=
  bfs_loop (S (List.length (UG.nodes G))) G [] [source].

(** [nx.connected_components(G)]: one component per node not yet covered. *)
Fixpoint components_from (G : Graph) (vs seen : list Z) : list (list Z) :=
  match vs with
  | [] => []
  | v :: tl =>
      if zmem v seen then components_from G tl seen
      else
        let c := plain_bfs G v in
        c :: components_from G tl (set_update seen c)
  end.

Definition connected_components (G : Graph) : list (list Z) :=
  components_from G (UG.nodes G) [].

(** [max(cs, key=len)]: the first of the longest; [ValueError] on nothing. *)
Definition max_by_len (cs : list (list Z)) : Res (list Z) :=
  match cs with
  | [] => Raise ValueError
  | c :: tl =>
      Ok (fold_left
            (fun best x => if (List.length best <? List.length x)%nat then x else best)
            tl c)
  end.

(* ------------------------------------------------------------------ *)
(** ** Graph generators *)

Definition matrix : Type := list (list Q).

(** [m[(i, j)]] *)
Definition mat_get (m : matrix) (i j : nat) : Res Q :=
  match nth_error m i with
  | Some row =>
      match nth_error row j with
      | Some x => Ok x
      | None => Raise IndexError
      end
  | None => Raise IndexError
  end.

(** State of a sampling loop: the graph, and how many draws were made. *)
Definition Sampling : Type := (Graph * nat)%type.

(** The body shared by [MAG_graph] and [MAG_graph_bidirected]: the graph on
    [range(0, len(p_edge[0]))], then one draw for every [(i, j)] of the
    full cross product and an edge when the draw is at most the entry. *)
Definition MAG_sample (p_edge : matrix) (rnd : nat -> Q) : Res Sampling :=
  row0 <- match p_edge with r :: _ => Ok r | [] => Raise IndexError end ;;
  let G := UG.add_nodes_from (map Z.of_nat (range (List.length row0))) UG.empty in
  foldM (fun st i =>
    foldM (fun (st : Sampling) j =>
      let rand := rnd (snd st) in
      p <- mat_get p_edge i j ;;
      if Qle_bool rand p
      then Ok (UG.add_edge (Z.of_nat i) (Z.of_nat j) (fst st), S (snd st))
      else Ok (fst st, S (snd st)))
      (range (List.length p_edge)) st)
    (range (List.length p_edge)) (G, O).

(** The loop shared by [kronecker_graph] and [kronecker_graph_bidirected]:
    the graph on [range(0, G_array.shape[0])], identity pairs skipped
    before any draw is made, and an edge for every other pair whose draw
    is below the entry. *)
Definition kronecker_sample (G_array : matrix) (rnd : nat -> Q) : Res Sampling :=
  let shape0 := List.length G_array in
  let shape1 := match G_array with r :: _ => List.length r | [] => O end in
  let G := UG.add_nodes_from (map Z.of_nat (range shape0)) UG.empty in
  foldM (fun st i =>
    row <- match nth_error G_array i with
           | Some r => Ok r
           | None => Raise IndexError
           end ;;
    foldM (fun (st : Sampling) j =>
      if Nat.eqb i j then Ok st
      else
        p <- match nth_error row j with
             | Some x => Ok x
             | None => Raise IndexError
             end ;;
        if Qltb (rnd (snd st)) p
        then Ok (UG.add_edge (Z.of_nat i) (Z.of_nat j) (fst st), S (snd st))
        else Ok (fst st, S (snd st)))
      (range shape1) st)
    (range shape0) (G, O).

(** The pruning that follows the loop in both Kronecker generators: every
    node outside the largest connected component is removed. *)
Definition keep_largest_component (G : Graph) : Res Graph :=
  largest_connected_component <- max_by_len (connected_components G) ;;
  Ok (UG.remove_nodes_from (set_diff (UG.nodes G) largest_connected_component) G).

Section Generators.

(** The attribute table ['L'] and the arguments of [mag.attr_mag]. *)
Variables LT AttrSpec Style Resolution : Type.

(** [mag.attr_mag(n, attrs, style, resolution)], giving [(p_edge, L)]. *)
Variable attr_mag : Z -> AttrSpec -> Style -> Resolution -> Res (matrix * LT).

(** [kronecker.kronecker_pow(seed, k)] *)
Variable kronecker_pow : matrix -> Z -> Res matrix.

(** The random graph generators of networkx, one outcome each. *)
Variable erdos_renyi_graph : Z -> Q -> Graph.
Variable watts_strogatz_graph : Z -> Z -> Q -> Graph.
Variable barabasi_albert_graph : Z -> Z -> Graph.

Definition ER_graph_bidirected (n : Z) (p : Q) : Nlogo LT :=
  let G := erdos_renyi_graph n p in
  nlogo_safe_nodes_edges (bidirected_graph G).

Definition ER_graph (n : Z) (p : Q) : Nlogo LT :=
  let G := erdos_renyi_graph n p in
  nlogo_safe_nodes_edges G.

Definition WS_graph_bidirected (n k : Z) (p : Q) : Nlogo LT :=
  let G := watts_strogatz_graph n k p in
  nlogo_safe_nodes_edges (bidirected_graph G).

Definition WS_graph (n k : Z) (p : Q) : Nlogo LT :=
  let G := watts_strogatz_graph n k p in
  nlogo_safe_nodes_edges G.

Definition BA_graph_bidirected (n m : Z) : Nlogo LT :=
  let G := barabasi_albert_graph n m in
  nlogo_safe_nodes_edges (bidirected_graph G).

Definition BA_graph (n m : Z) : Nlogo LT :=
  let G := barabasi_albert_graph n m in
  nlogo_safe_nodes_edges G.

Definition MAG_graph_bidirected (n : Z) (attrs : AttrSpec) (style : Style)
    (resolution : Resolution) (rnd : nat -> Q) : Res (Nlogo LT) :=
  '(p_edge, L) <- attr_mag n attrs style resolution ;;
  '(G, _) <- MAG_sample p_edge rnd ;;
  let nlogo_G := nlogo_safe_nodes_edges (bidirected_graph G) in
  Ok (update_L nlogo_G L).

Definition MAG_graph (n : Z) (attrs : AttrSpec) (style : Style)
    (resolution : Resolution) (rnd : nat -> Q) : Res (Nlogo LT) :=
  '(p_edge, L) <- attr_mag n attrs style resolution ;;
  '(G, _) <- MAG_sample p_edge rnd ;;
  let nlogo_G := nlogo_safe_nodes_edges G in
  Ok (update_L nlogo_G L).

Definition kronecker_graph (seed : matrix) (k : Z) (rnd : nat -> Q) : Res (Nlogo LT) :=
  G_array <- kronecker_pow seed k ;;
  '(G, _) <- kronecker_sample G_array rnd ;;
  G' <- keep_largest_component G ;;
  Ok (nlogo_safe_nodes_edges G').

Definition kronecker_graph_bidirected (seed : matrix) (k : Z) (rnd : nat -> Q)
  : Res (Nlogo LT) :=
  G_array <- kronecker_pow seed k ;;
  '(G, _) <- kronecker_sample G_array rnd ;;
  G' <- keep_largest_component G ;;
  Ok (nlogo_safe_nodes_edges (bidirected_graph G')).

End Generators.

(* ------------------------------------------------------------------ *)
(** ** Agent and link data from NetLogo *)

(** [s.split(sep)] for a one-character separator. *)
Fixpoint split (sep : ascii) (s : string) : list string :=
  match s with
  | EmptyString => [EmptyString]
  | String c tl =>
      if Ascii.eqb c sep then EmptyString :: split sep tl
      else match split sep tl with
           | h :: r => String c h :: r
           | [] => [String c EmptyString]
           end
  end.

(** [s.replace(c, '')] for a one-character pattern. *)
Fixpoint remove_char (c : ascii) (s : string) : string :=
  match s with
  | EmptyString => EmptyString
  | String c' tl =>
      if Ascii.eqb c' c then remove_char c tl else String c' (remove_char c tl)
  end.

Definition digit_of (c : ascii) : option Z :=
  let n := nat_of_ascii c in
  if ((48 <=? n) && (n <=? 57))%nat then Some (Z.of_nat (n - 48)) else None.

(** The white space that [int()] skips at both ends of an ASCII string:
    the space and the characters 9 to 13 (tab, line feed, vertical tab,
    form feed, carriage return). *)
Definition is_space (c : ascii) : bool :=
  let n := nat_of_ascii c in
  ((n =? 32) || ((9 <=? n) && (n <=? 13)))%nat.

Fixpoint lstrip (s : string) : string :=
  match s with
  | String c tl => if is_space c then lstrip tl else s
  | EmptyString => s
  end.

Fixpoint rstrip (s : string) : string :=
  match s with
  | EmptyString => EmptyString
  | String c tl =>
      match rstrip tl with
      | EmptyString => if is_space c then EmptyString else String c EmptyString
      | r => String c r
      end
  end.

(** Digits of a decimal literal; one underscore is allowed between digits. *)
Fixpoint digits (acc : Z) (after_digit : bool) (s : string) : option Z :=
  match s with
  | EmptyString => if after_digit then Some acc else None
  | String c tl =>
      match digit_of c with
      | Some d => digits (10 * acc + d)%Z true tl
      | None =>
          if Ascii.eqb c "_"%char && after_digit then
            match tl with
            | String c' _ =>
                match digit_of c' with
                | Some _ => digits acc false tl
                | None => None
                end
            | EmptyString => None
            end
          else None
      end
  end.

(** [int(s)] on an ASCII string: surrounding white space, an optional sign,
    decimal digits; [ValueError] otherwise. *)
Definition py_int (s : string) : Res Z :=
  let body := rstrip (lstrip s) in
  let '(neg, ds) :=
    match body with
    | String "-"%char tl => (true, tl)
    | String "+"%char tl => (false, tl)
    | _ => (false, body)
    end in
  match digits 0 false ds with
  | Some z => Ok (if neg then (- z)%Z else z)
  | None => Raise ValueError
  end.

(** [xs[i]] for a literal index. *)
Definition item {A : Type} (xs : list A) (i : nat) : Res A :=
  match nth_error xs i with Some x => Ok x | None => Raise IndexError end.

(** A citizen's brain object: the keys ['ID'], ['malleable'] and ['prior'],
    and the numeric attributes under their own names. *)
Record Citizen : Type := mkCitizen {
  cit_ID : Q;
  cit_malleable : list string;
  cit_prior : list string;
  cit_values : list (string * Q)
}.

(** [int(x)] on a number: truncation towards zero. *)
Definition int_of_number (x : Q) : Z := Z.quot (Qnum x) (Z.pos (Qden x)).

(** [cit[attr]] for a numeric attribute. *)
Definition cit_get (cit : Citizen) (attr : string) : Res Q :=
  if String.eqb attr "ID"%string then Ok (cit_ID cit)
  else Dict.lookup string_dec attr (cit_values cit).

Definition nlogo_graph_to_nx (citizens : list Citizen) (friend_links : list string)
  : Res Graph :=
  let G := UG.empty in
  G <- foldM (fun G cit =>
         let cit_id := int_of_number (cit_ID cit) in
         let G := UG.add_node cit_id G in
         G <- foldM (fun G attr =>
                x <- cit_get cit attr ;; UG.set_node_attr cit_id attr x G)
              (cit_malleable cit) G ;;
         foldM (fun G attr =>
                x <- cit_get cit attr ;; UG.set_node_attr cit_id attr x G)
              (cit_prior cit) G)
       citizens G ;;
  foldM (fun G link =>
         let link_split := split " "%char link in
         end1 <- item link_split 1 ;;
         end2' <- item link_split 2 ;;
         let end2 := remove_char ")"%char end2' in
         u <- py_int end1 ;;
         v <- py_int end2 ;;
         Ok (UG.add_edge u v G))
       friend_links G.

(* ------------------------------------------------------------------ *)
(** ** Shortest paths (networkx) *)

Module NX.

(** The weight that Dijkstra's algorithm charges for the hop from [u] to
    [v]: [G[u][v].get('weight', 1)]. *)
Definition hop_weight (G : Graph) (u v : Z) : Res Q :=
  d <- UG.edge_data G u v ;;
  Ok (match ed_weight d with Some w => w | None => 1 end).

Record Search : Type := mkSearch {
  s_dist : list (Z * Q);
  s_seen : list (Z * Q);
  s_paths : list (Z * list Z);
  s_fringe : list (Q * nat * Z);
  s_count : nat
}.

Definition fringe_le (a b : Q * nat * Z) : bool :=
  let '(d1, c1, _) := a in
  let '(d2, c2, _) := b in
  if Qltb d1 d2 then true else if Qltb d2 d1 then false else (c1 <=? c2)%nat.

(** [heappop]: the least [(distance, counter, node)]. *)
Fixpoint pop_min (fringe : list (Q * nat * Z))
  : option ((Q * nat * Z) * list (Q * nat * Z)) :=
  match fringe with
  | [] => None
  | x :: tl =>
      match pop_min tl with
      | None => Some (x, [])
      | Some (m, rest) =>
          if fringe_le x m then Some (x, tl) else Some (m, x :: rest)
      end
  end.

(** The inner loop of [_dijkstra_multisource] for one neighbour [u] of [v]. *)
Definition relax (G : Graph) (v : Z) (dv : Q) (st : Search) (u : Z) : Res Search :=
  cost <- hop_weight G v u ;;
  let vu_dist := dv + cost in
  match zget u (s_dist st) with
  | Some u_dist =>
      if Qltb vu_dist u_dist then Raise ValueError else Ok st
  | None =>
      let better :=
        match zget u (s_seen st) with
        | None => true
        | Some su => Qltb vu_dist su
        end in
      if better then
        path_v <- Dict.lookup Z.eq_dec v (s_paths st) ;;
        Ok (mkSearch (s_dist st)
                     (zset u vu_dist (s_seen st))
                     (zset u (path_v ++ [u]) (s_paths st))
                     (s_fringe st ++ [(vu_dist, s_count st, u)])
                     (S (s_count st)))
      else Ok st
  end.

Fixpoint search (fuel : nat) (G : Graph) (target : Z) (st : Search) : Res Search :=
  match fuel with
  | O => Ok st
  | S f =>
      match pop_min (s_fringe st) with
      | None => Ok st
      | Some ((d, _, v), rest) =>
          let st0 := mkSearch (s_dist st) (s_seen st) (s_paths st) rest (s_count st) in
          if zhas v (s_dist st) then search f G target st0
          else
            let st1 := mkSearch (zset v d (s_dist st)) (s_seen st) (s_paths st)
                                rest (s_count st) in
            if Z.eqb v target then Ok st1
            else
              st2 <- foldM (relax G v d) (zkeys (UG.adj G v)) st1 ;;
              search f G target st2
      end
  end.

(** Every push but the first follows the scan of one adjacency entry of a
    node that is scanned once, which bounds the number of pops. *)
Definition search_bound (G : Graph) : nat :=
  S (S (fold_left (fun n ue => (n + List.length (n_nbrs (snd ue)))%nat) (g_nodes G) O)).

(** [nx.dijkstra_path(G, source, target)] *)
Definition dijkstra_path (G : Graph) (source target : Z) : Res (list Z) :=
  if negb (UG.has_node G source) then Raise NodeNotFound
  else if Z.eqb target source then Ok [target]
  else
    st <- search (search_bound G) G target
            (mkSearch [] [(source, 0)] [(source, [source])] [(0, O, source)] 1%nat) ;;
    match zget target (s_dist st) with
    | None => Raise NetworkXNoPath
    | Some _ =>
        match zget target (s_paths st) with
        | Some p => Ok p
        | None => Raise NetworkXNoPath
        end
    end.

End NX.

(* ------------------------------------------------------------------ *)
(** ** Influence paths within a distance of a message *)

Section Influence.

Variable Message : Type.

(** [messaging.dist_to_agent_brain(agent, message)] *)
Variable dist_to_agent_brain : NodeAttrs -> Message -> Res Q.

(** [nx.dijkstra_path(G, source, target)]; [NX.dijkstra_path] is the
    algorithm of networkx. *)
Variable dijkstra_path : Graph -> Z -> Z -> Res (list Z).

(** [for e in G.edges: G[e[0]][e[1]]['weight'] = dist_to_agent_brain(G.nodes[e[0]], message)] *)
Definition assign_weights (G : Graph) (message : Message) : Res Graph :=
  foldM (fun G e =>
           a <- UG.node_attrs G (fst e) ;;
           w <- dist_to_agent_brain a message ;;
           UG.set_weight (fst e) (snd e) w G)
        (UG.edges G) G.

(** [int(s.split(' ')[i].replace(')', ''))] *)
Definition parse_id (s : string) (i : nat) : Res Z :=
  tok <- item (split " "%char s) i ;;
  py_int (remove_char ")"%char tok).

(** [sum((np.array(dist_path) - threshold) > 0) == 0] *)
Definition within_threshold (dist_path : list Q) (threshold : Q) : bool :=
  Nat.eqb
    (List.length (filter (fun d => Qltb 0 (d - threshold)) dist_path)) O.

Definition influencer_paths_within_distance
    (citizens : list Citizen) (friend_links subscribers : list string)
    (target : string) (message : Message) (threshold : Q)
  : Res (list (Z * list Q)) :=
  G <- nlogo_graph_to_nx citizens friend_links ;;
  G <- assign_weights G message ;;
  target_id <- parse_id target 1 ;;
  paths <- foldM (fun paths subscriber =>
             key <- parse_id subscriber 2 ;;
             source <- parse_id subscriber 2 ;;
             path <- dijkstra_path G source target_id ;;
             Ok (zset key path paths))
           subscribers [] ;;
  foldM (fun threshold_paths (entry : Z * list Z) =>
           let subscriber := fst entry in
           dist_path <- mapM (fun v => a <- UG.node_attrs G v ;;
                                       dist_to_agent_brain a message)
                             (snd entry) ;;
           let dist_path := removelast dist_path in
           if within_threshold dist_path threshold
           then Ok (zset subscriber dist_path threshold_paths)
           else Ok threshold_paths)
        paths [].

End Influence.

(* ------------------------------------------------------------------ *)
(** ** Opinion metrics *)

(** [nx.adj_matrix(G)], written densely: rows and columns in node order,
    the entry of a link is its ['weight'] (1 when it has none), every other
    entry is 0.  networkx refuses a graph without nodes. *)
Definition adj_matrix {F : Type} {N : Number F} (G : Graph) : Res (list (list F)) :=
  let ns := UG.nodes G in
  match ns with
  | [] => Raise NetworkXError
  | _ :: _ =>
      Ok (map (fun u =>
            map (fun v =>
              match UG.edge_data G u v with
              | Ok d => match ed_weight d with Some w => of_Q w | None => of_Q 1 end
              | Raise _ => of_Q 0
              end) ns) ns)
  end.

(** [G.nodes[node][node_attr]] *)
Definition node_value {F : Type} {N : Number F} (G : Graph) (node_attr : string)
    (node : Z) : Res F :=
  a <- UG.node_attrs G node ;;
  x <- Dict.lookup string_dec node_attr a ;;
  Ok (of_Q x).

(** Product of a matrix row with a vector, and of a vector with itself:
    the products are rounded one by one and added from left to right. *)
Definition np_dot {F : Type} {N : Number F} (xs ys : list F) : F :=
  np_sum (map (fun p : F * F => nmul (fst p) (snd p)) (combine xs ys)).

(** The summand of the homophily loop for one node,
    [(adj[node] * abs(attrs - attrs[node]))[0] / adj[node].sum()]: the
    average distance of the node's value to those of its neighbours.  The
    node identifier is used as the index of the row and of the value. *)
Definition neighbour_average {F : Type} {N : Number F}
    (adj : list (list F)) (attrs : list F) (node : Z) : Res F :=
  row <- py_index adj node ;;
  a <- py_index attrs node ;;
  np_div (np_dot row (map (fun x => nabs (nsub x a)) attrs)) (np_sum row).

Definition graph_homophily {F : Type} {N : Number F} (G : Graph)
    (node_attr : string) : Res F :=
  let total := of_Q 0 in
  attrs <- mapM (node_value G node_attr) (UG.nodes G) ;;
  adj <- adj_matrix G ;;
  total <- foldM (fun total node =>
             q <- neighbour_average adj attrs node ;;
             Ok (nadd total q))
           (UG.nodes G) total ;;
  py_div total (of_Q (inject_Z (Z.of_nat (List.length (UG.nodes G))))).

Definition nlogo_graph_homophily {F : Type} {N : Number F}
    (citizens : list Citizen) (friend_links : list string) (node_attr : string)
  : Res F :=
  G <- nlogo_graph_to_nx citizens friend_links ;;
  graph_homophily G node_attr.

(** The attributes on the scale of [0, 1]. *)
Definition scaled_values {F : Type} {N : Number F} (G : Graph)
    (node_attr : string) (max_attr_value : F) : Res (list F) :=
  mapM (fun node => x <- node_value G node_attr node ;; py_div x max_attr_value)
       (UG.nodes G).

(** For a graph without nodes the mean is [nan], nothing is centred with
    it, and the product of the empty vector with itself is 0. *)
Definition graph_polarization {F : Type} {N : Number F} (G : Graph)
    (node_attr : string) (max_attr_value : F) : Res F :=
  attrs <- scaled_values G node_attr max_attr_value ;;
  match attrs with
  | [] => Ok (of_Q 0)
  | _ :: _ =>
      let mean :=
        ndiv (np_sum attrs) (of_Q (inject_Z (Z.of_nat (List.length attrs)))) in
      let mean_centered_attrs := map (fun x => nsub x mean) attrs in
      Ok (np_dot mean_centered_attrs mean_centered_attrs)
  end.

Definition graph_disagreement {F : Type} {N : Number F} (G : Graph)
    (node_attr : string) (max_attr_value : F) : Res F :=
  let total := of_Q 0 in
  attrs <- scaled_values G node_attr max_attr_value ;;
  adj <- adj_matrix G ;;
  total <- foldM (fun total node =>
             row <- py_index adj node ;;
             a <- py_index attrs node ;;
             Ok (nadd total (np_dot row (map (fun x => nsquare (nsub x a)) attrs))))
           (UG.nodes G) total ;;
  Ok (ndiv total (of_Q 2)).

Definition graph_democracy (G : Graph) : Q := 0.

(* ------------------------------------------------------------------ *)
(** ** Vocabulary of the properties *)

(** The neighbour dictionary of [a] in a node dictionary. *)
Definition nbrs (ns : list (Z * NodeEntry)) (a : Z) : list (Z * loc) :=
  match zget a ns with Some e => n_nbrs e | None => [] end.

(** The location that [add_edge u v] gives to the link. *)
Definition link_loc (G : Graph) (u v : Z) : loc :=
  match UG.edge_loc G u v with
  | Some l => l
  | None => List.length (g_data G)
  end.

Definition same_link (u v a b : Z) : bool :=
  (Z.eqb a u && Z.eqb b v) || (Z.eqb a v && Z.eqb b u).

Definition no_self_loops (G : Graph) : Prop :=
  forall i, UG.edge_loc G i i = None.

(** A homophilic two-level table: 0.8 on the diagonal, 0.2 elsewhere. *)
Definition attr_mag_homophilic (n : Z) (attrs style resolution : unit)
  : Res (matrix * unit) :=
  Ok ([[8 # 10; 2 # 10]; [2 # 10; 8 # 10]], tt).

(** What is stated of an entry point that converts the undirected graph
    [G] into the record [r]: no node of degree zero in [G] is in [r]. *)
Definition omits_isolated_nodes {LT : Type} (G : Graph) (r : Nlogo LT) : Prop :=
  forall v, UG.degree G v = O -> ~ In v (nl_nodes r).

(** An outcome of [erdos_renyi_graph(3, p)] with the single link 0 - 1. *)
Definition one_link_of_three (n : Z) (p : Q) : Graph :=
  UG.add_edge 0 1 (UG.add_nodes_from [0; 1; 2]%Z UG.empty).


(** Whether the draw that the MAG loop makes for the ordered pair [(i, j)],
    the draw number [i * n + j], is at most the matrix entry. *)
Definition draw_succeeds (p_edge : matrix) (rnd : nat -> Q) (i j : nat) : bool :=
  match mat_get p_edge i j with
  | Ok p => Qle_bool (rnd (i * List.length p_edge + j)%nat) p
  | Raise _ => false
  end.

(** The claim that one draw decides a pair: the link between [i] and [j],
    [i < j], is there exactly when the draw for [(i, j)] succeeded. *)
Definition decided_by_one_draw (p_edge : matrix) (rnd : nat -> Q) : Prop :=
  forall G k, MAG_sample p_edge rnd = Ok (G, k) ->
  forall i j, (i < j < List.length p_edge)%nat ->
    UG.has_edge G (Z.of_nat i) (Z.of_nat j) = draw_succeeds p_edge rnd i j.

(** A symmetric table on two nodes, and draws of which only the third, the
    one for the pair [(1, 0)], is low. *)
Definition p_half : matrix := [[0; 1 # 2]; [1 # 2; 0]].

Definition draws_third_low (k : nat) : Q :=
  if Nat.eqb k 2 then 1 # 10 else 9 # 10.

(** [x] is reached from [s] by steps along adjacency entries of [G], all
    nodes on the way (with [s] and [x]) taken from [inside]. *)
Inductive reach_in (G : Graph) (inside : Z -> Prop) (s : Z) : Z -> Prop :=
| reach_here : inside s -> reach_in G inside s s
| reach_step u v :
    reach_in G inside s u -> inside v -> In v (zkeys (UG.adj G u)) ->
    reach_in G inside s v.

(** Two nodes are joined by a path of edges of the list [E], each edge
    usable in both directions. *)
Definition linked (E : list (Z * Z)) (x y : Z) : Prop :=
  In (x, y) E \/ In (y, x) E.

Definition joined (E : list (Z * Z)) : Z -> Z -> Prop :=
  clos_refl_trans Z (linked E).

(** All rows of a matrix are as long as its first row. *)
Definition rectangular (m : matrix) : Prop :=
  forall row, In row m -> List.length row = List.length (hd [] m).

(** The first Kronecker power of a seed is the seed. *)
Definition kronecker_pow_first (seed : matrix) (k : Z) : Res matrix := Ok seed.

Definition seed_08_02 : matrix := [[8 # 10; 2 # 10]; [2 # 10; 8 # 10]].

Section InfluenceVocabulary.

Variable Message : Type.
Variable dist_to_agent_brain : NodeAttrs -> Message -> Res Q.

(** The graph that the path search runs on. *)
Definition weighted_graph (citizens : list Citizen) (friend_links : list string)
    (message : Message) : Res Graph :=
  G <- nlogo_graph_to_nx citizens friend_links ;;
  assign_weights dist_to_agent_brain G message.

(** The distance at every node of a path except the last. *)
Definition distance_sequence (G : Graph) (message : Message) (path : list Z)
  : Res (list Q) :=
  ds <- mapM (fun v => a <- UG.node_attrs G v ;; dist_to_agent_brain a message) path ;;
  Ok (removelast ds).

(** What the filtering loop keeps of one entry of [paths]. *)
Definition kept (G : Graph) (message : Message) (threshold : Q) (path : list Z)
  : option (list Q) :=
  match distance_sequence G message path with
  | Ok ds => if within_threshold ds threshold then Some ds else None
  | Raise _ => None
  end.

End InfluenceVocabulary.

(** The store gives every link one cell of its own: a location belongs to
    one link, and lies inside the store. *)
Definition wf_store (G : Graph) : Prop :=
  (forall u v l, UG.edge_loc G u v = Some l -> (l < List.length (g_data G))%nat)
  /\ (forall u v u' v' l,
        UG.edge_loc G u v = Some l -> UG.edge_loc G u' v' = Some l ->
        same_link u v u' v' = true).

(** Three agents with the attribute [A], of whom 0 and 1 are friends. *)
Definition agent (id : Z) (a : Q) : Citizen :=
  mkCitizen (inject_Z id) ["A"%string] [] [("A"%string, a)].

Definition three_agents : list Citizen := [agent 0 1; agent 1 5; agent 2 3].

Definition one_friendship : list string := ["(link 0 1)"%string].

(** A distance of an agent to a message: how far its [A] is from it. *)
Definition dist_A (a : NodeAttrs) (message : Q) : Res Q :=
  x <- Dict.lookup string_dec "A"%string a ;;
  Ok (Qabs (x - message)).

Definition two_friendships : list string := ["(link 0 1)"%string; "(link 1 2)"%string].

Definition subscriber_0 : string := "(subscriber 9 0)"%string.
Definition subscriber_1 : string := "(subscriber 9 1)"%string.
Definition subscriber_2 : string := "(subscriber 9 2)"%string.

(** The answer that keeps source 2 alone, with the empty sequence. *)
Definition only_source_2 : list (Z * list Q) := [(2%Z, [])].

(** The claim that a hop is weighed by its origin: whatever Dijkstra's
    algorithm is charged for the hop from [u] to [v] is the distance of the
    attributes of [u] to the message. *)
Definition weighs_by_origin {Message : Type}
    (dist_to_agent_brain : NodeAttrs -> Message -> Res Q)
    (G : Graph) (message : Message) : Prop :=
  forall u v w, NX.hop_weight G u v = Ok w ->
    exists a, UG.node_attrs G u = Ok a /\ dist_to_agent_brain a message = Ok w.

(** The path graph 0 - 1 - 2 with the values 0, 5, 10 of the attribute [A]. *)
Definition path_agents : list Citizen := [agent 0 0; agent 1 5; agent 2 10].

(** Results that agree: the same exception, or related values. *)
Definition Res_rel {A : Type} (R : A -> A -> Prop) (x y : Res A) : Prop :=
  match x, y with
  | Ok a, Ok b => R a b
  | Raise e, Raise e' => e = e'
  | _, _ => False
  end.

(** The graph with the value of [attr] multiplied by [c] on every node:
    the value is read, multiplied in the arithmetic, and the product is
    recorded. *)
Definition scale_attrs {F : Type} {N : Number F} (c : F) (attr : string)
    (a : NodeAttrs) : NodeAttrs :=
  map (fun kv : string * Q =>
         if string_dec attr (fst kv)
         then (fst kv, to_Q (nmul c (of_Q (snd kv))))
         else kv) a.

Definition scale_attr {F : Type} {N : Number F} (c : F) (attr : string)
    (G : Graph) : Graph :=
  mkGraph
    (map (fun ne : Z * NodeEntry =>
            (fst ne, mkEntry (scale_attrs c attr (n_attrs (snd ne))) (n_nbrs (snd ne))))
         (g_nodes G))
    (g_data G).

(** Scaling by [c] keeps the quotients that the metrics are computed from:
    [c * max_attr_value] is zero only if [max_attr_value] is, and for every
    node the product of [c] and the value is a number that the graph
    records as it is, and divided by [c * max_attr_value] it gives the
    number that the value divided by [max_attr_value] gives.  In [exact] a
    positive [c] always does; in [binary64] the two divisions are rounded
    apart from one another. *)
Definition quotients_kept {F : Type} {N : Number F} (c max_attr_value : F)
    (attr : string) (G : Graph) : Prop :=
  is_zero (nmul c max_attr_value) = is_zero max_attr_value
  /\ Forall (fun node => forall x, node_value G attr node = Ok x ->
               of_Q (to_Q (nmul c x)) = nmul c x
               /\ ndiv (nmul c x) (nmul c max_attr_value)
                  = ndiv x max_attr_value)
            (UG.nodes G).

(** Every edge of a returned record joins two of its nodes. *)
Definition edges_within_nodes {LT : Type} (r : Nlogo LT) : Prop :=
  forall a b, In (a, b) (nl_edges r) -> In a (nl_nodes r) /\ In b (nl_nodes r).

(** The table can be sampled by the MAG loop: it has a row, and every row
    has an entry for each of the [len(p_edge)] columns that the loop reads. *)
Definition MAG_readable (p_edge : matrix) : Prop :=
  p_edge <> [] /\
  forall row, In row p_edge -> (List.length p_edge <= List.length row)%nat.

(** Every node carries the attribute, with a value equal to [v]. *)
Definition consensus (G : Graph) (node_attr : string) (v : Q) : Prop :=
  forall node, In node (UG.nodes G) ->
    exists x, node_value G node_attr node = Ok x /\ x == v.

(** No link has a negative ['weight']. *)
Definition weights_nonnegative (G : Graph) : Prop :=
  forall d w, In d (g_data G) -> ed_weight d = Some w -> 0 <= w.

(** The entry of [nx.adj_matrix(G)] for the nodes [u] and [v]. *)
Definition adj_entry (G : Graph) (u v : Z) : Q :=
  match UG.edge_data G u v with
  | Ok d => match ed_weight d with Some w => w | None => 1 end
  | Raise _ => 0
  end.

(** A directed graph lists every node once and every successor of a node
    once. *)
Definition dg_wf (D : DiGraph) : Prop :=
  NoDup (zkeys D) /\ Forall (fun ns : Z * list Z => NoDup (snd ns)) D.

(** The two ends that [nlogo_graph_to_nx] reads from a link: the second
    and third words, the closing parenthesis removed from the third only. *)
Definition link_ends (link : string) : Res (Z * Z) :=
  let link_split := split " "%char link in
  end1 <- item link_split 1 ;;
  end2' <- item link_split 2 ;;
  let end2 := remove_char ")"%char end2' in
  u <- py_int end1 ;;
  v <- py_int end2 ;;
  Ok (u, v).

(** The input on which the embedding of [nlogo_graph_to_nx] is exact: no
    citizen lists ['malleable'] or ['prior'] itself as an attribute (their
    values are lists, not numbers), and every link is an ASCII string of at
    most 4300 characters (on other characters [int()] has more white space
    and more digits, and interpreters refuse longer numerals). *)
Fixpoint is_ascii (s : string) : bool :=
  match s with
  | EmptyString => true
  | String c tl => (nat_of_ascii c <? 128)%nat && is_ascii tl
  end.

Definition plain_text (s : string) : bool :=
  is_ascii s && (String.length s <=? 4300)%nat.

Definition plain_input (citizens : list Citizen) (friend_links : list string)
  : Prop :=
  (forall cit attr, In cit citizens ->
     In attr (cit_malleable cit ++ cit_prior cit) ->
     attr <> "malleable"%string /\ attr <> "prior"%string)
  /\ (forall link, In link friend_links -> plain_text link = true).

(** The graph of [nlogo_graph_to_nx], or the empty graph when it raises. *)
Definition graph_of (citizens : list Citizen) (friend_links : list string) : Graph :=
  match nlogo_graph_to_nx citizens friend_links with
  | Ok G => G
  | Raise _ => UG.empty
  end.

(** The path 0 - 1 - 2 with the values 0, 5, 10; and the agents 0 - 1 with
    agent 2 on its own. *)
Definition path_graph : Graph := graph_of path_agents two_friendships.

Definition lonely_agent_graph : Graph := graph_of three_agents one_friendship.

(** The path 0 - 1 - 2 with the values 1, 3, 5, on a scale that ends at 6;
    and the same path with the value 1/10 on every node. *)
Definition belief_graph : Graph :=
  graph_of [agent 0 1; agent 1 3; agent 2 5] two_friendships.

Definition tenths_graph : Graph :=
  graph_of [agent 0 (1 # 10); agent 1 (1 # 10); agent 2 (1 # 10)] two_friendships.

(* ================================================================== *)
(** * Part II: properties *)

(* ------------------------------------------------------------------ *)
(** ** Arithmetic *)

Lemma Ok_inj {A : Type} (a b : A) : Ok a = Ok b -> a = b.
Proof. intros H. now injection H. Qed.

(** In [exact] the operations are those of [Q]. *)
Ltac exact_arith :=
  cbn [of_Q to_Q nadd nsub nmul ndiv nabs nsquare is_zero np_div exact] in *.

(* ------------------------------------------------------------------ *)
(** ** The error monad *)

Lemma bind_Ok_inv {A B : Type} (c : Res A) (k : A -> Res B) (b : B) :
  bind c k = Ok b -> exists a, c = Ok a /\ k a = Ok b.
Proof. destruct c as [a|e]; simpl; intros H; [eauto | discriminate]. Qed.

Lemma bind_Raise_l {A B : Type} (c : Res A) (k : A -> Res B) (e : exn) :
  c = Raise e -> bind c k = Raise e.
Proof. intros ->. reflexivity. Qed.

(** Inverts a hypothesis [bind c k = Ok b] into its two steps. *)
Ltac inv_bind_fresh H :=
  let a := fresh "a" in
  let Ha := fresh "Ha" in
  apply bind_Ok_inv in H; destruct H as (a & Ha & H).

Tactic Notation "inv_bind" hyp(H) := inv_bind_fresh H.

Tactic Notation "inv_bind" hyp(H) "as" simple_intropattern(a) ident(Ha) :=
  apply bind_Ok_inv in H; destruct H as (a & Ha & H).

(** An invariant of the loop state is carried through a [foldM]. *)
Lemma foldM_invariant {A S : Type} (P : S -> Prop) (body : S -> A -> Res S) :
  (forall s x s', P s -> body s x = Ok s' -> P s') ->
  forall xs s s', P s -> foldM body xs s = Ok s' -> P s'.
Proof.
  intros Hbody xs. induction xs as [|x tl IH]; simpl; intros s s' Hs H.
  - now inversion H; subst.
  - inv_bind H. eauto.
Qed.

(** The same, for a body that is known only on the elements of the list. *)
Lemma foldM_invariant_in {A S : Type} (P : S -> Prop) (body : S -> A -> Res S) xs :
  (forall s x s', In x xs -> P s -> body s x = Ok s' -> P s') ->
  forall s s', P s -> foldM body xs s = Ok s' -> P s'.
Proof.
  induction xs as [|x tl IH]; simpl; intros Hbody s s' Hs H.
  - now inversion H; subst.
  - inv_bind H. eapply IH; [ | | exact H]; eauto.
Qed.

(** A loop whose body cannot raise on states satisfying [P] completes. *)
Lemma foldM_total {A S : Type} (P : S -> Prop) (body : S -> A -> Res S) xs :
  (forall s x, In x xs -> P s -> exists s', body s x = Ok s' /\ P s') ->
  forall s, P s -> exists s', foldM body xs s = Ok s' /\ P s'.
Proof.
  induction xs as [|x tl IH]; simpl; intros Hbody s Hs.
  - eauto.
  - destruct (Hbody s x) as (s1 & E & H1); auto.
    rewrite E. simpl. apply IH; auto.
Qed.

Lemma NoDup_snoc {A : Type} (x : A) s : NoDup s -> ~ In x s -> NoDup (s ++ [x]).
Proof.
  intros H N. apply NoDup_rev in H. rewrite <- (rev_involutive (s ++ [x])).
  apply NoDup_rev. rewrite rev_app_distr. simpl. constructor; auto.
  now rewrite <- in_rev.
Qed.

(* ------------------------------------------------------------------ *)
(** ** Dictionaries *)

Section DictFacts.
Variables K V : Type.
Variable K_dec : forall x y : K, {x = y} + {x <> y}.

Local Abbreviation get := (Dict.get K_dec).
Local Abbreviation set := (Dict.set K_dec).
Local Abbreviation del := (Dict.del K_dec).
Local Abbreviation keys := (@Dict.keys K V).

Lemma get_set_eq k (v : V) d : get k (set k v d) = Some v.
Proof.
  induction d as [|[k' v'] tl IH]; simpl.
  - destruct (K_dec k k); congruence.
  - destruct (K_dec k k') as [E|N]; simpl.
    + destruct (K_dec k k'); congruence.
    + destruct (K_dec k k'); congruence.
Qed.

Lemma get_set_neq k k' (v : V) d : k <> k' -> get k' (set k v d) = get k' d.
Proof.
  intros N. induction d as [|[k0 v0] tl IH]; simpl.
  - destruct (K_dec k' k); congruence.
  - destruct (K_dec k k0) as [E|N0]; simpl.
    + subst k0. destruct (K_dec k' k); congruence.
    + destruct (K_dec k' k0); congruence.
Qed.

Lemma get_del_eq k (d : Dict.t K V) : get k (del k d) = None.
Proof.
  induction d as [|[k0 v0] tl IH]; simpl; auto.
  destruct (K_dec k k0); simpl; auto.
  destruct (K_dec k k0); congruence.
Qed.

Lemma get_del_neq k k' (d : Dict.t K V) : k <> k' -> get k' (del k d) = get k' d.
Proof.
  intros N. induction d as [|[k0 v0] tl IH]; simpl; auto.
  destruct (K_dec k k0) as [E|N0]; simpl.
  - subst k0. destruct (K_dec k' k); congruence.
  - destruct (K_dec k' k0); congruence.
Qed.

Lemma get_app k (d1 d2 : Dict.t K V) :
  get k (d1 ++ d2) = match get k d1 with Some v => Some v | None => get k d2 end.
Proof.
  induction d1 as [|[k0 v0] tl IH]; simpl; auto.
  destruct (K_dec k k0); auto.
Qed.

Lemma get_Some_in k (v : V) d : get k d = Some v -> In (k, v) d.
Proof.
  induction d as [|[k0 v0] tl IH]; simpl; [discriminate|].
  destruct (K_dec k k0); intros H.
  - injection H as ->. subst. now left.
  - right. auto.
Qed.

Lemma in_keys_get k (d : Dict.t K V) : In k (keys d) <-> exists v, get k d = Some v.
Proof.
  induction d as [|[k0 v0] tl IH]; simpl.
  - split; [tauto | intros [v H]; discriminate].
  - destruct (K_dec k k0) as [E|N].
    + split; eauto.
    + rewrite <- IH. split; [intros [H|H]; congruence || auto | auto].
Qed.

Lemma get_None_keys k (d : Dict.t K V) : get k d = None <-> ~ In k (keys d).
Proof.
  rewrite in_keys_get. destruct (get k d).
  - split; [discriminate | intros H; exfalso; eauto].
  - split; [intros _ [v H]; discriminate | auto].
Qed.

(** With unique keys, an entry of the list is what [get] finds. *)
Lemma in_get_NoDup k (v : V) d : NoDup (keys d) -> In (k, v) d -> get k d = Some v.
Proof.
  induction d as [|[k0 v0] tl IH]; simpl; [tauto|].
  intros ND [H|H].
  - injection H as -> ->. destruct (K_dec k k); congruence.
  - inversion ND as [|? ? Hn ND']; subst.
    destruct (K_dec k k0) as [E|N]; auto.
    subst k0. exfalso. apply Hn. apply in_map_iff. now exists (k, v).
Qed.

Lemma mem_true k (d : Dict.t K V) : Dict.mem K_dec k d = true <-> In k (keys d).
Proof.
  unfold Dict.mem. rewrite in_keys_get. destruct (get k d).
  - split; eauto.
  - split; [discriminate | intros [v H]; discriminate].
Qed.

Lemma mem_false k (d : Dict.t K V) : Dict.mem K_dec k d = false <-> ~ In k (keys d).
Proof.
  rewrite <- mem_true. destruct (Dict.mem K_dec k d); split; congruence.
Qed.

Lemma keys_set k (v : V) d k' : In k' (keys (set k v d)) <-> k' = k \/ In k' (keys d).
Proof.
  rewrite !in_keys_get. destruct (K_dec k k') as [E|N].
  - subst. rewrite get_set_eq. split; eauto.
  - rewrite get_set_neq by assumption. split; [eauto | intros [H|H]; congruence].
Qed.

Lemma keys_del k (d : Dict.t K V) k' : In k' (keys (del k d)) <-> k' <> k /\ In k' (keys d).
Proof.
  rewrite !in_keys_get. destruct (K_dec k k') as [E|N].
  - subst. rewrite get_del_eq. split; [intros [v H]; discriminate | tauto].
  - rewrite get_del_neq by assumption. split; [intros; split; congruence | tauto].
Qed.

(** Deleting keeps the relative order of the remaining keys. *)
Lemma keys_del_filter k (d : Dict.t K V) :
  keys (del k d) = filter (fun x => if K_dec k x then false else true) (keys d).
Proof.
  induction d as [|[k0 v0] tl IH]; simpl; auto.
  destruct (K_dec k k0); simpl; congruence.
Qed.

(** Overwriting a key that is present changes neither keys nor order. *)
Lemma keys_set_present k (v : V) d : In k (keys d) -> keys (set k v d) = keys d.
Proof.
  induction d as [|[k0 v0] tl IH]; simpl; [tauto|].
  destruct (K_dec k k0) as [E|N]; simpl; auto.
  intros [H|H]; [congruence|]. now rewrite IH.
Qed.

Lemma keys_set_absent k (v : V) d : ~ In k (keys d) -> keys (set k v d) = keys d ++ [k].
Proof.
  induction d as [|[k0 v0] tl IH]; simpl; auto.
  destruct (K_dec k k0) as [E|N]; simpl; intros H.
  - exfalso. auto.
  - rewrite IH; auto.
Qed.

Lemma NoDup_keys_set k (v : V) d : NoDup (keys d) -> NoDup (keys (set k v d)).
Proof.
  intros H. destruct (in_dec K_dec k (keys d)) as [Hin|Hout].
  - now rewrite keys_set_present.
  - rewrite keys_set_absent by assumption. now apply NoDup_snoc.
Qed.

End DictFacts.

(* ------------------------------------------------------------------ *)
(** ** Sets *)

Lemma zmem_true x s : zmem x s = true <-> In x s.
Proof. unfold zmem. destruct (in_dec Z.eq_dec x s); split; congruence || auto. Qed.

Lemma zmem_false x s : zmem x s = false <-> ~ In x s.
Proof. unfold zmem. destruct (in_dec Z.eq_dec x s); split; congruence || auto. Qed.

Lemma set_add_in x s y : In y (set_add x s) <-> y = x \/ In y s.
Proof.
  unfold set_add. destruct (zmem x s) eqn:E.
  - apply zmem_true in E. split; [auto | intros [->|H]; auto].
  - rewrite in_app_iff. simpl. split; [intros [H|[H|[]]]; auto | intros [H|H]; auto].
Qed.

Lemma set_update_in xs : forall s y, In y (set_update s xs) <-> In y s \/ In y xs.
Proof.
  induction xs as [|x tl IH]; simpl; intros s y.
  - tauto.
  - unfold set_update in *. simpl. rewrite IH, set_add_in.
    intuition congruence.
Qed.


Lemma set_diff_in s t x : In x (set_diff s t) <-> In x s /\ ~ In x t.
Proof.
  unfold set_diff. rewrite filter_In, negb_true_iff, zmem_false. tauto.
Qed.

(* ------------------------------------------------------------------ *)
(** ** Directed graphs and [bidirected_graph] *)

Lemma dg_edges_app D1 D2 : DG.edges (D1 ++ D2) = DG.edges D1 ++ DG.edges D2.
Proof. unfold DG.edges. apply flat_map_app. Qed.

Lemma dg_add_node_edges n D : DG.edges (DG.add_node n D) = DG.edges D.
Proof.
  unfold DG.add_node. destruct (zhas n D); auto.
  rewrite dg_edges_app. simpl. now rewrite app_nil_r.
Qed.

Lemma dg_add_node_nodes n D x :
  In x (DG.nodes (DG.add_node n D)) <-> x = n \/ In x (DG.nodes D).
Proof.
  unfold DG.add_node, DG.nodes, zkeys, zhas.
  destruct (Dict.mem Z.eq_dec n D) eqn:E.
  - apply mem_true in E. split; [auto | intros [->|H]; auto].
  - unfold Dict.keys. rewrite map_app, in_app_iff. simpl. intuition.
Qed.

(** Extending the successors of a node that is present by [v] adds the one
    pair [(u, v)] to the edges. *)
Lemma dg_edges_set u v D e :
  In u (DG.nodes D) ->
  In e (DG.edges (zset u (set_add v (DG.succ D u)) D)) <-> e = (u, v) \/ In e (DG.edges D).
Proof.
  unfold DG.succ, DG.nodes, zkeys, zset, zget.
  induction D as [|[k ss] tl IH]; simpl; [tauto|].
  intros Hin. destruct (Z.eq_dec u k) as [E|N].
  - subst k. simpl. rewrite !in_app_iff, !in_map_iff.
    split.
    + intros [(y & <- & Hy)|H]; [|now auto].
      apply set_add_in in Hy. destruct Hy as [->|Hy]; [now left|].
      right. left. eauto.
    + intros [->|[(y & <- & Hy)|H]].
      * left. exists v. split; auto. apply set_add_in. auto.
      * left. exists y. split; auto. apply set_add_in. auto.
      * auto.
  - simpl. rewrite !in_app_iff. destruct Hin as [H|H]; [congruence|].
    rewrite (IH H). tauto.
Qed.

Lemma dg_add_edge_edges u v D e :
  In e (DG.edges (DG.add_edge u v D)) <-> e = (u, v) \/ In e (DG.edges D).
Proof.
  unfold DG.add_edge. rewrite dg_edges_set.
  - now rewrite !dg_add_node_edges.
  - apply dg_add_node_nodes. right. apply dg_add_node_nodes. now left.
Qed.

Lemma dg_add_edge_nodes u v D x :
  In x (DG.nodes (DG.add_edge u v D)) <-> x = u \/ x = v \/ In x (DG.nodes D).
Proof.
  unfold DG.add_edge, DG.nodes, zkeys, zset.
  rewrite keys_set. fold (@zkeys (list Z)). fold (DG.nodes (DG.add_node v (DG.add_node u D))).
  rewrite !dg_add_node_nodes. tauto.
Qed.

(** The loop of [bidirected_graph], started from any directed graph. *)
Lemma bidirect_loop_edges es : forall D e,
  In e (DG.edges
          (fold_left (fun B edge =>
             DG.add_edge (snd edge) (fst edge) (DG.add_edge (fst edge) (snd edge) B))
             es D))
  <-> In e (DG.edges D) \/ In e es \/ In (snd e, fst e) es.
Proof.
  induction es as [|[a b] tl IH]; simpl; intros D e.
  - tauto.
  - rewrite IH, !dg_add_edge_edges. destruct e as [x y]. simpl.
    intuition congruence.
Qed.

Lemma bidirect_loop_nodes es : forall D x,
  In x (DG.nodes
          (fold_left (fun B edge =>
             DG.add_edge (snd edge) (fst edge) (DG.add_edge (fst edge) (snd edge) B))
             es D))
  <-> In x (DG.nodes D) \/ exists y, In (x, y) es \/ In (y, x) es.
Proof.
  induction es as [|[a b] tl IH]; simpl; intros D x.
  - split; [auto | intros [H|(y & [[]|[]])]; auto].
  - rewrite IH, !dg_add_edge_nodes. split.
    + intros [[E|[E|[E|[E|H]]]]|(y & H)]; subst; eauto 6.
      right. exists y. tauto.
    + intros [H|(y & [[H|H]|[H|H]])]; eauto 7;
        injection H as -> ->; auto.
Qed.

Lemma bidirected_graph_in_edges G u v :
  In (u, v) (DG.edges (bidirected_graph G))
  <-> In (u, v) (UG.edges G) \/ In (v, u) (UG.edges G).
Proof.
  unfold bidirected_graph. rewrite bidirect_loop_edges. simpl. tauto.
Qed.

Lemma bidirected_graph_in_nodes G x :
  In x (DG.nodes (bidirected_graph G))
  <-> exists y, In (x, y) (UG.edges G) \/ In (y, x) (UG.edges G).
Proof.
  unfold bidirected_graph. rewrite bidirect_loop_nodes. simpl. tauto.
Qed.

Lemma nlogo_safe_edges {LT T : Type} `{GraphLike T} (G : T) :
  nl_edges (@nlogo_safe_nodes_edges LT T _ G) = nx_edges G.
Proof.
  unfold nlogo_safe_nodes_edges. simpl.
  rewrite <- (map_id (nx_edges G)) at 2. apply map_ext. now intros [a b].
Qed.

Lemma nlogo_safe_nodes {LT T : Type} `{GraphLike T} (G : T) :
  nl_nodes (@nlogo_safe_nodes_edges LT T _ G) = nx_nodes G.
Proof. reflexivity. Qed.

(** C4. For every undirected graph [G], the directed graph made by
    [bidirected_graph] has the pair [(u, v)] exactly when it has [(v, u)],
    and it has [(u, v)] exactly when the link between [u] and [v] is one of
    the edges of [G] (reported by [G.edges] in one of the two orders); so
    no pair is present whose link is not in [G]. *)
Theorem bidirected_graph_symmetric_and_exact (G : Graph) (u v : Z) :
  (In (u, v) (DG.edges (bidirected_graph G))
     <-> In (v, u) (DG.edges (bidirected_graph G)))
  /\ (In (u, v) (DG.edges (bidirected_graph G))
     <-> (In (u, v) (UG.edges G) \/ In (v, u) (UG.edges G))).
Proof.
  split.
  - rewrite !bidirected_graph_in_edges. tauto.
  - apply bidirected_graph_in_edges.
Qed.

(* ------------------------------------------------------------------ *)
(** ** Undirected graphs: adjacency after each operation *)

Lemma adj_nbrs G a : UG.adj G a = nbrs (g_nodes G) a.
Proof. reflexivity. Qed.

Lemma nbrs_absent ns a : ~ In a (zkeys ns) -> nbrs ns a = [].
Proof.
  intros H. unfold nbrs. apply (get_None_keys Z.eq_dec) in H. unfold zget. now rewrite H.
Qed.

Lemma zkeys_adj_set u v l ns : zkeys (UG.adj_set u v l ns) = zkeys ns.
Proof.
  unfold UG.adj_set. destruct (zget u ns) eqn:E; auto.
  apply keys_set_present. apply (in_keys_get Z.eq_dec). eauto.
Qed.

Lemma zkeys_adj_del u n ns : zkeys (UG.adj_del u n ns) = zkeys ns.
Proof.
  unfold UG.adj_del. destruct (zget u ns) eqn:E; auto.
  apply keys_set_present. apply (in_keys_get Z.eq_dec). eauto.
Qed.

Lemma nbrs_adj_set u v l ns a :
  In u (zkeys ns) ->
  nbrs (UG.adj_set u v l ns) a
  = if Z.eq_dec a u then zset v l (nbrs ns u) else nbrs ns a.
Proof.
  intros Hu. apply (in_keys_get Z.eq_dec) in Hu. destruct Hu as [e He].
  unfold UG.adj_set, nbrs, zget, zset in *. rewrite He.
  destruct (Z.eq_dec a u) as [->|N].
  - now rewrite get_set_eq.
  - rewrite get_set_neq; auto.
Qed.

Lemma nbrs_adj_del w n ns a :
  nbrs (UG.adj_del w n ns) a
  = if Z.eq_dec a w then zdel n (nbrs ns a) else nbrs ns a.
Proof.
  unfold UG.adj_del, nbrs, zget, zset.
  destruct (Dict.get Z.eq_dec w ns) as [e|] eqn:He.
  - destruct (Z.eq_dec a w) as [->|N].
    + now rewrite get_set_eq, He.
    + rewrite get_set_neq; auto.
  - destruct (Z.eq_dec a w) as [->|N]; auto. now rewrite He.
Qed.

Lemma nodes_add_node n G x :
  In x (UG.nodes (UG.add_node n G)) <-> x = n \/ In x (UG.nodes G).
Proof.
  unfold UG.add_node, UG.has_node, UG.nodes, zhas, zkeys.
  destruct (Dict.mem Z.eq_dec n (g_nodes G)) eqn:E.
  - apply mem_true in E. split; [auto | intros [->|H]; auto].
  - simpl. unfold Dict.keys. rewrite map_app, in_app_iff. simpl. intuition.
Qed.

Lemma NoDup_add_node n G : NoDup (UG.nodes G) -> NoDup (UG.nodes (UG.add_node n G)).
Proof.
  unfold UG.add_node, UG.has_node, UG.nodes, zhas, zkeys.
  destruct (Dict.mem Z.eq_dec n (g_nodes G)) eqn:E; auto.
  intros H. simpl. unfold Dict.keys. rewrite map_app. simpl.
  apply NoDup_snoc; auto. now apply mem_false in E.
Qed.

Lemma adj_add_node n G a : UG.adj (UG.add_node n G) a = UG.adj G a.
Proof.
  unfold UG.add_node, UG.has_node, zhas.
  destruct (Dict.mem Z.eq_dec n (g_nodes G)) eqn:E; auto.
  unfold UG.adj, zget. simpl. rewrite get_app.
  destruct (Dict.get Z.eq_dec a (g_nodes G)); auto.
  simpl. destruct (Z.eq_dec a n); auto.
Qed.

Lemma edge_loc_add_node n G a b :
  UG.edge_loc (UG.add_node n G) a b = UG.edge_loc G a b.
Proof. unfold UG.edge_loc. now rewrite adj_add_node. Qed.

Lemma data_add_node n G : g_data (UG.add_node n G) = g_data G.
Proof. unfold UG.add_node. now destruct (UG.has_node G n). Qed.

Lemma same_link_sym u v a b : same_link u v a b = same_link u v b a.
Proof.
  unfold same_link.
  destruct (Z.eqb_spec a u), (Z.eqb_spec b v), (Z.eqb_spec a v), (Z.eqb_spec b u);
    simpl; auto.
Qed.

Lemma nodes_add_edge_eq u v G :
  UG.nodes (UG.add_edge u v G) = UG.nodes (UG.add_node v (UG.add_node u G)).
Proof.
  unfold UG.add_edge.
  destruct (UG.edge_loc (UG.add_node v (UG.add_node u G)) u v);
    unfold UG.nodes; simpl; now rewrite !zkeys_adj_set.
Qed.

Lemma nodes_add_edge u v G x :
  In x (UG.nodes (UG.add_edge u v G)) <-> x = u \/ x = v \/ In x (UG.nodes G).
Proof. rewrite nodes_add_edge_eq, !nodes_add_node. tauto. Qed.

Lemma adj_add_edge u v G a :
  UG.adj (UG.add_edge u v G) a
  = let l := link_loc G u v in
    let n1 := fun x => if Z.eq_dec x u then zset v l (UG.adj G u) else UG.adj G x in
    if Z.eq_dec a v then zset u l (n1 v) else n1 a.
Proof.
  set (G2 := UG.add_node v (UG.add_node u G)).
  assert (Hu : In u (zkeys (g_nodes G2))).
  { apply nodes_add_node. right. apply nodes_add_node. now left. }
  assert (Hv : In v (zkeys (g_nodes G2))).
  { apply nodes_add_node. now left. }
  assert (Hadj : forall x, nbrs (g_nodes G2) x = UG.adj G x).
  { intros x. unfold G2. rewrite <- adj_nbrs, !adj_add_node. reflexivity. }
  assert (Hl : forall l x,
    nbrs (UG.adj_set v u l (UG.adj_set u v l (g_nodes G2))) x
    = if Z.eq_dec x v
      then zset u l (if Z.eq_dec v u then zset v l (UG.adj G u) else UG.adj G v)
      else if Z.eq_dec x u then zset v l (UG.adj G u) else UG.adj G x).
  { intros l x. rewrite nbrs_adj_set by now rewrite zkeys_adj_set.
    rewrite !nbrs_adj_set by assumption. now rewrite !Hadj. }
  unfold link_loc, UG.add_edge. fold G2.
  replace (UG.edge_loc G u v) with (UG.edge_loc G2 u v)
    by (unfold G2; now rewrite !edge_loc_add_node).
  replace (g_data G) with (g_data G2) by (unfold G2; now rewrite !data_add_node).
  destruct (UG.edge_loc G2 u v); rewrite adj_nbrs; simpl; apply Hl.
Qed.

Lemma edge_loc_add_edge u v G a b :
  UG.edge_loc (UG.add_edge u v G) a b
  = if same_link u v a b then Some (link_loc G u v) else UG.edge_loc G a b.
Proof.
  unfold UG.edge_loc. rewrite adj_add_edge. cbv zeta. unfold same_link, zget, zset.
  destruct (Z.eq_dec a v) as [->|Nav].
  - rewrite Z.eqb_refl. destruct (Z.eq_dec b u) as [->|Nbu].
    + rewrite Z.eqb_refl, get_set_eq. simpl. now rewrite orb_true_r.
    + rewrite get_set_neq by congruence.
      destruct (Z.eqb_spec b u); [congruence|]. simpl. rewrite orb_false_r.
      destruct (Z.eq_dec v u) as [->|Nvu].
      * rewrite Z.eqb_refl. simpl.
        destruct (Z.eqb_spec b u); [congruence|].
        rewrite get_set_neq by congruence. reflexivity.
      * destruct (Z.eqb_spec v u); [congruence|]. reflexivity.
  - destruct (Z.eqb_spec a v); [congruence|]. simpl. rewrite orb_false_r.
    destruct (Z.eq_dec a u) as [->|Nau].
    + rewrite Z.eqb_refl. simpl. destruct (Z.eq_dec b v) as [->|Nbv].
      * now rewrite Z.eqb_refl, get_set_eq.
      * destruct (Z.eqb_spec b v); [congruence|].
        now rewrite get_set_neq by congruence.
    + destruct (Z.eqb_spec a u); [congruence|]. reflexivity.
Qed.

(* ------------------------------------------------------------------ *)
(** ** The invariant of undirected graphs *)

Lemma wf_empty : UG.wf UG.empty.
Proof. split; [constructor | intros u v l H; discriminate]. Qed.

Lemma wf_add_node n G : UG.wf G -> UG.wf (UG.add_node n G).
Proof.
  intros [ND Sym]. split.
  - now apply NoDup_add_node.
  - intros u v l. rewrite !edge_loc_add_node. apply Sym.
Qed.

Lemma wf_add_nodes_from ns : forall G, UG.wf G -> UG.wf (UG.add_nodes_from ns G).
Proof.
  unfold UG.add_nodes_from.
  induction ns as [|n tl IH]; simpl; intros G H; auto using wf_add_node.
Qed.

Lemma wf_add_edge u v G : UG.wf G -> UG.wf (UG.add_edge u v G).
Proof.
  intros [ND Sym]. split.
  - rewrite nodes_add_edge_eq. now repeat apply NoDup_add_node.
  - intros a b l. rewrite !edge_loc_add_edge, (same_link_sym u v b a).
    destruct (same_link u v a b); auto.
Qed.

(** A neighbour is a node. *)
Lemma wf_nbr_is_node G u v l :
  UG.wf G -> UG.edge_loc G u v = Some l -> In u (UG.nodes G) /\ In v (UG.nodes G).
Proof.
  intros [ND Sym] H.
  assert (Hn : forall a b l', UG.edge_loc G a b = Some l' -> In a (UG.nodes G)).
  { intros a b l' E. unfold UG.edge_loc, UG.adj in E.
    destruct (zget a (g_nodes G)) eqn:Ea; [|discriminate].
    apply (in_keys_get Z.eq_dec). eauto. }
  split; [eapply Hn; eauto | eapply Hn; apply Sym; eauto].
Qed.

Lemma zmem_nodupb xs : UG.nodupb xs = true -> NoDup xs.
Proof.
  induction xs as [|x tl IH]; simpl; intros H; constructor;
    apply andb_prop in H; destruct H as [H1 H2]; auto.
  apply negb_true_iff in H1. now apply zmem_false in H1.
Qed.

(** The executable check establishes the invariant. *)
Lemma wfb_wf G : UG.wfb G = true -> UG.wf G.
Proof.
  unfold UG.wfb. intros H. apply andb_prop in H. destruct H as [H1 H2].
  split; [now apply zmem_nodupb|].
  intros u v l E. unfold UG.edge_loc, UG.adj in E.
  destruct (zget u (g_nodes G)) as [e|] eqn:Eu; [|discriminate].
  apply get_Some_in in Eu. apply get_Some_in in E.
  rewrite forallb_forall in H2. specialize (H2 _ Eu). simpl in H2.
  rewrite forallb_forall in H2. specialize (H2 _ E). simpl in H2.
  destruct (UG.edge_loc G v u) as [l'|]; [|discriminate].
  apply Nat.eqb_eq in H2. now subst.
Qed.

(** *** Removing nodes *)

Lemma zkeys_fold_adj_del n ws : forall ns,
  zkeys (fold_left (fun ns u => UG.adj_del u n ns) ws ns) = zkeys ns.
Proof.
  induction ws as [|w tl IH]; simpl; intros ns; auto.
  now rewrite IH, zkeys_adj_del.
Qed.

Lemma nbrs_fold_adj_del n ws : forall ns a b,
  zget b (nbrs (fold_left (fun ns u => UG.adj_del u n ns) ws ns) a)
  = if Z.eq_dec b n
    then (if in_dec Z.eq_dec a ws then None else zget n (nbrs ns a))
    else zget b (nbrs ns a).
Proof.
  induction ws as [|w tl IH]; intros ns a b; cbn [fold_left].
  - destruct (Z.eq_dec b n); [|reflexivity].
    destruct (in_dec Z.eq_dec a []) as [[]|_]. congruence.
  - rewrite IH, nbrs_adj_del. unfold zget, zdel.
    destruct (Z.eq_dec b n) as [Eb|Nb]; [subst b|].
    + destruct (in_dec Z.eq_dec a tl) as [Hin|Hout].
      * destruct (in_dec Z.eq_dec a (w :: tl)) as [?|C]; auto.
        exfalso. apply C. now right.
      * destruct (Z.eq_dec a w) as [Ea|Na].
        -- subst w. rewrite get_del_eq.
           destruct (in_dec Z.eq_dec a (a :: tl)) as [?|C]; auto.
           exfalso. apply C. now left.
        -- destruct (in_dec Z.eq_dec a (w :: tl)) as [[C|C]|?]; auto;
             [congruence | contradiction].
    + destruct (Z.eq_dec a w); auto. apply get_del_neq. congruence.
Qed.

Lemma nodes_remove_node n G x :
  In x (UG.nodes (UG.remove_node n G)) <-> x <> n /\ In x (UG.nodes G).
Proof.
  unfold UG.remove_node, UG.has_node, UG.nodes, zhas.
  destruct (Dict.mem Z.eq_dec n (g_nodes G)) eqn:E; simpl.
  - unfold zkeys, zdel. rewrite keys_del.
    fold (@zkeys NodeEntry). now rewrite zkeys_fold_adj_del.
  - apply mem_false in E. split; [|tauto].
    intros H. split; auto. intros ->. contradiction.
Qed.

Lemma NoDup_remove_node n G :
  NoDup (UG.nodes G) -> NoDup (UG.nodes (UG.remove_node n G)).
Proof.
  unfold UG.remove_node, UG.has_node, UG.nodes, zhas.
  destruct (Dict.mem Z.eq_dec n (g_nodes G)) eqn:E; simpl; auto.
  intros H. unfold zkeys, zdel. rewrite keys_del_filter.
  apply NoDup_filter. fold (@zkeys NodeEntry). now rewrite zkeys_fold_adj_del.
Qed.

(** Adjacency between two other nodes is untouched by a removal. *)
Lemma edge_loc_remove_node_other n G a b :
  a <> n -> b <> n ->
  UG.edge_loc (UG.remove_node n G) a b = UG.edge_loc G a b.
Proof.
  intros Na Nb. unfold UG.remove_node. destruct (UG.has_node G n); auto.
  unfold UG.edge_loc. rewrite !adj_nbrs. simpl.
  transitivity (zget b (nbrs (fold_left (fun ns u => UG.adj_del u n ns)
                                (zkeys (UG.adj G n)) (g_nodes G)) a)).
  - f_equal. unfold nbrs, zget, zdel. now rewrite get_del_neq by congruence.
  - rewrite nbrs_fold_adj_del. destruct (Z.eq_dec b n); congruence.
Qed.

(** In a graph that satisfies the invariant, the removed node is gone from
    every adjacency. *)
Lemma edge_loc_remove_node n G a b :
  UG.wf G ->
  UG.edge_loc (UG.remove_node n G) a b
  = if Z.eq_dec a n then None
    else if Z.eq_dec b n then None else UG.edge_loc G a b.
Proof.
  intros [ND Sym].
  destruct (Z.eq_dec a n) as [->|Na].
  - unfold UG.remove_node, UG.has_node, zhas.
    destruct (Dict.mem Z.eq_dec n (g_nodes G)) eqn:E.
    + unfold UG.edge_loc, UG.adj, zget, zdel. simpl. now rewrite get_del_eq.
    + apply mem_false in E. unfold UG.edge_loc. rewrite adj_nbrs.
      now rewrite nbrs_absent.
  - destruct (Z.eq_dec b n) as [->|Nb];
      [|now apply edge_loc_remove_node_other].
    unfold UG.remove_node, UG.has_node, zhas.
    destruct (Dict.mem Z.eq_dec n (g_nodes G)) eqn:E.
    + unfold UG.edge_loc. rewrite !adj_nbrs. simpl.
      transitivity (zget n (nbrs (fold_left (fun ns u => UG.adj_del u n ns)
                                    (zkeys (UG.adj G n)) (g_nodes G)) a)).
      * f_equal. unfold nbrs, zget, zdel. now rewrite get_del_neq by congruence.
      * rewrite nbrs_fold_adj_del. destruct (Z.eq_dec n n); [|congruence].
        destruct (in_dec Z.eq_dec a (zkeys (UG.adj G n))) as [?|Hout]; auto.
        destruct (zget n (nbrs (g_nodes G) a)) as [l|] eqn:El; auto.
        exfalso. apply Hout. apply (in_keys_get Z.eq_dec).
        exists l. now apply Sym.
    + destruct (UG.edge_loc G a n) as [l|] eqn:El; auto.
      apply Sym in El. apply mem_false in E.
      unfold UG.edge_loc in El. rewrite adj_nbrs, nbrs_absent in El by assumption.
      discriminate.
Qed.

Lemma wf_remove_node n G : UG.wf G -> UG.wf (UG.remove_node n G).
Proof.
  intros W. split.
  - apply NoDup_remove_node, W.
  - intros a b l. rewrite !edge_loc_remove_node by assumption.
    destruct (Z.eq_dec a n), (Z.eq_dec b n); try discriminate. apply W.
Qed.

Lemma wf_remove_nodes_from ns : forall G, UG.wf G -> UG.wf (UG.remove_nodes_from ns G).
Proof.
  unfold UG.remove_nodes_from.
  induction ns as [|n tl IH]; simpl; intros G H; auto using wf_remove_node.
Qed.

Lemma nodes_remove_nodes_from ns : forall G x,
  In x (UG.nodes (UG.remove_nodes_from ns G)) <-> ~ In x ns /\ In x (UG.nodes G).
Proof.
  unfold UG.remove_nodes_from.
  induction ns as [|n tl IH]; simpl; intros G x.
  - tauto.
  - rewrite IH, nodes_remove_node. intuition congruence.
Qed.

Lemma edge_loc_remove_nodes_from ns : forall G a b,
  ~ In a ns -> ~ In b ns ->
  UG.edge_loc (UG.remove_nodes_from ns G) a b = UG.edge_loc G a b.
Proof.
  unfold UG.remove_nodes_from.
  induction ns as [|n tl IH]; simpl; intros G a b Ha Hb; auto.
  rewrite IH by tauto. apply edge_loc_remove_node_other; intros ->; tauto.
Qed.

(* ------------------------------------------------------------------ *)
(** ** What [G.edges] reports *)

Lemma edges_from_in items : forall seen a b,
  In (a, b) (UG.edges_from seen items) ->
  exists e, In (a, e) items /\ In b (zkeys (n_nbrs e)) /\ ~ In b seen.
Proof.
  induction items as [|[n e] rest IH]; simpl; intros seen a b H; [tauto|].
  apply in_app_iff in H. destruct H as [H|H].
  - apply in_map_iff in H. destruct H as (y & E & Hy). injection E as -> ->.
    apply filter_In in Hy. destruct Hy as [Hy1 Hy2].
    apply negb_true_iff, zmem_false in Hy2. eauto.
  - apply IH in H. destruct H as (e' & H1 & H2 & H3).
    exists e'. repeat split; auto. intros C. apply H3. now right.
Qed.

(** A reported pair is an adjacency entry. *)
Lemma edges_edge_loc G a b :
  NoDup (UG.nodes G) -> In (a, b) (UG.edges G) ->
  exists l, UG.edge_loc G a b = Some l.
Proof.
  intros ND H. apply edges_from_in in H. destruct H as (e & H1 & H2 & _).
  apply (in_get_NoDup Z.eq_dec) in H1; auto.
  apply (in_keys_get Z.eq_dec) in H2. destruct H2 as [l Hl].
  exists l. unfold UG.edge_loc, UG.adj, zget. now rewrite H1.
Qed.

Lemma edges_from_cover items : forall seen a b la lb,
  ~ In a seen -> ~ In b seen ->
  zget b (nbrs items a) = Some la ->
  zget a (nbrs items b) = Some lb ->
  In (a, b) (UG.edges_from seen items) \/ In (b, a) (UG.edges_from seen items).
Proof.
  unfold nbrs, zget.
  induction items as [|[n e] rest IH]; simpl; intros seen a b la lb Ha Hb Hab Hba;
    [discriminate|].
  rewrite !in_app_iff, !in_map_iff.
  destruct (Z.eq_dec a n) as [Ea|Na].
  - subst n. left. left. exists b. split; auto.
    apply filter_In. split.
    + apply (in_keys_get Z.eq_dec). eauto.
    + apply negb_true_iff, zmem_false. assumption.
  - destruct (Z.eq_dec b n) as [Eb|Nb].
    + subst n. right. left. exists a. split; auto.
      apply filter_In. split.
      * apply (in_keys_get Z.eq_dec). eauto.
      * apply negb_true_iff, zmem_false. assumption.
    + destruct (IH (n :: seen) a b la lb) as [H|H]; auto.
      * simpl. intuition congruence.
      * simpl. intuition congruence.
Qed.

(** Every link of the adjacency is reported, in one of the two orders. *)
Lemma edges_cover G a b l :
  UG.wf G -> UG.edge_loc G a b = Some l ->
  In (a, b) (UG.edges G) \/ In (b, a) (UG.edges G).
Proof.
  intros [ND Sym] H. pose proof (Sym _ _ _ H) as H'. unfold UG.edges.
  apply (@edges_from_cover (g_nodes G) [] a b l l); auto.
Qed.

Lemma edges_iff_edge_loc G a b :
  UG.wf G ->
  (In (a, b) (UG.edges G) \/ In (b, a) (UG.edges G))
  <-> exists l, UG.edge_loc G a b = Some l.
Proof.
  intros W. split.
  - intros [H|H]; apply edges_edge_loc in H; try apply W; auto.
    destruct H as [l H]. exists l. now apply W.
  - intros [l H]. eapply edges_cover; eauto.
Qed.

Lemma degree_zero_adj G v : UG.degree G v = O -> UG.adj G v = [].
Proof.
  unfold UG.degree. destruct (UG.adj G v); simpl; [auto | discriminate].
Qed.

(** A node of degree zero is on no reported edge. *)
Lemma degree_zero_no_edge G v w :
  UG.wf G -> UG.degree G v = O ->
  ~ (In (v, w) (UG.edges G) \/ In (w, v) (UG.edges G)).
Proof.
  intros W D H. apply edges_iff_edge_loc in H; auto.
  destruct H as [l H]. unfold UG.edge_loc in H.
  rewrite (degree_zero_adj _ _ D) in H. discriminate.
Qed.

Lemma bidirected_graph_isolated G v :
  UG.wf G -> UG.degree G v = O -> ~ In v (DG.nodes (bidirected_graph G)).
Proof.
  intros W D H. apply bidirected_graph_in_nodes in H. destruct H as [y H].
  eapply degree_zero_no_edge; eauto.
Qed.

(* ------------------------------------------------------------------ *)
(** ** The sampling loops *)

Lemma edge_loc_add_nodes_from ns : forall G a b,
  UG.edge_loc (UG.add_nodes_from ns G) a b = UG.edge_loc G a b.
Proof.
  unfold UG.add_nodes_from.
  induction ns as [|n tl IH]; simpl; intros G a b; auto.
  now rewrite IH, edge_loc_add_node.
Qed.

Lemma nodes_add_nodes_from ns : forall G x,
  In x (UG.nodes (UG.add_nodes_from ns G)) <-> In x ns \/ In x (UG.nodes G).
Proof.
  unfold UG.add_nodes_from.
  induction ns as [|n tl IH]; simpl; intros G x.
  - tauto.
  - rewrite IH, nodes_add_node. intuition congruence.
Qed.

Lemma no_self_loops_add_edge u v G :
  u <> v -> no_self_loops G -> no_self_loops (UG.add_edge u v G).
Proof.
  intros N H i. rewrite edge_loc_add_edge. unfold same_link.
  destruct (Z.eqb_spec i u), (Z.eqb_spec i v); simpl; auto; congruence.
Qed.

Lemma no_self_loops_remove_nodes_from ns G :
  UG.wf G -> no_self_loops G -> no_self_loops (UG.remove_nodes_from ns G).
Proof.
  unfold UG.remove_nodes_from. revert G.
  induction ns as [|n tl IH]; simpl; intros G W H; auto.
  apply IH; [now apply wf_remove_node|].
  intros i. rewrite edge_loc_remove_node by assumption.
  destruct (Z.eq_dec i n); auto.
Qed.

Lemma no_self_loops_edges G i :
  NoDup (UG.nodes G) -> no_self_loops G -> ~ In (i, i) (UG.edges G).
Proof.
  intros ND H C. apply edges_edge_loc in C; auto.
  destruct C as [l C]. now rewrite H in C.
Qed.

(** A property of the graph that every [add_edge] keeps holds after the
    MAG loop. *)
Lemma MAG_sample_invariant (P : Graph -> Prop) p_edge rnd G k :
  (forall ns, P (UG.add_nodes_from ns UG.empty)) ->
  (forall u v g, P g -> P (UG.add_edge u v g)) ->
  MAG_sample p_edge rnd = Ok (G, k) -> P G.
Proof.
  intros Hinit Hstep H. unfold MAG_sample in H. inv_bind H.
  change (P (fst (G, k))).
  eapply (foldM_invariant (fun st : Sampling => P (fst st))); [ | | exact H].
  - intros s i s' Hs Hi.
    eapply (foldM_invariant (fun st : Sampling => P (fst st))); [ | exact Hs | exact Hi].
    clear - Hstep. intros s j s' Hs Hj. inv_bind Hj.
    destruct (Qle_bool _ _); inversion Hj; subst; simpl; auto.
  - simpl. apply Hinit.
Qed.

(** A property that [add_edge] keeps between different nodes holds after
    the Kronecker loop. *)
Lemma kronecker_sample_invariant (P : Graph -> Prop) G_array rnd G k :
  (forall ns, P (UG.add_nodes_from ns UG.empty)) ->
  (forall u v g, u <> v -> P g -> P (UG.add_edge u v g)) ->
  kronecker_sample G_array rnd = Ok (G, k) -> P G.
Proof.
  intros Hinit Hstep H. unfold kronecker_sample in H.
  change (P (fst (G, k))).
  eapply (foldM_invariant (fun st : Sampling => P (fst st))); [ | | exact H].
  - intros s i s' Hs Hi. inv_bind Hi.
    eapply (foldM_invariant (fun st : Sampling => P (fst st))); [ | exact Hs | exact Hi].
    clear - Hstep. intros s j s' Hs Hj. cbv beta in Hj.
    destruct (Nat.eqb i j) eqn:E.
    + inversion Hj; subst; auto.
    + apply Nat.eqb_neq in E.
      inv_bind Hj. destruct (Qltb _ _); inversion Hj; subst; simpl; auto.
      apply Hstep; auto. intros C. apply E. now apply Nat2Z.inj.
  - simpl. apply Hinit.
Qed.

Lemma MAG_sample_wf p_edge rnd G k :
  MAG_sample p_edge rnd = Ok (G, k) -> UG.wf G.
Proof.
  apply MAG_sample_invariant.
  - intros ns. apply wf_add_nodes_from, wf_empty.
  - intros u v g. apply wf_add_edge.
Qed.

Lemma kronecker_sample_wf G_array rnd G k :
  kronecker_sample G_array rnd = Ok (G, k) -> UG.wf G.
Proof.
  apply kronecker_sample_invariant.
  - intros ns. apply wf_add_nodes_from, wf_empty.
  - intros u v g _. apply wf_add_edge.
Qed.

Lemma kronecker_sample_no_self_loops G_array rnd G k :
  kronecker_sample G_array rnd = Ok (G, k) -> no_self_loops G.
Proof.
  apply kronecker_sample_invariant.
  - intros ns i. now rewrite edge_loc_add_nodes_from.
  - intros u v g. apply no_self_loops_add_edge.
Qed.

Lemma keep_largest_component_wf G G' :
  UG.wf G -> keep_largest_component G = Ok G' -> UG.wf G'.
Proof.
  intros W H. unfold keep_largest_component in H. inv_bind H.
  inversion H; subst. now apply wf_remove_nodes_from.
Qed.

Lemma keep_largest_component_no_self_loops G G' :
  UG.wf G -> no_self_loops G -> keep_largest_component G = Ok G' ->
  no_self_loops G'.
Proof.
  intros W N H. unfold keep_largest_component in H. inv_bind H.
  inversion H; subst. now apply no_self_loops_remove_nodes_from.
Qed.

(** The Kronecker generators never report an edge from a node to itself,
    whatever the matrix and the draws. *)
Lemma kronecker_graph_no_self_loops (LT : Type) kronecker_pow seed k rnd
    (r : Nlogo LT) i :
  kronecker_graph LT kronecker_pow seed k rnd = Ok r -> ~ In (i, i) (nl_edges r).
Proof.
  unfold kronecker_graph. intros H.
  inv_bind H as G_array HA. inv_bind H as [G n] HS. inv_bind H as G' HK.
  inversion H; subst. clear H.
  rewrite nlogo_safe_edges. simpl.
  pose proof (kronecker_sample_wf _ _ HS) as W.
  pose proof (kronecker_sample_no_self_loops _ _ HS) as N.
  apply no_self_loops_edges.
  - eapply keep_largest_component_wf; eauto.
  - eapply keep_largest_component_no_self_loops; eauto.
Qed.

Lemma kronecker_graph_bidirected_no_self_loops (LT : Type) kronecker_pow seed k rnd
    (r : Nlogo LT) i :
  kronecker_graph_bidirected LT kronecker_pow seed k rnd = Ok r ->
  ~ In (i, i) (nl_edges r).
Proof.
  unfold kronecker_graph_bidirected. intros H.
  inv_bind H as G_array HA. inv_bind H as [G n] HS. inv_bind H as G' HK.
  inversion H; subst. clear H.
  rewrite nlogo_safe_edges. simpl.
  pose proof (kronecker_sample_wf _ _ HS) as W.
  pose proof (kronecker_sample_no_self_loops _ _ HS) as N.
  rewrite bidirected_graph_in_edges.
  assert (~ In (i, i) (UG.edges G')); [|tauto].
  apply no_self_loops_edges.
  - eapply keep_largest_component_wf; eauto.
  - eapply keep_largest_component_no_self_loops; eauto.
Qed.

(* ------------------------------------------------------------------ *)
(** ** Isolated nodes and the bidirected entry points *)

Lemma bidirected_omits_isolated_nodes (LT : Type) G :
  UG.wf G ->
  omits_isolated_nodes G (@nlogo_safe_nodes_edges LT _ _ (bidirected_graph G)).
Proof.
  intros W v D. rewrite nlogo_safe_nodes. simpl.
  now apply bidirected_graph_isolated.
Qed.

(** C10.  Every bidirected entry point builds its directed graph from the
    edges of the undirected graph only, so a node of degree zero there is
    not among the returned nodes: for the three networkx generators (whose
    outcome is a graph satisfying the class invariant), for the MAG sample,
    and for the pruned Kronecker sample.  Hence fewer nodes than requested
    may be returned: an Erdos-Renyi outcome on three nodes with one link
    gives two nodes, and a MAG sample without success gives none. *)
Theorem bidirected_entry_points_omit_isolated_nodes (LT : Type) :
  (forall gen n p, UG.wf (gen n p) ->
     omits_isolated_nodes (gen n p) (ER_graph_bidirected LT gen n p))
  /\ (forall gen n k p, UG.wf (gen n k p) ->
     omits_isolated_nodes (gen n k p) (WS_graph_bidirected LT gen n k p))
  /\ (forall gen n m, UG.wf (gen n m) ->
     omits_isolated_nodes (gen n m) (BA_graph_bidirected LT gen n m))
  /\ (forall (AttrSpec Style Resolution : Type) attr_mag n
        (attrs : AttrSpec) (style : Style) (resolution : Resolution) rnd r,
     MAG_graph_bidirected (LT := LT) attr_mag n attrs style resolution rnd = Ok r ->
     exists p_edge L G k,
       attr_mag n attrs style resolution = Ok (p_edge, L)
       /\ MAG_sample p_edge rnd = Ok (G, k)
       /\ omits_isolated_nodes G r)
  /\ (forall kronecker_pow seed k rnd r,
     kronecker_graph_bidirected LT kronecker_pow seed k rnd = Ok r ->
     exists G_array G c G',
       kronecker_pow seed k = Ok G_array
       /\ kronecker_sample G_array rnd = Ok (G, c)
       /\ keep_largest_component G = Ok G'
       /\ omits_isolated_nodes G' r)
  /\ (List.length (nl_nodes (ER_graph_bidirected LT one_link_of_three 3 (1 # 2))) < 3)%nat
  /\ (forall L : LT, exists r,
       MAG_graph_bidirected (fun _ _ _ _ => Ok ([[0; 0]; [0; 0]], L))
         2 tt tt tt (fun _ => 1 # 2) = Ok r
       /\ (List.length (nl_nodes r) < 2)%nat).
Proof.
  repeat split.
  - intros gen n p W. now apply bidirected_omits_isolated_nodes.
  - intros gen n k p W. now apply bidirected_omits_isolated_nodes.
  - intros gen n m W. now apply bidirected_omits_isolated_nodes.
  - intros AttrSpec Style Resolution attr_mag n attrs style resolution rnd r H.
    unfold MAG_graph_bidirected in H.
    inv_bind H as [p_edge L] HA. inv_bind H as [G k] HS.
    inversion H; subst; clear H.
    exists p_edge, L, G, k. repeat split; auto.
    intros v D. simpl. apply bidirected_graph_isolated; auto.
    eapply MAG_sample_wf; eauto.
  - intros kronecker_pow seed k rnd r H.
    unfold kronecker_graph_bidirected in H.
    inv_bind H as G_array HA. inv_bind H as [G c] HS. inv_bind H as G' HK.
    inversion H; subst; clear H.
    exists G_array, G, c, G'. repeat split; auto.
    apply bidirected_omits_isolated_nodes.
    eapply keep_largest_component_wf; eauto.
    eapply kronecker_sample_wf; eauto.
  - vm_compute. lia.
  - intros L. eexists. split; [reflexivity|]. vm_compute. lia.
Qed.

Lemma bidirected_entry_points_omit_isolated_nodes_witness :
  UG.wf (one_link_of_three 3 (1 # 2))
  /\ UG.degree (one_link_of_three 3 (1 # 2)) 2 = O
  /\ ~ In 2%Z (nl_nodes (ER_graph_bidirected unit one_link_of_three 3 (1 # 2))).
Proof.
  assert (W : UG.wf (one_link_of_three 3 (1 # 2))) by (apply wfb_wf; reflexivity).
  split; [exact W|]. split; [reflexivity|].
  exact (proj1 (bidirected_entry_points_omit_isolated_nodes unit)
           one_link_of_three 3%Z (1 # 2) W 2%Z eq_refl).
Defined.

(* ------------------------------------------------------------------ *)
(** ** The draws of the MAG loop *)

(** A [for] loop over [range]: an invariant indexed by the loop variable. *)
Lemma foldM_seq_invariant {S : Type} (I : nat -> S -> Prop) (body : S -> nat -> Res S) :
  forall len start s s',
    (forall j t t', (start <= j < start + len)%nat ->
        I j t -> body t j = Ok t' -> I (Datatypes.S j) t') ->
    I start s ->
    foldM body (seq start len) s = Ok s' ->
    I (start + len)%nat s'.
Proof.
  induction len as [|len IH]; simpl; intros start s s' Hbody Hs H.
  - inversion H; subst. now rewrite Nat.add_0_r.
  - inv_bind H as s1 H1.
    replace (start + Datatypes.S len)%nat with (Datatypes.S start + len)%nat by lia.
    eapply IH; [ | | exact H].
    + intros j t t' Hj. apply Hbody. lia.
    + eapply Hbody; eauto. lia.
Qed.

Lemma has_edge_add_edge u v G a b :
  UG.has_edge (UG.add_edge u v G) a b = same_link u v a b || UG.has_edge G a b.
Proof.
  unfold UG.has_edge. rewrite edge_loc_add_edge.
  now destruct (same_link u v a b).
Qed.

Lemma same_link_of_nat i' j' i j :
  same_link (Z.of_nat i') (Z.of_nat j') (Z.of_nat i) (Z.of_nat j) = true
  <-> (i = i' /\ j = j') \/ (i = j' /\ j = i').
Proof.
  unfold same_link. rewrite orb_true_iff, !andb_true_iff, !Z.eqb_eq.
  rewrite !Nat2Z.inj_iff. tauto.
Qed.

(** The state of the MAG loop when it is about to draw for [(i, j)]:
    [i * n + j] draws were made, and a link is present exactly when the
    draw of one of the pairs visited so far, in either order, succeeded. *)
Lemma MAG_sample_loop p_edge rnd G k :
  MAG_sample p_edge rnd = Ok (G, k) ->
  let n := List.length p_edge in
  k = (n * n)%nat /\
  forall a b, UG.has_edge G a b = true <->
    exists i j, (i < n)%nat /\ (j < n)%nat
      /\ draw_succeeds p_edge rnd i j = true
      /\ same_link (Z.of_nat i) (Z.of_nat j) a b = true.
Proof.
  intros H n. unfold MAG_sample in H. inv_bind H as row0 Hrow0.
  fold n in H. unfold range in H.
  set (visited := fun (i j i' j' : nat) =>
         ((i' < i)%nat \/ (i' = i /\ (j' < j)%nat)) /\ (i' <= n)%nat /\ (j' < n)%nat).
  set (Inv := fun (i j : nat) (st : Sampling) =>
         snd st = (i * n + j)%nat /\
         forall a b, UG.has_edge (fst st) a b = true <->
           exists i' j', visited i j i' j'
             /\ draw_succeeds p_edge rnd i' j' = true
             /\ same_link (Z.of_nat i') (Z.of_nat j') a b = true).
  assert (Hout : Inv n O (G, k)).
  { change n with (0 + n)%nat at 1.
    apply (foldM_seq_invariant (fun i st => Inv i O st)) with (3 := H).
    - intros i st st' Hi [Hc Hinv] Hrow.
      assert (Hin : Inv i n st').
      { change n with (0 + n)%nat at 1.
        apply (foldM_seq_invariant (fun j st => Inv i j st)) with (3 := Hrow).
        - clear Hrow st' st Hc Hinv.
          intros j [g c] st' Hj [Hc Hinv] Hb. simpl in Hc, Hinv. subst c.
          cbv beta in Hb. simpl fst in Hb. simpl snd in Hb.
          assert (Hd : forall p, mat_get p_edge i j = Ok p ->
                     draw_succeeds p_edge rnd i j = Qle_bool (rnd (i * n + j)%nat) p).
          { intros p Hp. unfold draw_succeeds. now rewrite Hp. }
          inv_bind Hb as p Hp. specialize (Hd p Hp).
          destruct (Qle_bool (rnd (i * n + j)%nat) p) eqn:Hq;
            inversion Hb; subst; clear Hb; split; simpl; try lia; intros a b.
          + rewrite has_edge_add_edge, orb_true_iff, Hinv. split.
            * intros [Hl|(i' & j' & Hv & Hr)].
              -- exists i, j. split; [|auto]. unfold visited. lia.
              -- exists i', j'. split; [|auto]. unfold visited in *. lia.
            * intros (i' & j' & Hv & Hs & Hl).
              destruct (Nat.eq_dec i' i) as [Ei|Ni];
                [destruct (Nat.eq_dec j' j) as [Ej|Nj]|].
              -- subst. now left.
              -- right. exists i', j'. split; [|auto]. unfold visited in *. lia.
              -- right. exists i', j'. split; [|auto]. unfold visited in *. lia.
          + rewrite Hinv. split.
            * intros (i' & j' & Hv & Hr).
              exists i', j'. split; [|auto]. unfold visited in *. lia.
            * intros (i' & j' & Hv & Hs & Hl).
              exists i', j'. split; [|auto].
              assert (~ (i' = i /\ j' = j)) by (intros [-> ->]; congruence).
              unfold visited in *. lia.
        - split; [simpl; lia|]. intros a b. rewrite Hinv.
          split; intros (i' & j' & Hv & Hr); exists i', j';
            (split; [|auto]); unfold visited in *; lia. }
      destruct Hin as [Hc' Hinv']. split; [simpl; lia|].
      intros a b. rewrite Hinv'.
      split; intros (i' & j' & Hv & Hr); exists i', j';
        (split; [|auto]); unfold visited in *; lia.
    - split; [simpl; lia|]. intros a b. simpl. unfold UG.has_edge.
      rewrite edge_loc_add_nodes_from. simpl.
      split; [discriminate|]. intros (i' & j' & Hv & _). unfold visited in Hv. lia. }
  destruct Hout as [Hc Hinv]. simpl in Hc, Hinv. split; [lia|].
  intros a b. rewrite Hinv.
  split; intros (i' & j' & Hv & Hr); exists i', j'.
  - unfold visited in Hv. repeat split; try tauto; lia.
  - split; [unfold visited; lia | tauto].
Qed.

(** C7, as the code has it.  The MAG loop draws once for every ORDERED pair
    of the cross product, [n * n] draws in all, so the reversed pair
    [(j, i)] gets a draw of its own; a link between [i] and [j] is present
    exactly when the draw for [(i, j)] or the draw for [(j, i)] succeeded. *)
Theorem MAG_sample_draws_both_orders p_edge rnd G k :
  MAG_sample p_edge rnd = Ok (G, k) ->
  k = (List.length p_edge * List.length p_edge)%nat
  /\ forall i j, (i < List.length p_edge)%nat -> (j < List.length p_edge)%nat ->
       (UG.has_edge G (Z.of_nat i) (Z.of_nat j) = true
        <-> draw_succeeds p_edge rnd i j = true
            \/ draw_succeeds p_edge rnd j i = true).
Proof.
  intros H. destruct (MAG_sample_loop _ _ H) as [Hk Hinv]. split; [exact Hk|].
  intros i j Hi Hj. rewrite Hinv. split.
  - intros (i' & j' & _ & _ & Hs & Hl). apply same_link_of_nat in Hl.
    destruct Hl as [[-> ->]|[-> ->]]; auto.
  - intros [Hs|Hs].
    + exists i, j. repeat split; auto. apply same_link_of_nat. auto.
    + exists j, i. repeat split; auto. apply same_link_of_nat. auto.
Qed.

Lemma MAG_sample_draws_both_orders_witness :
  exists G k,
    MAG_sample p_half draws_third_low = Ok (G, k)
    /\ k = 4%nat
    /\ UG.has_edge G 0 1 = true.
Proof.
  destruct (MAG_sample p_half draws_third_low) as [[G k]|e] eqn:E;
    [|vm_compute in E; discriminate].
  exists G, k. split; [reflexivity|].
  destruct (MAG_sample_draws_both_orders _ _ E) as [Hk Hl].
  split; [exact Hk|].
  apply (Hl 0%nat 1%nat); [simpl; lia | simpl; lia | right; reflexivity].
Defined.

(** C7, as the claim has it, fails: on a symmetric table the draw for
    [(0, 1)] is too high, the separate draw for [(1, 0)] is low, four draws
    are made for two nodes, and the link between 0 and 1 is there. *)
Lemma MAG_sample_redraws_reversed_pair :
  exists G,
    MAG_sample p_half draws_third_low = Ok (G, 4%nat)
    /\ draw_succeeds p_half draws_third_low 0 1 = false
    /\ draw_succeeds p_half draws_third_low 1 0 = true
    /\ UG.has_edge G 0 1 = true
    /\ ~ decided_by_one_draw p_half draws_third_low.
Proof.
  eexists. split; [reflexivity|]. split; [reflexivity|].
  split; [reflexivity|]. split; [reflexivity|].
  intros C.
  specialize (C _ 4%nat eq_refl 0%nat 1%nat).
  assert (H : (0 < 1 < 2)%nat) by lia.
  specialize (C H). vm_compute in C. discriminate.
Qed.

(* ------------------------------------------------------------------ *)
(** ** Self-loops of the MAG generators *)

(** On a table with at least as many columns as rows the MAG loop runs to
    its end. *)
Lemma MAG_sample_total p_edge rnd :
  p_edge <> [] ->
  (forall row, In row p_edge -> (List.length p_edge <= List.length row)%nat) ->
  exists G k, MAG_sample p_edge rnd = Ok (G, k).
Proof.
  intros Hne Hrows. unfold MAG_sample.
  destruct p_edge as [|row0 rest] eqn:Ep; [congruence|]. rewrite <- Ep in *.
  cbn [bind].
  match goal with
  | |- exists G k, foldM ?body ?xs ?s = _ =>
      assert (Hloop : exists s', foldM body xs s = Ok s' /\ True);
        [apply foldM_total; [|exact I]
        | destruct Hloop as ([G k] & E & _); eauto]
  end.
  intros st i Hi _. apply in_seq in Hi.
  apply foldM_total; [|exact I].
  intros st' j Hj _. apply in_seq in Hj.
  unfold mat_get.
  destruct (nth_error p_edge i) as [row|] eqn:Er;
    [|apply nth_error_None in Er; lia].
  assert (Hlen : (List.length p_edge <= List.length row)%nat).
  { apply Hrows. eapply nth_error_In; eauto. }
  destruct (nth_error row j) as [p|] eqn:Ec;
    [|apply nth_error_None in Ec; lia].
  simpl. destruct (Qle_bool _ _); eauto.
Qed.

Lemma has_edge_self_in_edges G i :
  UG.wf G -> UG.has_edge G i i = true -> In (i, i) (UG.edges G).
Proof.
  intros W H. unfold UG.has_edge in H.
  destruct (UG.edge_loc G i i) as [l|] eqn:E; [|discriminate].
  destruct (edges_cover i i W E); auto.
Qed.

(** C1.  The MAG loops draw for the identity pairs too.  Whenever the draw
    for a pair [(i, i)] is at most the diagonal entry of the table,
    [MAG_graph] and [MAG_graph_bidirected] return a record whose edges hold
    [(i, i)]: the claim that no returned graph has an edge from a node to
    itself fails for these two entry points (it holds for the Kronecker
    ones, [kronecker_graph_no_self_loops]). *)
Theorem MAG_graph_reports_self_loop (LT AttrSpec Style Resolution : Type)
    (attr_mag : Z -> AttrSpec -> Style -> Resolution -> Res (matrix * LT))
    n attrs style resolution rnd p_edge L i :
  attr_mag n attrs style resolution = Ok (p_edge, L) ->
  (forall row, In row p_edge -> (List.length p_edge <= List.length row)%nat) ->
  (i < List.length p_edge)%nat ->
  draw_succeeds p_edge rnd i i = true ->
  (exists r, MAG_graph attr_mag n attrs style resolution rnd = Ok r
             /\ In (Z.of_nat i, Z.of_nat i) (nl_edges r))
  /\ (exists r, MAG_graph_bidirected attr_mag n attrs style resolution rnd = Ok r
             /\ In (Z.of_nat i, Z.of_nat i) (nl_edges r)).
Proof.
  intros HA Hrows Hi Hd.
  destruct (@MAG_sample_total p_edge rnd) as (G & k & E); auto.
  { intros C. rewrite C in Hi. simpl in Hi. lia. }
  pose proof (MAG_sample_wf _ _ E) as W.
  assert (Hin : In (Z.of_nat i, Z.of_nat i) (UG.edges G)).
  { apply has_edge_self_in_edges; auto.
    apply (proj2 (MAG_sample_loop _ _ E)).
    exists i, i. repeat split; auto. apply same_link_of_nat. auto. }
  unfold MAG_graph, MAG_graph_bidirected. rewrite HA. cbn [bind].
  rewrite E. cbn [bind]. split; eexists; (split; [reflexivity|]).
  - simpl. rewrite map_ext with (g := fun e => e) by (now intros [a b]).
    now rewrite map_id.
  - simpl. rewrite map_ext with (g := fun e => e) by (now intros [a b]).
    rewrite map_id. apply bidirected_graph_in_edges. auto.
Qed.

(** The homophilic table with every draw at 0.5: node 0 (and node 1) gets
    a loop. *)
Lemma MAG_graph_reports_self_loop_witness :
  (exists r, MAG_graph attr_mag_homophilic 2 tt tt tt (fun _ => 1 # 2) = Ok r
             /\ In (0, 0)%Z (nl_edges r))
  /\ (exists r, MAG_graph_bidirected attr_mag_homophilic 2 tt tt tt (fun _ => 1 # 2) = Ok r
             /\ In (0, 0)%Z (nl_edges r)).
Proof.
  refine (@MAG_graph_reports_self_loop unit unit unit unit attr_mag_homophilic
            2%Z tt tt tt (fun _ => 1 # 2) _ tt 0%nat eq_refl _ _ eq_refl).
  - intros row [<-|[<-|[]]]; simpl; lia.
  - simpl. lia.
Defined.

Example MAG_graph_homophilic_self_loops :
  exists r, MAG_graph attr_mag_homophilic 2 tt tt tt (fun _ => 1 # 2) = Ok r
            /\ nl_nodes r = [0; 1]%Z
            /\ nl_edges r = [(0, 0); (1, 1)]%Z.
Proof. eexists. split; [reflexivity|]. split; reflexivity. Qed.

Example MAG_graph_bidirected_homophilic_self_loops :
  exists r, MAG_graph_bidirected attr_mag_homophilic 2 tt tt tt (fun _ => 1 # 2) = Ok r
            /\ nl_nodes r = [0; 1]%Z
            /\ nl_edges r = [(0, 0); (1, 1)]%Z.
Proof. eexists. split; [reflexivity|]. split; reflexivity. Qed.

(* ------------------------------------------------------------------ *)
(** ** Breadth-first search and connected components *)

Lemma reach_in_mono G (S S' : Z -> Prop) s x :
  (forall y, S y -> S' y) -> reach_in G S s x -> reach_in G S' s x.
Proof.
  intros HS H. induction H as [Hs|u v Hu IH Hv Hadj].
  - apply reach_here. auto.
  - eapply reach_step; eauto.
Qed.

(** One level of the search: what is seen and what comes next. *)
Lemma bfs_level_spec G level : forall seen next seen' next',
  bfs_level G level seen next = (seen', next') ->
  (NoDup seen -> NoDup seen')
  /\ (forall x, In x seen' <-> In x seen \/ In x level)
  /\ (forall x, In x next' <->
        In x next \/ exists v, In v level /\ ~ In v seen /\ In x (zkeys (UG.adj G v)))
  /\ ((List.length seen < List.length seen')%nat \/ (seen' = seen /\ next' = next)).
Proof.
  induction level as [|v tl IH]; simpl; intros seen next seen' next' H.
  - inversion H; subst. repeat split; auto; try tauto.
    + intros [H1|(v & [] & _)]; auto.
  - destruct (zmem v seen) eqn:E.
    + apply zmem_true in E. destruct (IH _ _ _ _ H) as (I1 & I2 & I3 & I4).
      repeat split; auto.
      * rewrite I2. tauto.
      * rewrite I2. intros [?|[->|?]]; auto.
      * rewrite I3. intros [?|(w & Hw & Hn & Hx)]; eauto 6.
      * rewrite I3. intros [?|(w & [->|Hw] & Hn & Hx)]; [auto|contradiction|eauto 6].
    + apply zmem_false in E. destruct (IH _ _ _ _ H) as (I1 & I2 & I3 & I4).
      repeat split.
      * intros ND. apply I1. now apply NoDup_snoc.
      * rewrite I2, in_app_iff. simpl. tauto.
      * rewrite I2, in_app_iff. simpl. tauto.
      * rewrite I3, set_update_in. intros [[?|Hx]|(w & Hw & Hn & Hx)]; eauto 7.
        right. exists w. repeat split; auto.
        intros C. apply Hn. apply in_app_iff. now left.
      * rewrite I3, set_update_in.
        intros [?|(w & [->|Hw] & Hn & Hx)]; auto.
        destruct (in_dec Z.eq_dec w (seen ++ [v])) as [Hin|Hout]; [|eauto 7].
        apply in_app_iff in Hin. destruct Hin as [?|[->|[]]]; [contradiction|auto].
      * left. destruct I4 as [I4|[-> _]]; rewrite ?length_app in *; simpl in *; lia.
Qed.

(** The search loop, started in a state that satisfies its invariants with
    enough fuel left, ends with a set that is closed under adjacency and
    whose members are reached from [s] inside the set. *)
Lemma bfs_loop_spec G s : UG.wf G ->
  forall fuel seen level,
    NoDup seen -> incl seen (UG.nodes G) -> incl level (UG.nodes G) ->
    (List.length (UG.nodes G) + 1 <= fuel + List.length seen)%nat ->
    (forall u v, In u seen -> In v (zkeys (UG.adj G u)) -> In v seen \/ In v level) ->
    (forall x, In x seen \/ In x level ->
               reach_in G (fun y => In y seen \/ In y level) s x) ->
    let C := bfs_loop fuel G seen level in
    NoDup C /\ incl seen C /\ incl level C
    /\ (forall u v, In u C -> In v (zkeys (UG.adj G u)) -> In v C)
    /\ (forall x, In x C -> reach_in G (fun y => In y C) s x).
Proof.
  intros W. induction fuel as [|fuel IH]; intros seen level ND Hs Hl Hf Hcl Hr C.
  - pose proof (NoDup_incl_length ND Hs) as Hlen.
    exfalso. lia.
  - destruct level as [|v0 tl] eqn:El.
    + subst C. simpl. repeat split; auto.
      * apply incl_refl.
      * intros x [].
      * intros u v Hu Hv. destruct (Hcl u v Hu Hv) as [?|[]]; auto.
      * intros x Hx. eapply reach_in_mono; [|apply Hr; auto].
        simpl. tauto.
    + rewrite <- El in *. assert (Hne : level <> []) by (subst; discriminate).
      subst C. cbn [bfs_loop]. rewrite El. rewrite <- El.
      destruct (bfs_level G level seen []) as [seen' next'] eqn:Eb.
      destruct (bfs_level_spec _ _ _ _ Eb) as (I1 & I2 & I3 & I4).
      assert (Hs' : incl seen' (UG.nodes G)).
      { intros x Hx. apply I2 in Hx. destruct Hx; auto. }
      assert (Hn' : incl next' (UG.nodes G)).
      { intros x Hx. apply I3 in Hx. destruct Hx as [[]|(v & Hv & _ & Hx)].
        apply (in_keys_get Z.eq_dec) in Hx. destruct Hx as [l Hx].
        exact (proj2 (@wf_nbr_is_node G v x l W Hx)). }
      assert (Hcl' : forall u v, In u seen' -> In v (zkeys (UG.adj G u)) ->
                                 In v seen' \/ In v next').
      { intros u v Hu Hv. apply I2 in Hu.
        destruct (in_dec Z.eq_dec u seen) as [Hin|Hout].
        - left. apply I2. exact (Hcl u v Hin Hv).
        - destruct Hu as [?|Hu]; [contradiction|]. right. apply I3. eauto 6. }
      assert (Hr' : forall x, In x seen' \/ In x next' ->
                 reach_in G (fun y => In y seen' \/ In y next') s x).
      { assert (Hold : forall x, In x seen \/ In x level ->
                  reach_in G (fun y => In y seen' \/ In y next') s x).
        { intros x Hx. eapply reach_in_mono; [|apply Hr; exact Hx].
          intros y Hy. left. now apply I2. }
        intros x [Hx|Hx].
        - apply I2 in Hx. auto.
        - pose proof Hx as Hx'. apply I3 in Hx.
          destruct Hx as [[]|(v & Hv & _ & Hadj)].
          eapply reach_step; [apply Hold; right; exact Hv | auto | exact Hadj]. }
      destruct I4 as [I4|[-> ->]].
      * destruct (IH seen' next') as (C1 & C2 & C3 & C4 & C5); auto; [lia|].
        repeat split; auto.
        -- intros x Hx. apply C2, I2. auto.
        -- intros x Hx. apply C2, I2. auto.
      * destruct fuel; simpl; repeat split; auto; try apply incl_refl.
        -- intros x Hx. apply I2. auto.
        -- intros u v Hu Hv. destruct (Hcl' u v Hu Hv) as [?|[]]; auto.
        -- intros x Hx. eapply reach_in_mono; [|apply Hr'; auto]. simpl. tauto.
        -- intros x Hx. apply I2. auto.
        -- intros u v Hu Hv. destruct (Hcl' u v Hu Hv) as [?|[]]; auto.
        -- intros x Hx. eapply reach_in_mono; [|apply Hr'; auto]. simpl. tauto.
Qed.

(** [_plain_bfs] from a node of the graph: the fuel given is enough, so the
    result holds [source], is closed under adjacency, and every member is
    reached from [source] without leaving the result. *)
Lemma plain_bfs_closed G source :
  UG.wf G -> In source (UG.nodes G) ->
  let C := plain_bfs G source in
  NoDup C /\ In source C
  /\ (forall u v, In u C -> In v (zkeys (UG.adj G u)) -> In v C)
  /\ (forall x, In x C -> reach_in G (fun y => In y C) source x).
Proof.
  intros W Hs C.
  destruct (@bfs_loop_spec G source W (S (List.length (UG.nodes G))) [] [source])
    as (C1 & C2 & C3 & C4 & C5).
  - constructor.
  - intros x [].
  - intros x [<-|[]]. exact Hs.
  - simpl. lia.
  - intros u v [].
  - intros x [[]|[<-|[]]]. apply reach_here. simpl. auto.
  - repeat split; auto. apply C3. now left.
Qed.

(* ------------------------------------------------------------------ *)
(** ** The pruned Kronecker graph is connected *)

Lemma components_from_in G vs : forall seen c,
  In c (components_from G vs seen) -> exists v, In v vs /\ c = plain_bfs G v.
Proof.
  induction vs as [|v tl IH]; simpl; intros seen c H; [tauto|].
  destruct (zmem v seen).
  - apply IH in H. destruct H as (w & Hw & E). eauto.
  - destruct H as [<-|H]; [eauto|].
    apply IH in H. destruct H as (w & Hw & E). eauto.
Qed.

Lemma max_fold_in (tl : list (list Z)) : forall c,
  In (fold_left
        (fun best x => if (List.length best <? List.length x)%nat then x else best)
        tl c) (c :: tl).
Proof.
  induction tl as [|x tl IH]; simpl; intros c; auto.
  destruct (IH (if (List.length c <? List.length x)%nat then x else c)) as [H|H]; auto.
  rewrite <- H. destruct (List.length c <? List.length x)%nat; auto.
Qed.

Lemma max_by_len_in cs c : max_by_len cs = Ok c -> In c cs.
Proof.
  destruct cs as [|c0 tl]; simpl; intros H; [discriminate|].
  inversion H; subst. apply max_fold_in.
Qed.

Lemma linked_sym E x y : linked E x y -> linked E y x.
Proof. unfold linked. tauto. Qed.

Lemma joined_sym E x y : joined E x y -> joined E y x.
Proof.
  unfold joined. intros H. induction H as [x y H|x|x y z _ IH1 _ IH2].
  - apply rt_step. now apply linked_sym.
  - apply rt_refl.
  - eapply rt_trans; eauto.
Qed.

Lemma reach_in_inside G (S : Z -> Prop) s x : reach_in G S s x -> S s /\ S x.
Proof.
  intros H. induction H as [Hs|u v Hu [IH1 IH2] Hv Hadj]; auto.
Qed.

(** What is left after the pruning: the nodes of one search result, every
    two of them joined by edges that are left. *)
Lemma keep_largest_component_connected G G' :
  UG.wf G -> keep_largest_component G = Ok G' ->
  UG.nodes G' <> []
  /\ forall a b, In a (UG.nodes G') -> In b (UG.nodes G') ->
       joined (UG.edges G') a b.
Proof.
  intros W H. pose proof (keep_largest_component_wf W H) as W'.
  unfold keep_largest_component in H. inv_bind H as c Hc.
  inversion H; subst; clear H.
  apply max_by_len_in in Hc. apply components_from_in in Hc.
  destruct Hc as (v & Hv & ->).
  destruct (@plain_bfs_closed G v W Hv) as (_ & Hvc & _ & Hreach).
  set (c := plain_bfs G v) in *.
  set (G' := UG.remove_nodes_from (set_diff (UG.nodes G) c) G) in *.
  assert (Hnodes : forall x, In x (UG.nodes G') <-> In x (UG.nodes G) /\ In x c).
  { intros x. unfold G'. rewrite nodes_remove_nodes_from, set_diff_in.
    destruct (in_dec Z.eq_dec x c); tauto. }
  assert (Hkept : forall x, In x c -> ~ In x (set_diff (UG.nodes G) c)).
  { intros x Hx C. apply set_diff_in in C. tauto. }
  assert (Hpath : forall x, In x c -> joined (UG.edges G') v x).
  { intros x Hx. specialize (Hreach x Hx).
    induction Hreach as [Hs|u w Hu IH Hw Hadj]; [apply rt_refl|].
    apply reach_in_inside in Hu. destruct Hu as [_ Hu].
    eapply rt_trans; [apply IH; exact Hu|]. apply rt_step.
    apply (in_keys_get Z.eq_dec) in Hadj. destruct Hadj as [l Hl].
    apply (@edges_cover G' u w l W'). unfold G'.
    rewrite edge_loc_remove_nodes_from; auto. }
  split.
  - intros C. assert (Hin : In v (UG.nodes G')) by (apply Hnodes; auto).
    rewrite C in Hin. destruct Hin.
  - intros a b Ha Hb. apply Hnodes in Ha, Hb.
    eapply rt_trans; [apply joined_sym, Hpath; tauto | apply Hpath; tauto].
Qed.

Lemma nodes_add_edge_incl u v G x :
  In x (UG.nodes G) -> In x (UG.nodes (UG.add_edge u v G)).
Proof. intros H. apply nodes_add_edge. auto. Qed.

(** On a matrix of equal rows the Kronecker loop runs to its end, and the
    nodes it started with are still there. *)
Lemma kronecker_sample_total G_array rnd :
  rectangular G_array ->
  exists G k, kronecker_sample G_array rnd = Ok (G, k)
    /\ forall i, (i < List.length G_array)%nat -> In (Z.of_nat i) (UG.nodes G).
Proof.
  intros Hrect. unfold kronecker_sample.
  set (G0 := UG.add_nodes_from (map Z.of_nat (range (List.length G_array))) UG.empty).
  set (P := fun st : Sampling => forall x, In x (UG.nodes G0) -> In x (UG.nodes (fst st))).
  match goal with
  | |- exists G k, foldM ?body ?xs ?s = _ /\ _ =>
      assert (Hloop : exists s', foldM body xs s = Ok s' /\ P s');
        [apply foldM_total | destruct Hloop as ([G k] & E & HP)]
  end.
  - intros st i Hi HP. apply in_seq in Hi.
    destruct (nth_error G_array i) as [row|] eqn:Er;
      [|apply nth_error_None in Er; lia].
    simpl.
    assert (Hlen : List.length row
                   = match G_array with r :: _ => List.length r | [] => O end).
    { rewrite (Hrect row) by (eapply nth_error_In; eauto).
      now destruct G_array. }
    rewrite <- Hlen.
    apply foldM_total; auto.
    intros st' j Hj HP'. apply in_seq in Hj.
    destruct (Nat.eqb i j); [eauto|].
    destruct (nth_error row j) as [p|] eqn:Ep;
      [|apply nth_error_None in Ep; lia].
    simpl. destruct (Qltb _ _); eexists; split; eauto.
    intros x Hx. simpl. apply nodes_add_edge_incl. auto.
  - intros x Hx. exact Hx.
  - exists G, k. split; auto. intros i Hi. apply HP.
    unfold G0. apply nodes_add_nodes_from. left.
    apply in_map. apply in_seq. lia.
Qed.

Lemma keep_largest_component_total G :
  UG.nodes G <> [] -> exists G', keep_largest_component G = Ok G'.
Proof.
  intros H. unfold keep_largest_component, connected_components.
  destruct (UG.nodes G) as [|v tl]; [congruence|].
  simpl. eauto.
Qed.

(** C5.  Whatever the seed matrix, the exponent and the draws, a graph
    returned by [kronecker_graph] is not empty and every two of its nodes
    are joined by a path of returned edges: it has exactly one connected
    component.  A graph is returned whenever [kronecker_pow] gives a matrix
    with at least one row and rows of equal length. *)
Theorem kronecker_graph_one_component (LT : Type) kronecker_pow seed k rnd :
  (forall r : Nlogo LT,
     kronecker_graph LT kronecker_pow seed k rnd = Ok r ->
     nl_nodes r <> []
     /\ forall a b, In a (nl_nodes r) -> In b (nl_nodes r) ->
          joined (nl_edges r) a b)
  /\ (forall G_array,
     kronecker_pow seed k = Ok G_array -> G_array <> [] -> rectangular G_array ->
     exists r : Nlogo LT, kronecker_graph LT kronecker_pow seed k rnd = Ok r).
Proof.
  split.
  - intros r H. unfold kronecker_graph in H.
    inv_bind H as G_array HA. inv_bind H as [G c] HS. inv_bind H as G' HK.
    inversion H; subst; clear H.
    rewrite nlogo_safe_edges, nlogo_safe_nodes. simpl.
    apply keep_largest_component_connected with (G := G); auto.
    eapply kronecker_sample_wf; eauto.
  - intros G_array HA Hne Hrect. unfold kronecker_graph. rewrite HA. simpl.
    destruct (kronecker_sample_total rnd Hrect) as (G & c & E & Hn).
    rewrite E. simpl.
    destruct (@keep_largest_component_total G) as [G' E'].
    + intros C. destruct G_array as [|row tl]; [congruence|].
      specialize (Hn O). simpl in Hn. rewrite C in Hn. apply Hn. lia.
    + rewrite E'. simpl. eauto.
Qed.

Lemma kronecker_graph_one_component_witness :
  exists r : Nlogo unit,
    kronecker_graph unit kronecker_pow_first seed_08_02 1 (fun _ => 1 # 10) = Ok r
    /\ nl_nodes r <> []
    /\ joined (nl_edges r) 0%Z 1%Z.
Proof.
  eexists. split; [reflexivity|].
  destruct (proj1 (kronecker_graph_one_component unit kronecker_pow_first
                     seed_08_02 1 (fun _ => 1 # 10)) _ eq_refl) as [Hne Hj].
  split; [exact Hne|]. apply Hj; simpl; auto.
Defined.

(* ------------------------------------------------------------------ *)
(** ** The threshold filter of [influencer_paths_within_distance] *)

Lemma Qltb_true x y : Qltb x y = true <-> x < y.
Proof.
  unfold Qltb. rewrite negb_true_iff. split.
  - intros H. apply Qnot_le_lt. intros C. apply Qle_bool_iff in C. congruence.
  - intros H. destruct (Qle_bool y x) eqn:E; auto.
    apply Qle_bool_iff in E. exfalso. apply (Qlt_not_le _ _ H E).
Qed.

Lemma Qltb_false x y : Qltb x y = false <-> y <= x.
Proof.
  unfold Qltb. rewrite negb_false_iff. apply Qle_bool_iff.
Qed.

Lemma within_threshold_true ds t :
  within_threshold ds t = true <-> Forall (fun d => d <= t) ds.
Proof.
  unfold within_threshold. induction ds as [|d tl IH]; simpl.
  - split; auto.
  - destruct (Qltb 0 (d - t)) eqn:E; simpl.
    + apply Qltb_true in E. split; [discriminate|].
      intros H. inversion H; subst. exfalso. lra.
    + apply Qltb_false in E. rewrite IH. split.
      * intros H. constructor; auto. lra.
      * intros H. now inversion H.
Qed.

Lemma within_threshold_false ds t :
  within_threshold ds t = false <-> Exists (fun d => t < d) ds.
Proof.
  unfold within_threshold. induction ds as [|d tl IH]; simpl.
  - split; [discriminate | intros H; inversion H].
  - destruct (Qltb 0 (d - t)) eqn:E; simpl.
    + apply Qltb_true in E. split; auto. intros _. left. lra.
    + apply Qltb_false in E. rewrite IH. split.
      * intros H. now right.
      * intros H. inversion H; subst; auto. exfalso. lra.
Qed.

Section InfluenceFacts.

Variable Message : Type.
Variable dist_to_agent_brain : NodeAttrs -> Message -> Res Q.
Variable dijkstra_path : Graph -> Z -> Z -> Res (list Z).

Variables (G : Graph) (target_id : Z) (message : Message) (threshold : Q).

(** The body of the dictionary comprehension that builds [paths]. *)
Let path_step (paths : list (Z * list Z)) (subscriber : string) :=
  key <- parse_id subscriber 2 ;;
  source <- parse_id subscriber 2 ;;
  path <- dijkstra_path G source target_id ;;
  Ok (zset key path paths).

(** The body of the filtering loop. *)
Let filter_step (threshold_paths : list (Z * list Q)) (entry : Z * list Z) :=
  dist_path <- mapM (fun v => a <- UG.node_attrs G v ;;
                              dist_to_agent_brain a message) (snd entry) ;;
  let dist_path := removelast dist_path in
  if within_threshold dist_path threshold
  then Ok (zset (fst entry) dist_path threshold_paths)
  else Ok threshold_paths.

Lemma path_step_inv paths subscriber paths' :
  path_step paths subscriber = Ok paths' ->
  exists s p, parse_id subscriber 2 = Ok s
    /\ dijkstra_path G s target_id = Ok p
    /\ paths' = zset s p paths.
Proof.
  unfold path_step. intros H.
  inv_bind H as key Hk. inv_bind H as s Hs. inv_bind H as p Hp.
  inversion H; subst. exists s, p. repeat split; auto. congruence.
Qed.

(** Every subscriber of the batch has its path in [paths], every entry of
    [paths] is the path of its key, and no key occurs twice. *)
Lemma paths_loop subscribers : forall acc paths,
  foldM path_step subscribers acc = Ok paths ->
  NoDup (zkeys acc) ->
  (forall k p, zget k acc = Some p -> dijkstra_path G k target_id = Ok p) ->
  NoDup (zkeys paths)
  /\ (forall k p, zget k paths = Some p -> dijkstra_path G k target_id = Ok p)
  /\ (forall k p, zget k paths = Some p ->
        zget k acc = Some p
        \/ exists subscriber, In subscriber subscribers /\ parse_id subscriber 2 = Ok k)
  /\ (forall subscriber, In subscriber subscribers ->
        exists s p, parse_id subscriber 2 = Ok s
          /\ dijkstra_path G s target_id = Ok p
          /\ zget s paths = Some p)
  /\ (forall k, In k (zkeys acc) -> In k (zkeys paths)).
Proof.
  induction subscribers as [|sub tl IH]; simpl; intros acc paths H ND Hacc.
  - inversion H; subst. repeat split; auto. intros s [].
  - inv_bind H as acc1 H1. apply path_step_inv in H1.
    destruct H1 as (s & p & Hs & Hp & ->).
    assert (Hacc1 : forall k q, zget k (zset s p acc) = Some q ->
                                dijkstra_path G k target_id = Ok q).
    { intros k q Hq. unfold zget, zset in Hq. destruct (Z.eq_dec s k) as [<-|N].
      - rewrite get_set_eq in Hq. congruence.
      - rewrite get_set_neq in Hq by assumption. auto. }
    destruct (IH _ _ H (@NoDup_keys_set _ _ Z.eq_dec s p acc ND) Hacc1)
      as (I1 & I2 & I3 & I4 & I5).
    repeat split; auto.
    + intros k q Hq. destruct (I3 k q Hq) as [Hk|(sub' & Hin & Hsub')]; eauto.
      unfold zget, zset in Hk. destruct (Z.eq_dec s k) as [<-|N].
      * right. eauto.
      * rewrite get_set_neq in Hk by assumption. auto.
    + intros sub' [<-|Hin]; auto.
      exists s, p. repeat split; auto.
      assert (Hk : In s (zkeys paths)).
      { apply I5. apply keys_set. now left. }
      apply (in_keys_get Z.eq_dec) in Hk. destruct Hk as [q Hq].
      pose proof (I2 _ _ Hq) as Hq'. unfold zget. rewrite Hq. congruence.
    + intros k Hk. apply I5. apply keys_set. now right.
Qed.

Lemma filter_step_inv acc k p acc' :
  filter_step acc (k, p) = Ok acc' ->
  exists ds, distance_sequence dist_to_agent_brain G message p = Ok ds
    /\ acc' = if within_threshold ds threshold then zset k ds acc else acc.
Proof.
  unfold filter_step, distance_sequence. simpl. intros H. inv_bind H as ds Hd.
  rewrite Hd. simpl. eexists. split; [reflexivity|].
  destruct (within_threshold _ _); congruence.
Qed.

(** The filtering loop keeps, for each key of [paths], what [kept] says. *)
Lemma filter_loop entries : forall acc out,
  foldM filter_step entries acc = Ok out ->
  NoDup (zkeys entries) ->
  (forall k p, In (k, p) entries ->
     exists ds, distance_sequence dist_to_agent_brain G message p = Ok ds)
  /\ forall k,
       zget k out
       = match zget k entries with
         | Some p =>
             match kept dist_to_agent_brain G message threshold p with
             | Some ds => Some ds
             | None => zget k acc
             end
         | None => zget k acc
         end.
Proof.
  induction entries as [|[k0 p0] tl IH]; simpl; intros acc out H ND.
  - inversion H; subst. split; [intros k p []|auto].
  - inv_bind H as acc1 H1. apply filter_step_inv in H1.
    destruct H1 as (ds & Hds & ->).
    inversion ND as [|? ? Hk0 ND']; subst.
    destruct (IH _ _ H ND') as [I1 I2]. split.
    + intros k p [E|Hin]; [injection E as <- <-; eauto | eauto].
    + intros k. rewrite I2. unfold zget at 2. simpl.
      destruct (Z.eq_dec k k0) as [->|N].
      * apply (get_None_keys Z.eq_dec) in Hk0. unfold zget at 1. rewrite Hk0.
        unfold kept. rewrite Hds.
        destruct (within_threshold ds threshold); auto.
        unfold zget, zset. now rewrite get_set_eq.
      * assert (E : zget k (if within_threshold ds threshold
                            then zset k0 ds acc else acc) = zget k acc).
        { destruct (within_threshold ds threshold); auto.
          unfold zget, zset. apply get_set_neq. congruence. }
        unfold zget in *. rewrite E. reflexivity.
Qed.

End InfluenceFacts.

Section InfluenceCall.

Variable Message : Type.
Variable dist_to_agent_brain : NodeAttrs -> Message -> Res Q.
Variable dijkstra_path : Graph -> Z -> Z -> Res (list Z).

Variables (citizens : list Citizen) (friend_links subscribers : list string).
Variables (target : string) (message : Message) (threshold : Q).

(** A call that returns went through the weighted graph, the target, one
    path per subscriber and the filter. *)
Lemma influencer_paths_within_distance_inv out :
  influencer_paths_within_distance dist_to_agent_brain dijkstra_path
    citizens friend_links subscribers target message threshold = Ok out ->
  exists G target_id paths,
    weighted_graph dist_to_agent_brain citizens friend_links message = Ok G
    /\ parse_id target 1 = Ok target_id
    /\ (forall k p, zget k paths = Some p ->
          dijkstra_path G k target_id = Ok p
          /\ (exists subscriber,
                In subscriber subscribers /\ parse_id subscriber 2 = Ok k)
          /\ exists ds, distance_sequence dist_to_agent_brain G message p = Ok ds)
    /\ (forall subscriber, In subscriber subscribers ->
          exists s p, parse_id subscriber 2 = Ok s
            /\ dijkstra_path G s target_id = Ok p
            /\ zget s paths = Some p)
    /\ forall k,
         zget k out
         = match zget k paths with
           | Some p => kept dist_to_agent_brain G message threshold p
           | None => None
           end.
Proof.
  unfold influencer_paths_within_distance. intros H.
  inv_bind H as G0 HG0. inv_bind H as G HG. inv_bind H as target_id Ht.
  inv_bind H as paths Hp.
  exists G, target_id, paths.
  destruct (paths_loop dijkstra_path G target_id subscribers [] Hp)
    as (P1 & P2 & P3 & P4 & _).
  { constructor. }
  { intros k p Hk. discriminate. }
  destruct (filter_loop dist_to_agent_brain G message threshold paths [] H P1)
    as [F1 F2].
  repeat split; auto.
  - unfold weighted_graph. rewrite HG0. simpl. exact HG.
  - destruct (P3 k p H0) as [C|?]; [discriminate|auto].
  - apply (F1 k). now apply get_Some_in with (K_dec := Z.eq_dec).
  - intros k. rewrite F2. destruct (zget k paths) as [p|]; auto.
    now destruct (kept dist_to_agent_brain G message threshold p).
Qed.

(** C2.  When the call returns: every source in the returned mapping is
    there with the distance sequence of its shortest path (the distances at
    the nodes of the path but the last), all of whose values are at most
    the threshold; and every subscriber whose shortest path has a distance
    above the threshold in its sequence is absent from the mapping, while
    one whose sequence stays within the threshold is present. *)
Theorem threshold_filter_sound out :
  influencer_paths_within_distance dist_to_agent_brain dijkstra_path
    citizens friend_links subscribers target message threshold = Ok out ->
  exists G target_id,
    weighted_graph dist_to_agent_brain citizens friend_links message = Ok G
    /\ parse_id target 1 = Ok target_id
    /\ (forall s ds, zget s out = Some ds ->
          Forall (fun d => d <= threshold) ds
          /\ exists path,
               dijkstra_path G s target_id = Ok path
               /\ distance_sequence dist_to_agent_brain G message path = Ok ds)
    /\ (forall subscriber, In subscriber subscribers ->
          exists s path ds,
            parse_id subscriber 2 = Ok s
            /\ dijkstra_path G s target_id = Ok path
            /\ distance_sequence dist_to_agent_brain G message path = Ok ds
            /\ (Exists (fun d => threshold < d) ds -> zget s out = None)
            /\ (Forall (fun d => d <= threshold) ds -> zget s out = Some ds)).
Proof.
  intros H. apply influencer_paths_within_distance_inv in H.
  destruct H as (G & target_id & paths & HG & Ht & Hpaths & Hsubs & Hout).
  exists G, target_id. repeat split; auto.
  - rewrite Hout in H. destruct (zget s paths) as [p|] eqn:Ep; [|discriminate].
    unfold kept in H.
    destruct (distance_sequence dist_to_agent_brain G message p) as [ds'|];
      [|discriminate].
    destruct (within_threshold ds' threshold) eqn:Ew; [|discriminate].
    injection H as <-. now apply within_threshold_true.
  - rewrite Hout in H. destruct (zget s paths) as [p|] eqn:Ep; [|discriminate].
    destruct (Hpaths s p Ep) as (Hd & _ & _). exists p. split; auto.
    unfold kept in H.
    destruct (distance_sequence dist_to_agent_brain G message p) as [ds'|];
      [|discriminate].
    destruct (within_threshold ds' threshold); [|discriminate]. congruence.
  - intros sub Hin. destruct (Hsubs sub Hin) as (s & p & Hs & Hd & Hp).
    destruct (Hpaths s p Hp) as (_ & _ & ds & Hds).
    exists s, p, ds. repeat split; auto.
    + intros Hex. apply within_threshold_false in Hex.
      rewrite Hout, Hp. unfold kept. now rewrite Hds, Hex.
    + intros Hall. apply within_threshold_true in Hall.
      rewrite Hout, Hp. unfold kept. now rewrite Hds, Hall.
Qed.

(** The comprehension stops at the first path that is not found. *)
Lemma paths_loop_no_path G target_id : forall subs acc,
  (forall subscriber, In subscriber subs ->
     exists s, parse_id subscriber 2 = Ok s
       /\ (dijkstra_path G s target_id = Raise NetworkXNoPath
           \/ exists p, dijkstra_path G s target_id = Ok p)) ->
  (exists subscriber s, In subscriber subs
     /\ parse_id subscriber 2 = Ok s
     /\ dijkstra_path G s target_id = Raise NetworkXNoPath) ->
  foldM (fun paths subscriber =>
           key <- parse_id subscriber 2 ;;
           source <- parse_id subscriber 2 ;;
           path <- dijkstra_path G source target_id ;;
           Ok (zset key path paths)) subs acc
  = Raise NetworkXNoPath.
Proof.
  induction subs as [|sub tl IH]; simpl; intros acc Hall (bad & s & Hin & Hs & Hd).
  - destruct Hin.
  - destruct (Hall sub (or_introl eq_refl)) as (s0 & Hs0 & [Hno|[p Hp]]).
    + rewrite Hs0. simpl. rewrite Hno. reflexivity.
    + rewrite Hs0. simpl. rewrite Hp. simpl. apply IH.
      * intros x Hx. apply Hall. now right.
      * destruct Hin as [<-|Hin]; [congruence|]. exists bad, s. auto.
Qed.

(** C3, as the code has it.  The paths of all subscribers are computed in
    one comprehension, without a handler: when the sources of a batch parse
    and one of them has no path to the target, the exception of
    [nx.dijkstra_path], [NetworkXNoPath], leaves the call; no mapping is
    returned, also not for the sources that do have a path. *)
Theorem unreachable_source_aborts_batch G target_id :
  weighted_graph dist_to_agent_brain citizens friend_links message = Ok G ->
  parse_id target 1 = Ok target_id ->
  (forall subscriber, In subscriber subscribers ->
     exists s, parse_id subscriber 2 = Ok s
       /\ (dijkstra_path G s target_id = Raise NetworkXNoPath
           \/ exists p, dijkstra_path G s target_id = Ok p)) ->
  (exists subscriber s, In subscriber subscribers
     /\ parse_id subscriber 2 = Ok s
     /\ dijkstra_path G s target_id = Raise NetworkXNoPath) ->
  influencer_paths_within_distance dist_to_agent_brain dijkstra_path
    citizens friend_links subscribers target message threshold
  = Raise NetworkXNoPath.
Proof.
  intros HG Ht Hall Hbad. unfold influencer_paths_within_distance.
  unfold weighted_graph in HG.
  destruct (nlogo_graph_to_nx citizens friend_links) as [G0|e]; [|discriminate].
  simpl in *. rewrite HG. simpl. rewrite Ht. simpl.
  rewrite paths_loop_no_path; auto.
Qed.

End InfluenceCall.

(** Agents 0 - 1 - 2 with distances 1, 5, 3 to the message, target 2 and
    threshold 4: source 0 goes through 1 and is dropped, source 2 is kept
    with the empty sequence, source 1 is dropped. *)
Lemma threshold_filter_sound_witness :
  exists G target_id,
    weighted_graph dist_A three_agents two_friendships 0 = Ok G
    /\ parse_id "(citizen 2)" 1 = Ok target_id
    /\ (forall s ds, zget s only_source_2 = Some ds ->
          Forall (fun d => d <= 4) ds
          /\ exists path,
               NX.dijkstra_path G s target_id = Ok path
               /\ distance_sequence dist_A G 0 path = Ok ds)
    /\ (forall subscriber,
          In subscriber [subscriber_0; subscriber_2; subscriber_1] ->
          exists s path ds,
            parse_id subscriber 2 = Ok s
            /\ NX.dijkstra_path G s target_id = Ok path
            /\ distance_sequence dist_A G 0 path = Ok ds
            /\ (Exists (fun d => 4 < d) ds -> zget s only_source_2 = None)
            /\ (Forall (fun d => d <= 4) ds -> zget s only_source_2 = Some ds)).
Proof.
  exact (@threshold_filter_sound Q dist_A NX.dijkstra_path three_agents
           two_friendships [subscriber_0; subscriber_2; subscriber_1]
           "(citizen 2)" 0 4 only_source_2 eq_refl).
Defined.

(** C3, as the claim has it, fails.  Agent 2 has no friend: source 0 has a
    path to the target 1 and is answered when asked alone, but in one batch
    with source 2 the call raises and answers nobody. *)
Lemma unreachable_source_loses_sibling_results :
  exists G,
    weighted_graph dist_A three_agents one_friendship 0 = Ok G
    /\ NX.dijkstra_path G 0 1 = Ok [0; 1]%Z
    /\ NX.dijkstra_path G 2 1 = Raise NetworkXNoPath
    /\ influencer_paths_within_distance dist_A NX.dijkstra_path
         three_agents one_friendship [subscriber_0] "(citizen 1)" 0 10
       = Ok [(0%Z, [1])]
    /\ influencer_paths_within_distance dist_A NX.dijkstra_path
         three_agents one_friendship [subscriber_0; subscriber_2] "(citizen 1)" 0 10
       = Raise NetworkXNoPath.
Proof.
  eexists. split; [reflexivity|]. repeat split; reflexivity.
Qed.

Lemma unreachable_source_aborts_batch_witness :
  influencer_paths_within_distance dist_A NX.dijkstra_path
    three_agents one_friendship [subscriber_0; subscriber_2] "(citizen 1)" 0 10
  = Raise NetworkXNoPath.
Proof.
  refine (@unreachable_source_aborts_batch Q dist_A NX.dijkstra_path three_agents
            one_friendship [subscriber_0; subscriber_2] "(citizen 1)" 0 10
            _ 1%Z eq_refl eq_refl _ _).
  - intros sub [<-|[<-|[]]].
    + exists 0%Z. split; [reflexivity|]. right. exists [0; 1]%Z. reflexivity.
    + exists 2%Z. split; [reflexivity|]. left. reflexivity.
  - exists subscriber_2, 2%Z. split; [simpl; auto|]. split; reflexivity.
Defined.

(* ------------------------------------------------------------------ *)
(** ** One data dictionary per link *)

Lemma same_link_true u v a b :
  same_link u v a b = true <-> (a = u /\ b = v) \/ (a = v /\ b = u).
Proof.
  unfold same_link. now rewrite orb_true_iff, !andb_true_iff, !Z.eqb_eq.
Qed.

Lemma wf_nodes_eq G G' : g_nodes G = g_nodes G' -> UG.wf G' -> UG.wf G.
Proof.
  intros E [ND Sym]. unfold UG.wf, UG.nodes, UG.edge_loc, UG.adj in *.
  rewrite E. auto.
Qed.

Lemma edge_loc_nodes_eq G G' u v :
  g_nodes G = g_nodes G' -> UG.edge_loc G u v = UG.edge_loc G' u v.
Proof. intros E. unfold UG.edge_loc, UG.adj. now rewrite E. Qed.

(** Under the invariant the two adjacency entries of a link agree. *)
Lemma edge_loc_sym G u v : UG.wf G -> UG.edge_loc G u v = UG.edge_loc G v u.
Proof.
  intros [_ Sym].
  destruct (UG.edge_loc G u v) as [l|] eqn:E1.
  - symmetry. now apply Sym.
  - destruct (UG.edge_loc G v u) as [l|] eqn:E2; auto.
    apply Sym in E2. congruence.
Qed.

(** Both directions of a link read the same dictionary. *)
Lemma hop_weight_sym G u v : UG.wf G -> NX.hop_weight G u v = NX.hop_weight G v u.
Proof.
  intros W. unfold NX.hop_weight, UG.edge_data. now rewrite (@edge_loc_sym G u v W).
Qed.

Lemma length_data_add_edge u v G :
  List.length (g_data (UG.add_edge u v G))
  = match UG.edge_loc G u v with
    | Some _ => List.length (g_data G)
    | None => S (List.length (g_data G))
    end.
Proof.
  unfold UG.add_edge. rewrite !edge_loc_add_node.
  destruct (UG.edge_loc G u v); simpl; rewrite ?length_app, !data_add_node; simpl; lia.
Qed.

Lemma wf_store_empty : wf_store UG.empty.
Proof. split; intros; discriminate. Qed.

Lemma wf_store_add_node n G : wf_store G -> wf_store (UG.add_node n G).
Proof.
  intros [B I]. split.
  - intros u v l. rewrite edge_loc_add_node, data_add_node. apply B.
  - intros u v u' v' l. rewrite !edge_loc_add_node. apply I.
Qed.

Lemma wf_store_add_edge u v G : wf_store G -> wf_store (UG.add_edge u v G).
Proof.
  intros [B I].
  assert (Hl : (link_loc G u v < List.length (g_data (UG.add_edge u v G)))%nat).
  { rewrite length_data_add_edge. unfold link_loc.
    destruct (UG.edge_loc G u v) eqn:E; [eapply B; eauto | lia]. }
  assert (Hfresh : forall a b, UG.edge_loc G a b = Some (link_loc G u v) ->
                               same_link u v a b = true).
  { intros a b H. unfold link_loc in H.
    destruct (UG.edge_loc G u v) eqn:E; [eapply I; eauto|].
    apply B in H. lia. }
  split.
  - intros a b l. rewrite edge_loc_add_edge.
    destruct (same_link u v a b).
    + intros H. injection H as <-. exact Hl.
    + intros H. apply B in H. rewrite length_data_add_edge.
      destruct (UG.edge_loc G u v); lia.
  - intros a b a' b' l. rewrite !edge_loc_add_edge.
    destruct (same_link u v a b) eqn:E1; destruct (same_link u v a' b') eqn:E2;
      intros H1 H2.
    + apply same_link_true in E1, E2. apply same_link_true.
      intuition congruence.
    + injection H1 as <-. apply Hfresh in H2. congruence.
    + injection H2 as <-. apply Hfresh in H1. congruence.
    + eapply I; eauto.
Qed.

Lemma adj_set_node_attr n attr x G G' a :
  UG.set_node_attr n attr x G = Ok G' -> UG.adj G' a = UG.adj G a.
Proof.
  unfold UG.set_node_attr.
  destruct (zget n (g_nodes G)) as [e|] eqn:E; [|discriminate].
  intros H. inversion H; subst; clear H. unfold UG.adj, zget, zset in *. simpl.
  destruct (Z.eq_dec n a) as [<-|N].
  - now rewrite get_set_eq, E.
  - now rewrite get_set_neq by assumption.
Qed.

Lemma set_node_attr_keeps n attr x G G' :
  UG.set_node_attr n attr x G = Ok G' ->
  UG.nodes G' = UG.nodes G
  /\ g_data G' = g_data G
  /\ forall u v, UG.edge_loc G' u v = UG.edge_loc G u v.
Proof.
  intros H. repeat split.
  - unfold UG.set_node_attr in H.
    destruct (zget n (g_nodes G)) as [e|] eqn:E; [|discriminate].
    inversion H; subst; clear H. unfold UG.nodes. simpl.
    apply keys_set_present. apply (in_keys_get Z.eq_dec). eauto.
  - unfold UG.set_node_attr in H.
    destruct (zget n (g_nodes G)); [|discriminate]. now inversion H.
  - intros u v. unfold UG.edge_loc. now rewrite (adj_set_node_attr _ _ _ _ u H).
Qed.

Lemma wf_set_node_attr n attr x G G' :
  UG.set_node_attr n attr x G = Ok G' ->
  UG.wf G /\ wf_store G -> UG.wf G' /\ wf_store G'.
Proof.
  intros H [[ND Sym] [B I]].
  destruct (set_node_attr_keeps _ _ _ _ H) as (En & Ed & El).
  repeat split.
  - now rewrite En.
  - intros u v l. rewrite !El. apply Sym.
  - intros u v l. rewrite El, Ed. apply B.
  - intros u v u' v' l. rewrite !El. apply I.
Qed.

(** The graph made from the agents and links satisfies both invariants. *)
Lemma nlogo_graph_to_nx_wf citizens friend_links G :
  nlogo_graph_to_nx citizens friend_links = Ok G -> UG.wf G /\ wf_store G.
Proof.
  unfold nlogo_graph_to_nx. intros H. inv_bind H as G1 H1.
  assert (Hattrs : forall cit id attrs g g',
    UG.wf g /\ wf_store g ->
    foldM (fun G attr => x <- cit_get cit attr ;; UG.set_node_attr id attr x G)
          attrs g = Ok g' ->
    UG.wf g' /\ wf_store g').
  { intros cit id attrs g g' Hg Hf.
    eapply (foldM_invariant (fun g => UG.wf g /\ wf_store g)); [ | exact Hg | exact Hf].
    intros s attr s' Hs Hb. cbv beta in Hb. inv_bind Hb as x Hx.
    eapply wf_set_node_attr; eauto. }
  assert (W1 : UG.wf G1 /\ wf_store G1).
  { eapply (foldM_invariant (fun g => UG.wf g /\ wf_store g)); [ | | exact H1].
    - intros s cit s' [Ws Ss] Hb. cbv beta zeta in Hb. inv_bind Hb as g2 Hg2.
      eapply Hattrs; [|exact Hb]. eapply Hattrs; [|exact Hg2].
      split; [now apply wf_add_node | now apply wf_store_add_node].
    - split; [apply wf_empty | apply wf_store_empty]. }
  eapply (foldM_invariant (fun g => UG.wf g /\ wf_store g)); [ | exact W1 | exact H].
  intros s link s' [Ws Ss] Hb. cbv beta zeta in Hb.
  inv_bind Hb as end1 He1. inv_bind Hb as end2 He2.
  inv_bind Hb as u Hu. inv_bind Hb as v Hv. inversion Hb; subst.
  split; [now apply wf_add_edge | now apply wf_store_add_edge].
Qed.

(** A link is reported in one order only. *)
Lemma edges_from_one_order items : forall seen a b,
  In (a, b) (UG.edges_from seen items) -> In (b, a) (UG.edges_from seen items) ->
  a = b.
Proof.
  induction items as [|[n e] rest IH]; simpl; intros seen a b H1 H2; [tauto|].
  apply in_app_iff in H1, H2.
  destruct H1 as [H1|H1], H2 as [H2|H2].
  - apply in_map_iff in H1, H2.
    destruct H1 as (y1 & E1 & _), H2 as (y2 & E2 & _). congruence.
  - apply in_map_iff in H1. destruct H1 as (y1 & E1 & _). injection E1 as -> ->.
    apply edges_from_in in H2. destruct H2 as (_ & _ & _ & C).
    exfalso. apply C. now left.
  - apply in_map_iff in H2. destruct H2 as (y2 & E2 & _). injection E2 as -> ->.
    apply edges_from_in in H1. destruct H1 as (_ & _ & _ & C).
    exfalso. apply C. now left.
  - eauto.
Qed.

(* ------------------------------------------------------------------ *)
(** ** The weights of the links *)

Lemma length_store_set l d st :
  List.length (UG.store_set l d st) = List.length st.
Proof.
  revert l. induction st as [|x tl IH]; intros [|l]; simpl; auto.
Qed.

Lemma nth_store_set_eq l d st :
  (l < List.length st)%nat -> nth_error (UG.store_set l d st) l = Some d.
Proof.
  revert l. induction st as [|x tl IH]; intros [|l]; simpl; intros H; try lia; auto.
  apply IH. lia.
Qed.

Lemma nth_store_set_neq l l' d st :
  l <> l' -> nth_error (UG.store_set l d st) l' = nth_error st l'.
Proof.
  revert l l'. induction st as [|x tl IH]; intros [|l] [|l']; simpl; intros H;
    auto; try congruence.
Qed.

Section Weights.

Variable Message : Type.
Variable dist_to_agent_brain : NodeAttrs -> Message -> Res Q.
Variable message : Message.
Variable G0 : Graph.

(** The distance that the loop computes for an edge: that of [e[0]]. *)
Let weight_of (e : Z * Z) : Res Q :=
  a <- UG.node_attrs G0 (fst e) ;; dist_to_agent_brain a message.

Let loc_of (e : Z * Z) : option loc := UG.edge_loc G0 (fst e) (snd e).

Let step (G : Graph) (e : Z * Z) : Res Graph :=
  a <- UG.node_attrs G (fst e) ;;
  w <- dist_to_agent_brain a message ;;
  UG.set_weight (fst e) (snd e) w G.

Lemma step_inv G e G' :
  g_nodes G = g_nodes G0 -> step G e = Ok G' ->
  exists w l, weight_of e = Ok w /\ loc_of e = Some l
    /\ g_nodes G' = g_nodes G0
    /\ g_data G' = UG.store_set l (mkEdgeData (Some w)) (g_data G).
Proof.
  intros En H. unfold step in H. inv_bind H as a Ha. inv_bind H as w Hw.
  unfold UG.set_weight in H.
  destruct (UG.edge_loc G (fst e) (snd e)) as [l|] eqn:El; [|discriminate].
  inversion H; subst; clear H. exists w, l. simpl. repeat split; auto.
  - unfold weight_of, UG.node_attrs in *. rewrite <- En, Ha. exact Hw.
  - unfold loc_of. now rewrite <- (@edge_loc_nodes_eq G G0 (fst e) (snd e) En).
Qed.

(** After the loop over the edges [E]: the nodes are as before; a cell that
    no edge of [E] refers to is as before; a cell that edges of [E] refer to,
    all of them with the weight [w], holds [w]. *)
Lemma assign_loop E : forall G G',
  g_nodes G = g_nodes G0 ->
  foldM step E G = Ok G' ->
  g_nodes G' = g_nodes G0
  /\ List.length (g_data G') = List.length (g_data G)
  /\ (forall e, In e E -> exists w, weight_of e = Ok w)
  /\ (forall l, (forall e, In e E -> loc_of e <> Some l) ->
        nth_error (g_data G') l = nth_error (g_data G) l)
  /\ (forall l w, (l < List.length (g_data G))%nat ->
        (exists e, In e E /\ loc_of e = Some l) ->
        (forall e, In e E -> loc_of e = Some l -> weight_of e = Ok w) ->
        nth_error (g_data G') l = Some (mkEdgeData (Some w))).
Proof.
  induction E as [|e tl IH]; simpl; intros G G' En H.
  - inversion H; subst. repeat split; auto.
    + intros e [].
    + intros l w _ (e & [] & _).
  - inv_bind H as G1 H1. apply step_inv in H1; auto.
    destruct H1 as (w1 & l1 & Hw1 & Hl1 & En1 & Ed1).
    destruct (IH _ _ En1 H) as (I1 & I2 & I3 & I4 & I5).
    assert (Hlen : List.length (g_data G1) = List.length (g_data G)).
    { rewrite Ed1. apply length_store_set. }
    repeat split; auto.
    + congruence.
    + intros e' [<-|Hin]; eauto.
    + intros l Hno. rewrite I4 by (intros e' He'; apply Hno; auto).
      rewrite Ed1. apply nth_store_set_neq.
      intros ->. apply (Hno e); auto.
    + intros l w Hl Hex Hall.
      destruct (existsb (fun e' => match loc_of e' with
                                   | Some l' => Nat.eqb l' l
                                   | None => false
                                   end) tl) eqn:Ex.
      * apply existsb_exists in Ex. destruct Ex as (e' & Hin & He').
        apply I5; [lia | | auto].
        exists e'. split; auto.
        destruct (loc_of e') as [l'|]; [|discriminate].
        apply Nat.eqb_eq in He'. now subst.
      * assert (Hno : forall e', In e' tl -> loc_of e' <> Some l).
        { intros e' Hin C.
          assert (existsb (fun e' => match loc_of e' with
                                     | Some l' => Nat.eqb l' l
                                     | None => false
                                     end) tl = true); [|congruence].
          apply existsb_exists. exists e'. split; auto.
          rewrite C. apply Nat.eqb_refl. }
        rewrite (I4 l Hno).
        destruct Hex as (e' & [<-|Hin] & He'); [|exfalso; eapply Hno; eauto].
        assert (l1 = l) by congruence. subst l1.
        assert (w1 = w).
        { specialize (Hall e (or_introl eq_refl) He'). congruence. }
        subst w1. rewrite Ed1. now apply nth_store_set_eq.
Qed.

(** C6, as the code has it.  The weight is written once per link, into
    the one dictionary that both directions of the link read: for every
    edge [e] that [G.edges] reports, the hop from [e[0]] to [e[1]] and the
    hop back from [e[1]] to [e[0]] are both charged the distance of the
    attributes of [e[0]] (the endpoint that comes first in node order) to
    the message; in general the two directions of a link have one weight. *)
Theorem link_weight_from_first_endpoint citizens friend_links G :
  nlogo_graph_to_nx citizens friend_links = Ok G0 ->
  assign_weights dist_to_agent_brain G0 message = Ok G ->
  (forall u v, NX.hop_weight G u v = NX.hop_weight G v u)
  /\ (forall e, In e (UG.edges G0) ->
        exists a w,
          UG.node_attrs G0 (fst e) = Ok a
          /\ dist_to_agent_brain a message = Ok w
          /\ NX.hop_weight G (fst e) (snd e) = Ok w
          /\ NX.hop_weight G (snd e) (fst e) = Ok w).
Proof.
  intros H0 H. apply nlogo_graph_to_nx_wf in H0. destruct H0 as [W [B I]].
  unfold assign_weights in H. fold step in H.
  destruct (assign_loop (UG.edges G0) G0 eq_refl H) as (En & Elen & Hw & _ & Hcell).
  assert (WG : UG.wf G) by (eapply wf_nodes_eq; eauto).
  split; [intros u v; now apply hop_weight_sym|].
  intros [a b] Hin. simpl.
  destruct (Hw _ Hin) as [w Hwe]. unfold weight_of in Hwe. simpl in Hwe.
  destruct (UG.node_attrs G0 a) as [attrs|] eqn:Ea; [|discriminate].
  simpl in Hwe. exists attrs, w. split; auto. split; auto.
  destruct (edges_edge_loc G0 a b (proj1 W) Hin) as [l Hl].
  assert (Hcell' : nth_error (g_data G) l = Some (mkEdgeData (Some w))).
  { apply Hcell.
    - eapply B; eauto.
    - exists (a, b). auto.
    - intros [a' b'] Hin' Hl'. unfold loc_of in Hl'. simpl in Hl'.
      assert (Hsame : same_link a b a' b' = true) by (eapply I; eauto).
      apply same_link_true in Hsame.
      assert (E : (a', b') = (a, b)).
      { destruct Hsame as [[-> ->]|[-> ->]]; auto.
        assert (a = b) by (eapply edges_from_one_order; eauto). now subst. }
      rewrite E. unfold weight_of. simpl. now rewrite Ea. }
  assert (Hab : NX.hop_weight G a b = Ok w).
  { unfold NX.hop_weight, UG.edge_data.
    rewrite (@edge_loc_nodes_eq G G0 a b En), Hl, Hcell'. reflexivity. }
  split; auto. now rewrite <- (@hop_weight_sym G a b WG).
Qed.

End Weights.

Lemma link_weight_from_first_endpoint_witness :
  exists G0 G,
    nlogo_graph_to_nx three_agents one_friendship = Ok G0
    /\ assign_weights dist_A G0 0 = Ok G
    /\ NX.hop_weight G 0 1 = NX.hop_weight G 1 0
    /\ NX.hop_weight G 1 0 = Ok 1.
Proof.
  destruct (nlogo_graph_to_nx three_agents one_friendship) as [G0|] eqn:E0;
    [|vm_compute in E0; discriminate].
  destruct (assign_weights dist_A G0 0) as [G|] eqn:E;
    [|vm_compute in E0; injection E0 as <-; vm_compute in E; discriminate].
  exists G0, G. split; auto. split; auto.
  destruct (link_weight_from_first_endpoint dist_A 0 _ _ E0 E) as [Hsym Hedge].
  split; [apply Hsym|].
  destruct (Hedge (0%Z, 1%Z)) as (a & w & Ha & Hw & _ & Hback).
  - vm_compute in E0. injection E0 as <-. vm_compute. auto.
  - simpl in *. rewrite Hback. f_equal.
    vm_compute in E0. injection E0 as <-.
    vm_compute in Ha. injection Ha as <-. vm_compute in Hw. congruence.
Defined.

(** C6, as the claim has it, fails.  Agents 0 and 1 are friends, at
    distances 1 and 5 from the message: the hop from 1 to 0 is charged 1,
    the distance of agent 0, not the distance 5 of its origin, agent 1. *)
Lemma hop_back_not_weighed_by_origin :
  exists G,
    weighted_graph dist_A three_agents one_friendship 0 = Ok G
    /\ NX.hop_weight G 1 0 = Ok 1
    /\ (a <- UG.node_attrs G 1 ;; dist_A a 0) = Ok (5 # 1)
    /\ ~ weighs_by_origin dist_A G 0.
Proof.
  eexists. split; [reflexivity|]. split; [reflexivity|]. split; [reflexivity|].
  intros C. destruct (C 1%Z 0%Z 1 eq_refl) as (a & Ha & Hd).
  vm_compute in Ha. injection Ha as <-. vm_compute in Hd. discriminate.
Qed.

(* ------------------------------------------------------------------ *)
(** ** Homophily of the path graph *)

(** C8.  On the path graph 0 - 1 - 2 with the values 0, 5, 10, the
    average distance of each node to its neighbours is 5 (|0 - 5| for node
    0, (|5 - 0| + |5 - 10|) / 2 for node 1, |10 - 5| for node 2), and
    [graph_homophily], the mean of the three, returns 5. *)
Theorem graph_homophily_path_graph :
  exists G attrs adj q0 q1 q2 h,
    nlogo_graph_to_nx path_agents two_friendships = Ok G
    /\ UG.nodes G = [0; 1; 2]%Z
    /\ UG.edges G = [(0, 1); (1, 2)]%Z
    /\ mapM (node_value G "A") (UG.nodes G) = Ok attrs
    /\ attrs = [0; 5; 10]
    /\ adj_matrix G = Ok adj
    /\ neighbour_average adj attrs 0 = Ok q0 /\ q0 == 5
    /\ neighbour_average adj attrs 1 = Ok q1 /\ q1 == 5
    /\ neighbour_average adj attrs 2 = Ok q2 /\ q2 == 5
    /\ graph_homophily G "A" = Ok h /\ h == 5
    /\ nlogo_graph_homophily path_agents two_friendships "A" = Ok h.
Proof.
  do 7 eexists.
  split; [reflexivity|]. split; [reflexivity|]. split; [reflexivity|].
  split; [reflexivity|]. split; [reflexivity|]. split; [reflexivity|].
  split; [reflexivity|]. split; [reflexivity|].
  split; [reflexivity|]. split; [reflexivity|].
  split; [reflexivity|]. split; [reflexivity|].
  split; [reflexivity|]. split; reflexivity.
Qed.

(* ------------------------------------------------------------------ *)
(** ** Polarization, disagreement and the scale of the values *)

Lemma mapM_ext_in {A B : Type} (f g : A -> Res B) xs :
  Forall (fun x => f x = g x) xs -> mapM f xs = mapM g xs.
Proof.
  induction 1 as [|x tl Hx _ IH]; simpl; [reflexivity|].
  now rewrite Hx, IH.
Qed.

(** *** What scaling changes of a graph *)

Lemma zget_map_entries (f : NodeEntry -> NodeEntry) ns a :
  zget a (map (fun ne : Z * NodeEntry => (fst ne, f (snd ne))) ns)
  = option_map f (zget a ns).
Proof.
  unfold zget. induction ns as [|[k e] tl IH]; simpl; auto.
  destruct (Z.eq_dec a k); auto.
Qed.

Lemma nodes_scale_attr {F : Type} {N : Number F} (c : F) attr G :
  UG.nodes (scale_attr c attr G) = UG.nodes G.
Proof.
  unfold UG.nodes, scale_attr, zkeys, Dict.keys. simpl.
  rewrite map_map. reflexivity.
Qed.

Lemma edge_data_scale_attr {F : Type} {N : Number F} (c : F) attr G u v :
  UG.edge_data (scale_attr c attr G) u v = UG.edge_data G u v.
Proof.
  unfold UG.edge_data, UG.edge_loc, UG.adj, scale_attr. cbn [g_nodes g_data].
  rewrite (zget_map_entries
             (fun e => mkEntry (scale_attrs c attr (n_attrs e)) (n_nbrs e))).
  now destruct (zget u (g_nodes G)).
Qed.

Lemma adj_matrix_scale_attr {F : Type} {N : Number F} (c : F) attr G :
  adj_matrix (N := N) (scale_attr c attr G) = adj_matrix G.
Proof.
  unfold adj_matrix. rewrite nodes_scale_attr.
  destruct (UG.nodes G) as [|n tl] eqn:E; auto.
  f_equal. apply map_ext. intros u. apply map_ext. intros v.
  now rewrite edge_data_scale_attr.
Qed.

Lemma lookup_scale_attrs {F : Type} {N : Number F} (c : F) attr a :
  Dict.lookup string_dec attr (scale_attrs c attr a)
  = match Dict.lookup string_dec attr a with
    | Ok x => Ok (to_Q (nmul c (of_Q x)))
    | Raise e => Raise e
    end.
Proof.
  unfold Dict.lookup, scale_attrs. induction a as [|[k x] tl IH]; simpl; auto.
  destruct (string_dec attr k) as [E|NE]; simpl.
  - destruct (string_dec attr k); [reflexivity|contradiction].
  - destruct (string_dec attr k); [contradiction|exact IH].
Qed.

(** The value read from the scaled graph is the recorded product. *)
Lemma node_value_scale_attr {F : Type} {N : Number F} (c : F) attr G node :
  node_value (N := N) (scale_attr c attr G) attr node
  = (x <- node_value G attr node ;; Ok (of_Q (to_Q (nmul c x)))).
Proof.
  unfold node_value, UG.node_attrs, scale_attr. cbn [g_nodes g_data].
  rewrite (zget_map_entries
             (fun e => mkEntry (scale_attrs c attr (n_attrs e)) (n_nbrs e))).
  destruct (zget node (g_nodes G)) as [e|]; simpl; auto.
  rewrite lookup_scale_attrs.
  now destruct (Dict.lookup string_dec attr (n_attrs e)).
Qed.

(** Where the quotients are kept, the values on the scale of [0, 1] are
    the same numbers. *)
Lemma scaled_values_quotients_kept {F : Type} {N : Number F} (c m : F) attr G :
  quotients_kept c m attr G ->
  scaled_values (scale_attr c attr G) attr (nmul c m) = scaled_values G attr m.
Proof.
  intros [Hz Hq]. unfold scaled_values. rewrite nodes_scale_attr.
  apply mapM_ext_in. revert Hq. apply Forall_impl. intros node Hq.
  rewrite node_value_scale_attr.
  destruct (node_value G attr node) as [x|e]; simpl; [|reflexivity].
  destruct (Hq x eq_refl) as [Hrec Hdiv].
  unfold py_div. now rewrite Hrec, Hz, Hdiv.
Qed.




(* ------------------------------------------------------------------ *)
(** ** The scale of the values in arithmetic without rounding *)

Lemma Res_rel_bind {A B : Type} (RA : A -> A -> Prop) (RB : B -> B -> Prop)
    (x y : Res A) (f g : A -> Res B) :
  Res_rel RA x y ->
  (forall a b, RA a b -> Res_rel RB (f a) (g b)) ->
  Res_rel RB (bind x f) (bind y g).
Proof.
  destruct x, y; simpl; intros H Hf; auto; contradiction.
Qed.

Lemma Res_rel_mapM {A : Type} (R : Q -> Q -> Prop) (f g : A -> Res Q) xs :
  (forall x, Res_rel R (f x) (g x)) ->
  Res_rel (Forall2 R) (mapM f xs) (mapM g xs).
Proof.
  intros H. induction xs as [|x tl IH]; simpl; [constructor|].
  apply Res_rel_bind with (RA := R); [apply H|].
  intros a b Hab. apply Res_rel_bind with (RA := Forall2 R); [apply IH|].
  intros l l' Hl. simpl. now constructor.
Qed.

Lemma Res_rel_foldM {A : Type} (f g : Q -> A -> Res Q) xs :
  (forall t t' x, t == t' -> Res_rel Qeq (f t x) (g t' x)) ->
  forall t t', t == t' -> Res_rel Qeq (foldM f xs t) (foldM g xs t').
Proof.
  intros H. induction xs as [|x tl IH]; simpl; intros t t' Ht; auto.
  apply Res_rel_bind with (RA := Qeq); auto.
Qed.

Lemma fold_Qplus_eq xs xs' : Forall2 Qeq xs xs' ->
  forall a a', a == a' -> fold_left Qplus xs a == fold_left Qplus xs' a'.
Proof.
  induction 1 as [|x x' tl tl' Hx _ IH]; simpl; intros a a' Ha; auto.
  apply IH. now rewrite Ha, Hx.
Qed.

Lemma np_sum_eq xs xs' : Forall2 Qeq xs xs' -> np_sum xs == np_sum xs'.
Proof. intros H. unfold np_sum. apply fold_Qplus_eq; auto. reflexivity. Qed.

Lemma Forall2_Qeq_refl xs : Forall2 Qeq xs xs.
Proof. induction xs; constructor; auto. reflexivity. Qed.

Lemma Forall2_length {A B : Type} (R : A -> B -> Prop) xs ys :
  Forall2 R xs ys -> List.length xs = List.length ys.
Proof. induction 1; simpl; congruence. Qed.

Lemma Forall2_map_Qeq (f g : Q -> Q) xs xs' :
  (forall x x', x == x' -> f x == g x') ->
  Forall2 Qeq xs xs' -> Forall2 Qeq (map f xs) (map g xs').
Proof. intros H. induction 1; simpl; constructor; auto. Qed.

Lemma np_dot_eq xs xs' ys ys' :
  Forall2 Qeq xs xs' -> Forall2 Qeq ys ys' -> np_dot xs ys == np_dot xs' ys'.
Proof.
  intros Hx Hy. unfold np_dot. apply np_sum_eq. revert ys ys' Hy.
  induction Hx as [|x x' tl tl' Hxx _ IH]; simpl; intros ys ys' Hy; [constructor|].
  destruct Hy as [|y y' yl yl' Hyy Hyl]; simpl; constructor; auto.
  simpl. now rewrite Hxx, Hyy.
Qed.

Lemma Res_rel_py_index xs xs' i :
  Forall2 Qeq xs xs' -> Res_rel Qeq (py_index xs i) (py_index xs' i).
Proof.
  intros H. unfold py_index. rewrite <- (Forall2_length H).
  destruct (_ <? 0)%Z; simpl; auto.
  generalize (Z.to_nat (if (i <? 0)%Z then (Z.of_nat (List.length xs) + i)%Z else i)).
  induction H as [|x x' tl tl' Hx _ IH]; intros [|n]; simpl; auto.
Qed.

Lemma Res_rel_py_index_same {A : Type} (xs : list A) i :
  Res_rel eq (py_index xs i) (py_index xs i).
Proof. destruct (py_index xs i); simpl; auto. Qed.

(** Without rounding, the values on the scale of [0, 1] are equal
    rationals, whatever the positive factor is. *)
Lemma scaled_values_scale_attr c attr G m :
  0 < m -> 0 < c ->
  Res_rel (Forall2 Qeq)
    (scaled_values (scale_attr c attr G) attr (c * m))
    (scaled_values G attr m).
Proof.
  intros Hm Hc. unfold scaled_values. rewrite nodes_scale_attr.
  apply Res_rel_mapM. intros node. rewrite node_value_scale_attr.
  destruct (node_value G attr node) as [x|e]; simpl; auto.
  unfold py_div. exact_arith.
  assert (Hcm : ~ c * m == 0) by (intros C; nra).
  assert (Hm0 : ~ m == 0) by (intros C; lra).
  destruct (Qeq_bool (c * m) 0) eqn:E1; [apply Qeq_bool_iff in E1; contradiction|].
  destruct (Qeq_bool m 0) eqn:E2; [apply Qeq_bool_iff in E2; contradiction|].
  simpl. field. split; intros C; lra.
Qed.

(** What the rounding of binary64 takes away: in the arithmetic [exact],
    multiplying the attribute of every node and [max_attr_value] by the
    same positive constant changes neither [graph_polarization] nor
    [graph_disagreement]. *)
Lemma scale_invariant_without_rounding G attr (m c : Q) :
  0 < m -> 0 < c ->
  Res_rel Qeq (graph_polarization (scale_attr c attr G) attr (c * m))
              (graph_polarization G attr m)
  /\ Res_rel Qeq (graph_disagreement (scale_attr c attr G) attr (c * m))
                 (graph_disagreement G attr m).
Proof.
  intros Hm Hc. pose proof (scaled_values_scale_attr attr G Hm Hc) as Hv.
  split.
  - unfold graph_polarization.
    apply Res_rel_bind with (RA := Forall2 Qeq); [exact Hv|].
    intros l l' Hl.
    assert (Hmean : np_sum l / inject_Z (Z.of_nat (List.length l))
                    == np_sum l' / inject_Z (Z.of_nat (List.length l'))).
    { rewrite (np_sum_eq Hl), (Forall2_length Hl). reflexivity. }
    assert (Hcentered :
      Forall2 Qeq
        (map (fun x => x - np_sum l / inject_Z (Z.of_nat (List.length l))) l)
        (map (fun x => x - np_sum l' / inject_Z (Z.of_nat (List.length l'))) l')).
    { apply Forall2_map_Qeq; [|exact Hl]. intros y y' Hy. now rewrite Hy, Hmean. }
    destruct Hl as [|x x' tl tl' Hx Htl]; [simpl; reflexivity|].
    unfold Res_rel. cbv beta iota zeta. now apply np_dot_eq.
  - unfold graph_disagreement.
    apply Res_rel_bind with (RA := Forall2 Qeq); [exact Hv|].
    intros l l' Hl. rewrite adj_matrix_scale_attr, nodes_scale_attr.
    destruct (adj_matrix G) as [adj|e]; simpl; [|reflexivity].
    apply Res_rel_bind with (RA := Qeq).
    + apply Res_rel_foldM; [|reflexivity].
      intros t t' node Ht.
      apply Res_rel_bind with (RA := eq); [apply Res_rel_py_index_same|].
      intros row ? <-.
      apply Res_rel_bind with (RA := Qeq); [now apply Res_rel_py_index|].
      intros a a' Ha. simpl. rewrite Ht.
      apply Qplus_comp; [reflexivity|].
      apply np_dot_eq; [apply Forall2_Qeq_refl|].
      apply Forall2_map_Qeq; [|exact Hl].
      intros y y' Hy. now rewrite Hy, Ha.
    + intros t t' Ht. simpl. now rewrite Ht.
Qed.

(* ================================================================== *)
(** * Part III: further properties of the module *)

(* ------------------------------------------------------------------ *)
(** ** The Kronecker generators *)

Lemma foldM_success_each {A S : Type} (body : S -> A -> Res S) xs : forall s s',
  foldM body xs s = Ok s' ->
  forall x, In x xs -> exists t t', body t x = Ok t'.
Proof.
  induction xs as [|y tl IH]; simpl; intros s s' H x Hin; [tauto|].
  inv_bind H as s1 H1. destruct Hin as [<-|Hin]; eauto.
Qed.

Lemma edges_are_between_nodes G a b :
  UG.wf G -> In (a, b) (UG.edges G) -> In a (UG.nodes G) /\ In b (UG.nodes G).
Proof.
  intros W H. destruct (edges_edge_loc G a b (proj1 W) H) as [l Hl].
  eapply wf_nbr_is_node; eauto.
Qed.

(** Neither Kronecker generator ever returns an edge from a node to itself,
    whatever the matrix of [kronecker_pow] and the draws. *)
Theorem kronecker_generators_no_self_loops (LT : Type) kronecker_pow seed k rnd
    (r : Nlogo LT) :
  kronecker_graph LT kronecker_pow seed k rnd = Ok r
  \/ kronecker_graph_bidirected LT kronecker_pow seed k rnd = Ok r ->
  forall i, ~ In (i, i) (nl_edges r).
Proof.
  intros [H|H] i.
  - eapply kronecker_graph_no_self_loops; eauto.
  - eapply kronecker_graph_bidirected_no_self_loops; eauto.
Qed.

Lemma kronecker_generators_no_self_loops_witness :
  exists r : Nlogo unit,
    kronecker_graph unit kronecker_pow_first seed_08_02 1 (fun _ => 1 # 10) = Ok r
    /\ ~ In (1, 1)%Z (nl_edges r).
Proof.
  eexists. split; [reflexivity|].
  apply (@kronecker_generators_no_self_loops unit kronecker_pow_first
           seed_08_02 1%Z (fun _ => 1 # 10) _ (or_introl eq_refl)).
Defined.

(** When [kronecker_pow] gives a matrix without rows, the graph has no
    node, there is no component to take the largest of, and both Kronecker
    generators raise [ValueError] (from [max]) instead of returning an empty
    graph. *)
Theorem kronecker_generators_empty_matrix (LT : Type) kronecker_pow seed k rnd :
  kronecker_pow seed k = Ok [] ->
  kronecker_graph LT kronecker_pow seed k rnd = Raise ValueError
  /\ kronecker_graph_bidirected LT kronecker_pow seed k rnd = Raise ValueError.
Proof.
  intros H. unfold kronecker_graph, kronecker_graph_bidirected.
  rewrite H. split; reflexivity.
Qed.

Lemma kronecker_generators_empty_matrix_witness :
  kronecker_graph unit kronecker_pow_first [] 1 (fun _ => 1 # 10) = Raise ValueError
  /\ kronecker_graph_bidirected unit kronecker_pow_first [] 1 (fun _ => 1 # 10)
     = Raise ValueError.
Proof.
  exact (@kronecker_generators_empty_matrix unit kronecker_pow_first [] 1%Z
           (fun _ => 1 # 10) eq_refl).
Defined.

Lemma max_fold_length (tl : list (list Z)) : forall c,
  let best := fold_left
        (fun best x => if (List.length best <? List.length x)%nat then x else best)
        tl c in
  (List.length c <= List.length best)%nat
  /\ forall x, In x tl -> (List.length x <= List.length best)%nat.
Proof.
  induction tl as [|y tl IH]; simpl; intros c.
  - split; [lia | tauto].
  - destruct (IH (if (List.length c <? List.length y)%nat then y else c)) as [I1 I2].
    destruct (Nat.ltb_spec (List.length c) (List.length y)); split;
      try lia; intros x [<-|Hx]; auto; lia.
Qed.

Lemma max_by_len_longest cs c :
  max_by_len cs = Ok c -> forall x, In x cs -> (List.length x <= List.length c)%nat.
Proof.
  destruct cs as [|c0 tl]; simpl; intros H x Hx; [discriminate|].
  inversion H; subst. destruct (max_fold_length tl c0) as [I1 I2].
  destruct Hx as [<-|Hx]; auto.
Qed.

Lemma reach_in_node G (S : Z -> Prop) s x :
  UG.wf G -> In s (UG.nodes G) -> reach_in G S s x -> In x (UG.nodes G).
Proof.
  intros W Hs H. destruct H as [_|u v _ _ Hadj]; auto.
  apply (in_keys_get Z.eq_dec) in Hadj. destruct Hadj as [l Hl].
  exact (proj2 (@wf_nbr_is_node G u v l W Hl)).
Qed.

(** The pruning keeps as many nodes as the longest component has: no
    component of the graph has more nodes than the graph that is left. *)
Lemma keep_largest_component_is_largest G G' :
  UG.wf G -> keep_largest_component G = Ok G' ->
  forall c, In c (connected_components G) ->
    (List.length c <= List.length (UG.nodes G'))%nat.
Proof.
  intros W H c Hc. pose proof (keep_largest_component_wf W H) as W'.
  unfold keep_largest_component in H. inv_bind H as best Hb.
  inversion H; subst; clear H.
  pose proof (max_by_len_longest _ Hb c Hc) as Hlen.
  apply max_by_len_in in Hb. apply components_from_in in Hb.
  destruct Hb as (v & Hv & ->).
  destruct (@plain_bfs_closed G v W Hv) as (ND & _ & _ & Hreach).
  assert (Hincl : incl (plain_bfs G v)
            (UG.nodes (UG.remove_nodes_from
                         (set_diff (UG.nodes G) (plain_bfs G v)) G))).
  { intros x Hx. apply nodes_remove_nodes_from. rewrite set_diff_in. split; [tauto|].
    eapply reach_in_node; eauto. }
  pose proof (NoDup_incl_length ND Hincl). lia.
Qed.

(** [kronecker_graph] returns the nodes of a largest connected component of
    the sampled graph: no component has more nodes than are returned. *)
Theorem kronecker_graph_returns_largest_component (LT : Type)
    kronecker_pow seed k rnd (r : Nlogo LT) :
  kronecker_graph LT kronecker_pow seed k rnd = Ok r ->
  exists G_array G draws,
    kronecker_pow seed k = Ok G_array
    /\ kronecker_sample G_array rnd = Ok (G, draws)
    /\ (forall x, In x (nl_nodes r) -> In x (UG.nodes G))
    /\ forall c, In c (connected_components G) ->
         (List.length c <= List.length (nl_nodes r))%nat.
Proof.
  unfold kronecker_graph. intros H.
  inv_bind H as G_array HA. inv_bind H as [G c0] HS. inv_bind H as G' HK.
  inversion H; subst; clear H.
  exists G_array, G, c0. repeat split; auto.
  - intros x Hx. rewrite nlogo_safe_nodes in Hx. simpl in Hx.
    unfold keep_largest_component in HK. inv_bind HK as best Hb.
    inversion HK; subst. apply nodes_remove_nodes_from in Hx. tauto.
  - intros c Hc. rewrite nlogo_safe_nodes. simpl.
    eapply keep_largest_component_is_largest; eauto.
    eapply kronecker_sample_wf; eauto.
Qed.

Lemma kronecker_graph_returns_largest_component_witness :
  exists (r : Nlogo unit) G_array G draws,
    kronecker_graph unit kronecker_pow_first seed_08_02 1 (fun _ => 1 # 10) = Ok r
    /\ kronecker_pow_first seed_08_02 1 = Ok G_array
    /\ kronecker_sample G_array (fun _ => 1 # 10) = Ok (G, draws)
    /\ (forall x, In x (nl_nodes r) -> In x (UG.nodes G))
    /\ forall c, In c (connected_components G) ->
         (List.length c <= List.length (nl_nodes r))%nat.
Proof.
  eexists.
  destruct (@kronecker_graph_returns_largest_component unit kronecker_pow_first
              seed_08_02 1%Z (fun _ => 1 # 10) _ eq_refl)
    as (G_array & G & draws & H1 & H2 & H3 & H4).
  exists G_array, G, draws. split; [reflexivity|]. repeat split; auto.
Defined.

(* ------------------------------------------------------------------ *)
(** ** Records returned by the generators *)

Lemma bidirected_edges_within_nodes (LT : Type) G :
  edges_within_nodes (@nlogo_safe_nodes_edges LT _ _ (bidirected_graph G)).
Proof.
  intros a b H. rewrite nlogo_safe_edges in H. rewrite nlogo_safe_nodes.
  simpl in *. apply bidirected_graph_in_edges in H.
  split; apply bidirected_graph_in_nodes; [exists b | exists a]; tauto.
Qed.

Lemma undirected_edges_within_nodes (LT : Type) G :
  UG.wf G -> edges_within_nodes (@nlogo_safe_nodes_edges LT _ _ G).
Proof.
  intros W a b H. rewrite nlogo_safe_edges in H. rewrite nlogo_safe_nodes.
  simpl in *. now apply edges_are_between_nodes.
Qed.

(** Every edge that a generator of this module returns joins two nodes of
    the same record: the bidirected conversion of any graph, and the four
    generators that sample their graph themselves.  (The mapping handed to
    NetLogo never names a node that it does not list.) *)
Theorem generators_edges_within_nodes (LT : Type) :
  (forall G, edges_within_nodes (@nlogo_safe_nodes_edges LT _ _ (bidirected_graph G)))
  /\ (forall (AttrSpec Style Resolution : Type) attr_mag n
        (attrs : AttrSpec) (style : Style) (resolution : Resolution) rnd r,
       MAG_graph (LT := LT) attr_mag n attrs style resolution rnd = Ok r
       \/ MAG_graph_bidirected (LT := LT) attr_mag n attrs style resolution rnd = Ok r ->
       edges_within_nodes r)
  /\ (forall kronecker_pow seed k rnd r,
       kronecker_graph LT kronecker_pow seed k rnd = Ok r
       \/ kronecker_graph_bidirected LT kronecker_pow seed k rnd = Ok r ->
       edges_within_nodes r).
Proof.
  split; [apply bidirected_edges_within_nodes|]. split.
  - intros AttrSpec Style Resolution attr_mag n attrs style resolution rnd r [H|H].
    + unfold MAG_graph in H. inv_bind H as [p_edge L] HA. inv_bind H as [G k] HS.
      inversion H; subst; clear H.
      apply (@undirected_edges_within_nodes LT G). eapply MAG_sample_wf; eauto.
    + unfold MAG_graph_bidirected in H.
      inv_bind H as [p_edge L] HA. inv_bind H as [G k] HS.
      inversion H; subst; clear H.
      apply (@bidirected_edges_within_nodes LT G).
  - intros kronecker_pow seed k rnd r [H|H].
    + unfold kronecker_graph in H.
      inv_bind H as G_array HA. inv_bind H as [G c] HS. inv_bind H as G' HK.
      inversion H; subst; clear H.
      apply undirected_edges_within_nodes.
      eapply keep_largest_component_wf; eauto. eapply kronecker_sample_wf; eauto.
    + unfold kronecker_graph_bidirected in H.
      inv_bind H as G_array HA. inv_bind H as [G c] HS. inv_bind H as G' HK.
      inversion H; subst; clear H.
      apply bidirected_edges_within_nodes.
Qed.

Lemma generators_edges_within_nodes_witness :
  exists r : Nlogo unit,
    MAG_graph attr_mag_homophilic 2 tt tt tt (fun _ => 1 # 2) = Ok r
    /\ edges_within_nodes r.
Proof.
  eexists. split; [reflexivity|].
  exact (proj1 (proj2 (generators_edges_within_nodes unit))
           unit unit unit attr_mag_homophilic 2%Z tt tt tt (fun _ => 1 # 2) _
           (or_introl eq_refl)).
Defined.

(* ------------------------------------------------------------------ *)
(** ** The MAG generators: when they return, and what *)

Lemma foldM_raises_only {A S : Type} (e0 : exn) (body : S -> A -> Res S) xs :
  (forall s x e, body s x = Raise e -> e = e0) ->
  forall s e, foldM body xs s = Raise e -> e = e0.
Proof.
  intros Hb. induction xs as [|x tl IH]; simpl; intros s e H; [discriminate|].
  destruct (body s x) as [s1|e1] eqn:E; simpl in H; eauto.
  inversion H; subst. eauto.
Qed.

Lemma MAG_sample_raises_IndexError p_edge rnd e :
  MAG_sample p_edge rnd = Raise e -> e = IndexError.
Proof.
  unfold MAG_sample. destruct p_edge as [|row0 rest] eqn:Ep.
  - simpl. congruence.
  - rewrite <- Ep. cbn [bind]. apply foldM_raises_only.
    intros s i e1. apply foldM_raises_only.
    intros s' j e2. unfold mat_get.
    destruct (nth_error p_edge i) as [row|]; simpl; [|congruence].
    destruct (nth_error row j); simpl; [|congruence].
    destruct (Qle_bool _ _); discriminate.
Qed.

Lemma MAG_sample_readable p_edge rnd G k :
  MAG_sample p_edge rnd = Ok (G, k) -> MAG_readable p_edge.
Proof.
  intros H. unfold MAG_sample in H. inv_bind H as row0 H0.
  split; [destruct p_edge; [discriminate|congruence]|].
  intros row Hrow. apply In_nth_error in Hrow. destruct Hrow as [i Hi].
  destruct (Nat.eq_dec (List.length p_edge) 0) as [E|N]; [lia|].
  assert (Hil : (i < List.length p_edge)%nat).
  { apply nth_error_Some. congruence. }
  destruct (foldM_success_each _ _ _ H i) as (t & t' & Hrun).
  { apply in_seq. lia. }
  destruct (foldM_success_each _ _ _ Hrun (List.length p_edge - 1)%nat)
    as (u & u' & Hcell).
  { apply in_seq. lia. }
  cbv beta in Hcell. inv_bind Hcell as p Hp. unfold mat_get in Hp.
  rewrite Hi in Hp.
  destruct (nth_error row (List.length p_edge - 1)) eqn:Ec; [|discriminate].
  assert (List.length p_edge - 1 < List.length row)%nat; [|lia].
  apply nth_error_Some. congruence.
Qed.

(** The MAG generators return exactly when the table of [attr_mag] has a
    row and every row has at least [len(p_edge)] entries; otherwise they
    raise [IndexError].  (Both loops run over [range(len(p_edge))], while
    the nodes are counted by [len(p_edge[0])].) *)
Theorem MAG_generators_return_iff_readable (LT AttrSpec Style Resolution : Type)
    (attr_mag : Z -> AttrSpec -> Style -> Resolution -> Res (matrix * LT))
    n attrs style resolution rnd p_edge L :
  attr_mag n attrs style resolution = Ok (p_edge, L) ->
  (MAG_readable p_edge ->
     (exists r, MAG_graph attr_mag n attrs style resolution rnd = Ok r)
     /\ (exists r, MAG_graph_bidirected attr_mag n attrs style resolution rnd = Ok r))
  /\ (~ MAG_readable p_edge ->
     MAG_graph attr_mag n attrs style resolution rnd = Raise IndexError
     /\ MAG_graph_bidirected attr_mag n attrs style resolution rnd = Raise IndexError).
Proof.
  intros HA. unfold MAG_graph, MAG_graph_bidirected. rewrite HA. cbn [bind].
  split.
  - intros [Hne Hrows].
    destruct (@MAG_sample_total p_edge rnd Hne Hrows) as (G & k & E).
    rewrite E. cbn [bind]. split; eauto.
  - intros Hno. destruct (MAG_sample p_edge rnd) as [[G k]|e] eqn:E.
    + exfalso. apply Hno. eapply MAG_sample_readable; eauto.
    + apply MAG_sample_raises_IndexError in E. subst. split; reflexivity.
Qed.

Lemma MAG_generators_return_iff_readable_witness :
  (exists r, MAG_graph attr_mag_homophilic 2 tt tt tt (fun _ => 1 # 2) = Ok r)
  /\ MAG_graph (fun _ _ _ _ => Ok ([[1 # 2]; [1 # 2]], tt)) 2 tt tt tt
       (fun _ => 1 # 2) = Raise IndexError.
Proof.
  split.
  - refine (proj1 (proj1 (@MAG_generators_return_iff_readable unit unit unit unit
              attr_mag_homophilic 2%Z tt tt tt (fun _ => 1 # 2) _ tt eq_refl) _)).
    split; [discriminate|]. intros row [<-|[<-|[]]]; simpl; lia.
  - refine (proj1 (proj2 (@MAG_generators_return_iff_readable unit unit unit unit
              (fun _ _ _ _ => Ok ([[1 # 2]; [1 # 2]], tt))
              2%Z tt tt tt (fun _ => 1 # 2) _ tt eq_refl) _)).
    intros [_ C]. specialize (C [1 # 2] (or_introl eq_refl)). simpl in C. lia.
Defined.

Lemma add_node_present n G : In n (UG.nodes G) -> UG.add_node n G = G.
Proof.
  intros H. unfold UG.add_node, UG.has_node, zhas.
  apply (mem_true Z.eq_dec) in H. unfold UG.nodes, zkeys in *. now rewrite H.
Qed.

Lemma nodes_add_node_absent n G :
  ~ In n (UG.nodes G) -> UG.nodes (UG.add_node n G) = UG.nodes G ++ [n].
Proof.
  intros H. unfold UG.add_node, UG.has_node, zhas.
  apply (mem_false Z.eq_dec) in H. rewrite H.
  unfold UG.nodes, zkeys, Dict.keys. simpl. now rewrite map_app.
Qed.

Lemma nodes_add_nodes_from_fresh ns : forall G,
  NoDup ns -> (forall x, In x ns -> ~ In x (UG.nodes G)) ->
  UG.nodes (UG.add_nodes_from ns G) = UG.nodes G ++ ns.
Proof.
  unfold UG.add_nodes_from.
  induction ns as [|n tl IH]; simpl; intros G ND Hf.
  - now rewrite app_nil_r.
  - inversion ND as [|? ? Hn ND']; subst.
    rewrite IH; auto.
    + rewrite nodes_add_node_absent by auto. now rewrite <- app_assoc.
    + intros x Hx C. apply nodes_add_node in C. destruct C as [->|C]; auto.
      apply (Hf x); auto.
Qed.

Lemma nodes_add_edge_present u v G :
  In u (UG.nodes G) -> In v (UG.nodes G) ->
  UG.nodes (UG.add_edge u v G) = UG.nodes G.
Proof.
  intros Hu Hv. rewrite nodes_add_edge_eq.
  rewrite (add_node_present u G Hu). now rewrite (add_node_present v G Hv).
Qed.

Lemma NoDup_range n s : NoDup (map Z.of_nat (seq s n)).
Proof.
  revert s. induction n as [|n IH]; intros s; simpl; constructor; auto.
  intros C. apply in_map_iff in C. destruct C as (x & E & Hx).
  apply Nat2Z.inj in E. apply in_seq in Hx. lia.
Qed.

(** The nodes of the MAG sample are those it starts with, in order. *)
Lemma MAG_sample_nodes p_edge rnd G k :
  MAG_sample p_edge rnd = Ok (G, k) ->
  UG.nodes G = map Z.of_nat (seq 0 (List.length (hd [] p_edge))).
Proof.
  intros H. destruct (MAG_sample_readable _ _ H) as [Hne Hrows].
  unfold MAG_sample in H.
  destruct p_edge as [|row0 rest] eqn:Ep; [congruence|]. rewrite <- Ep in *.
  cbn [bind] in H.
  assert (Hhd : hd [] p_edge = row0) by (rewrite Ep; reflexivity).
  rewrite Hhd.
  assert (Hcols : (List.length p_edge <= List.length row0)%nat).
  { apply Hrows. rewrite Ep. now left. }
  set (R := map Z.of_nat (seq 0 (List.length row0))) in *.
  change (UG.nodes (fst (G, k)) = R).
  eapply (foldM_invariant_in (fun st : Sampling => UG.nodes (fst st) = R));
    [ | | exact H].
  - intros s i s' Hi Hs Hrun. apply in_seq in Hi.
    eapply (foldM_invariant_in (fun st : Sampling => UG.nodes (fst st) = R));
      [ | exact Hs | exact Hrun].
    intros t j t' Hj Ht Hb. apply in_seq in Hj. cbv beta in Hb.
    inv_bind Hb as p Hp.
    destruct (Qle_bool _ _); inversion Hb; subst; simpl; auto.
    rewrite nodes_add_edge_present; auto; rewrite Ht; unfold R;
      apply in_map, in_seq; lia.
  - simpl. unfold range. fold R.
    rewrite nodes_add_nodes_from_fresh; auto. apply NoDup_range.
Qed.

(** [MAG_graph] returns every node of the table, [0 .. len(p_edge[0]) - 1]
    in this order, also those that got no link, and the attribute table of
    [attr_mag] under ['L']. *)
Theorem MAG_graph_returns_all_nodes (LT AttrSpec Style Resolution : Type)
    (attr_mag : Z -> AttrSpec -> Style -> Resolution -> Res (matrix * LT))
    n attrs style resolution rnd p_edge L r :
  attr_mag n attrs style resolution = Ok (p_edge, L) ->
  MAG_graph attr_mag n attrs style resolution rnd = Ok r ->
  nl_nodes r = map Z.of_nat (seq 0 (List.length (hd [] p_edge)))
  /\ nl_L r = Some L.
Proof.
  intros HA H. unfold MAG_graph in H. rewrite HA in H. cbn [bind] in H.
  inv_bind H as [G k] HS. inversion H; subst; clear H. simpl.
  split; auto. eapply MAG_sample_nodes; eauto.
Qed.

Lemma MAG_graph_returns_all_nodes_witness :
  exists r : Nlogo unit,
    MAG_graph (fun _ _ _ _ => Ok ([[0; 0]; [0; 0]], tt)) 2 tt tt tt (fun _ => 1 # 2)
    = Ok r
    /\ nl_nodes r = [0; 1]%Z /\ nl_L r = Some tt.
Proof.
  eexists. split; [reflexivity|].
  exact (@MAG_graph_returns_all_nodes unit unit unit unit
           (fun _ _ _ _ => Ok ([[0; 0]; [0; 0]], tt)) 2%Z tt tt tt
           (fun _ => 1 # 2) _ tt _ eq_refl eq_refl).
Defined.

(** On nodes that are numbered in increasing order, [G.edges] reports a
    link from its lower to its higher end. *)
Lemma edges_from_ascending : forall n s items seen,
  zkeys items = map Z.of_nat (seq s n) ->
  (forall x, (x < s)%nat -> In (Z.of_nat x) seen) ->
  forall a b y, In (a, b) (UG.edges_from seen items) -> b = Z.of_nat y ->
    (a <= b)%Z.
Proof.
  induction n as [|n IH]; intros s items seen Hk Hseen a b y H Hb.
  - destruct items; [destruct H | discriminate].
  - destruct items as [|[k e] rest]; [discriminate|].
    simpl in Hk. injection Hk as Hk0 Hk. simpl in H.
    apply in_app_iff in H. destruct H as [H|H].
    + apply in_map_iff in H. destruct H as (b' & E & Hf). injection E as <- <-.
      apply filter_In in Hf. destruct Hf as [_ Hf].
      apply negb_true_iff, zmem_false in Hf. subst.
      destruct (Nat.lt_ge_cases y s) as [Hlt|Hge]; [|lia].
      exfalso. apply Hf. auto.
    + eapply (IH (S s) rest (k :: seen)); eauto.
      intros x Hx. destruct (Nat.eq_dec x s) as [->|N]; [now left|].
      right. apply Hseen. lia.
Qed.

(** [MAG_graph] reports every link once, from its lower to its higher node:
    for a returned edge [[a, b]], [a <= b], and [[b, a]] is returned as well
    only when [a = b]. *)
Theorem MAG_graph_edges_ascending (LT AttrSpec Style Resolution : Type)
    (attr_mag : Z -> AttrSpec -> Style -> Resolution -> Res (matrix * LT))
    n attrs style resolution rnd r a b :
  MAG_graph attr_mag n attrs style resolution rnd = Ok r ->
  In (a, b) (nl_edges r) ->
  (a <= b)%Z /\ (In (b, a) (nl_edges r) -> a = b).
Proof.
  intros H Hin. unfold MAG_graph in H.
  inv_bind H as [p_edge L] HA. inv_bind H as [G k] HS.
  inversion H; subst; clear H.
  change (nl_edges (update_L (nlogo_safe_nodes_edges G) L))
    with (nl_edges (@nlogo_safe_nodes_edges LT _ _ G)) in *.
  rewrite nlogo_safe_edges in *. simpl in *.
  pose proof (MAG_sample_wf _ _ HS) as W.
  pose proof (MAG_sample_nodes _ _ HS) as Hn.
  split.
  - destruct (edges_are_between_nodes a b W Hin) as [_ Hb].
    rewrite Hn in Hb. apply in_map_iff in Hb. destruct Hb as (y & Hy & _).
    eapply (@edges_from_ascending _ 0%nat (g_nodes G) [] Hn); eauto.
    intros x Hx. lia.
  - intros Hba. eapply edges_from_one_order; eauto.
Qed.

Lemma MAG_graph_edges_ascending_witness :
  exists r : Nlogo unit,
    MAG_graph (fun _ _ _ _ => Ok (p_half, tt)) 2 tt tt tt draws_third_low = Ok r
    /\ In (0, 1)%Z (nl_edges r)
    /\ (0 <= 1)%Z /\ (In (1, 0)%Z (nl_edges r) -> 0%Z = 1%Z).
Proof.
  eexists. split; [reflexivity|].
  assert (Hin : In (0, 1)%Z [(0, 1)%Z]) by (now left).
  split; [exact Hin|].
  exact (@MAG_graph_edges_ascending unit unit unit unit
           (fun _ _ _ _ => Ok (p_half, tt)) 2%Z tt tt tt draws_third_low
           _ 0%Z 1%Z eq_refl Hin).
Defined.

(* ------------------------------------------------------------------ *)
(** ** Polarization *)

Lemma mapM_Ok_Forall2 {A B : Type} (f : A -> Res B) xs : forall l,
  mapM f xs = Ok l -> Forall2 (fun x y => f x = Ok y) xs l.
Proof.
  induction xs as [|x tl IH]; simpl; intros l H.
  - inversion H. constructor.
  - inv_bind H as y Hy. inv_bind H as ys Hys. inversion H; subst.
    constructor; auto.
Qed.

Lemma mapM_Ok_iff {A B : Type} (f : A -> Res B) xs :
  (exists l, mapM f xs = Ok l) <-> (forall x, In x xs -> exists y, f x = Ok y).
Proof.
  induction xs as [|x tl IH]; simpl.
  - split; [tauto | eauto].
  - split.
    + intros [l H] z Hz. inv_bind H as y Hy. inv_bind H as ys Hys.
      destruct Hz as [<-|Hz]; eauto. apply (proj1 IH); eauto.
    + intros H. destruct (H x (or_introl eq_refl)) as [y Hy].
      destruct (proj2 IH) as [ys Hys]; auto.
      rewrite Hy, Hys. simpl. eauto.
Qed.

Lemma fold_Qplus_nonneg xs : Forall (fun x => 0 <= x) xs ->
  forall a, 0 <= a -> 0 <= fold_left Qplus xs a.
Proof.
  induction 1 as [|x tl Hx _ IH]; simpl; intros a Ha; auto.
  apply IH. lra.
Qed.

Lemma np_sum_nonneg xs : Forall (fun x => 0 <= x) xs -> 0 <= np_sum xs.
Proof. intros H. unfold np_sum. exact_arith. apply fold_Qplus_nonneg; auto. lra. Qed.

Lemma np_dot_nonneg xs ys :
  Forall (fun x => 0 <= x) xs -> Forall (fun x => 0 <= x) ys -> 0 <= np_dot xs ys.
Proof.
  intros Hx Hy. unfold np_dot. apply np_sum_nonneg. revert ys Hy.
  induction Hx as [|x tl Hx0 _ IH]; simpl; intros ys Hy; [constructor|].
  destruct Hy as [|y yl Hy0 Hyl]; simpl; constructor; auto.
  simpl. nra.
Qed.

Lemma np_dot_self_nonneg xs : 0 <= np_dot xs xs.
Proof.
  unfold np_dot. apply np_sum_nonneg.
  induction xs as [|x tl IH]; simpl; constructor; auto.
  simpl. nra.
Qed.

(** [graph_polarization] never returns a negative number. *)
Theorem graph_polarization_nonnegative G node_attr max_attr_value q :
  graph_polarization G node_attr max_attr_value = Ok q -> 0 <= q.
Proof.
  unfold graph_polarization. intros H. inv_bind H as attrs Ha.
  destruct attrs as [|x tl]; apply Ok_inj in H; subst q; [exact_arith; lra|].
  apply np_dot_self_nonneg.
Qed.

Lemma py_div_Ok_iff x m : (exists y, py_div x m = Ok y) <-> ~ m == 0.
Proof.
  unfold py_div. exact_arith. destruct (Qeq_bool m 0) eqn:E.
  - apply Qeq_bool_iff in E. split; [intros [y H]; discriminate | tauto].
  - split; [|eauto]. intros _ C. apply Qeq_bool_iff in C. congruence.
Qed.

(** [graph_polarization] returns a number exactly when every node has the
    attribute and, unless the graph has no node, [max_attr_value] is not
    zero.  In particular it returns (0) for the graph without nodes. *)
Theorem graph_polarization_returns_iff G node_attr max_attr_value :
  (exists q, graph_polarization G node_attr max_attr_value = Ok q)
  <-> (forall node, In node (UG.nodes G) ->
         exists x, node_value G node_attr node = Ok x)
      /\ (UG.nodes G = [] \/ ~ max_attr_value == 0).
Proof.
  unfold graph_polarization, scaled_values. split.
  - intros [q H]. inv_bind H as attrs Ha.
    assert (Hall : forall node, In node (UG.nodes G) ->
              exists y, (x <- node_value G node_attr node ;;
                         py_div x max_attr_value) = Ok y).
    { apply mapM_Ok_iff. eauto. }
    split.
    + intros node Hn. destruct (Hall node Hn) as [y Hy]. inv_bind Hy as x Hx. eauto.
    + destruct (UG.nodes G) as [|n0 tl]; [now left|]. right.
      destruct (Hall n0 (or_introl eq_refl)) as [y Hy]. inv_bind Hy as x Hx.
      apply (py_div_Ok_iff x). eauto.
  - intros [Hattr Hm].
    assert (Hl : exists l, mapM (fun node => x <- node_value G node_attr node ;;
                                   py_div x max_attr_value) (UG.nodes G) = Ok l).
    { apply mapM_Ok_iff. intros node Hn. destruct (Hattr node Hn) as [x Hx].
      rewrite Hx. simpl. apply py_div_Ok_iff.
      destruct Hm as [E|Hm]; auto. rewrite E in Hn. destruct Hn. }
    destruct Hl as [l Hl]. rewrite Hl. simpl. destruct l; eauto.
Qed.

(* ------------------------------------------------------------------ *)
(** ** The metrics index rows and values by node identifier *)

Lemma py_index_Ok_inv {A : Type} (xs : list A) i x :
  py_index xs i = Ok x ->
  (- Z.of_nat (List.length xs) <= i < Z.of_nat (List.length xs))%Z /\ In x xs.
Proof.
  unfold py_index. intros H.
  destruct (Z.ltb_spec i 0) as [Hneg|Hpos].
  - destruct (Z.ltb_spec (Z.of_nat (List.length xs) + i) 0); [discriminate|].
    destruct (nth_error xs (Z.to_nat (Z.of_nat (List.length xs) + i))) as [y|] eqn:E;
      [|discriminate].
    inversion H; subst. split; [lia | eapply nth_error_In; eauto].
  - destruct (Z.ltb_spec i 0); [lia|].
    destruct (nth_error xs (Z.to_nat i)) as [y|] eqn:E; [|discriminate].
    inversion H; subst. split; [|eapply nth_error_In; eauto].
    assert (Z.to_nat i < List.length xs)%nat by (apply nth_error_Some; congruence).
    lia.
Qed.

Lemma adj_matrix_Ok G adj :
  adj_matrix G = Ok adj ->
  UG.nodes G <> []
  /\ adj = map (fun u => map (adj_entry G u) (UG.nodes G)) (UG.nodes G).
Proof.
  unfold adj_matrix. destruct (UG.nodes G) as [|n tl] eqn:E; [discriminate|].
  intros H. inversion H; subst. split; [discriminate | reflexivity].
Qed.

(** [graph_homophily] and [graph_disagreement] use the node identifier as
    the index of the node's row and value: when one of them returns a
    number, the graph has a node and every node identifier lies in
    [-n, n), [n] the number of nodes.  (A graph whose identifiers are not
    [0 .. n - 1], as after the Kronecker pruning, can make them raise
    [IndexError] or read another node's row.) *)
Theorem metrics_index_by_node_id G node_attr max_attr_value q :
  graph_homophily G node_attr = Ok q
  \/ graph_disagreement G node_attr max_attr_value = Ok q ->
  UG.nodes G <> []
  /\ forall node, In node (UG.nodes G) ->
       (- Z.of_nat (List.length (UG.nodes G)) <= node
        < Z.of_nat (List.length (UG.nodes G)))%Z.
Proof.
  assert (Hrow : forall adj node (row : list Q),
            adj_matrix G = Ok adj -> py_index adj node = Ok row ->
            (- Z.of_nat (List.length (UG.nodes G)) <= node
             < Z.of_nat (List.length (UG.nodes G)))%Z).
  { intros adj node row Hadj Hr. apply adj_matrix_Ok in Hadj.
    destruct Hadj as [_ ->]. apply py_index_Ok_inv in Hr.
    rewrite length_map in Hr. tauto. }
  intros [H|H].
  - unfold graph_homophily in H. inv_bind H as attrs Ha. inv_bind H as adj Hadj.
    inv_bind H as total Ht. split; [apply (adj_matrix_Ok _ Hadj)|].
    intros node Hn. destruct (foldM_success_each _ _ _ Ht node Hn) as (t & t' & Hb).
    cbv beta in Hb. inv_bind Hb as qn Hq. unfold neighbour_average in Hq.
    inv_bind Hq as row Hr. eauto.
  - unfold graph_disagreement in H. inv_bind H as attrs Ha. inv_bind H as adj Hadj.
    inv_bind H as total Ht. split; [apply (adj_matrix_Ok _ Hadj)|].
    intros node Hn. destruct (foldM_success_each _ _ _ Ht node Hn) as (t & t' & Hb).
    cbv beta in Hb. inv_bind Hb as row Hr. eauto.
Qed.

(* ------------------------------------------------------------------ *)
(** ** Sign of the metrics *)

Lemma adj_entry_nonneg G u v : weights_nonnegative G -> 0 <= adj_entry G u v.
Proof.
  intros W. unfold adj_entry, UG.edge_data.
  destruct (UG.edge_loc G u v) as [l|]; [|lra].
  destruct (nth_error (g_data G) l) as [d|] eqn:E; [|lra].
  destruct (ed_weight d) as [w|] eqn:Ew; [|lra].
  eapply W; eauto. eapply nth_error_In; eauto.
Qed.

Lemma adj_row_nonneg G adj node row :
  weights_nonnegative G -> adj_matrix G = Ok adj -> py_index adj node = Ok row ->
  Forall (fun x => 0 <= x) row.
Proof.
  intros W Hadj Hr. apply adj_matrix_Ok in Hadj. destruct Hadj as [_ ->].
  apply py_index_Ok_inv in Hr. destruct Hr as [_ Hr].
  apply in_map_iff in Hr. destruct Hr as (u & <- & _).
  apply Forall_forall. intros x Hx. apply in_map_iff in Hx.
  destruct Hx as (v & <- & _). now apply adj_entry_nonneg.
Qed.

Lemma Forall_map_nonneg (f : Q -> Q) xs :
  (forall x, 0 <= f x) -> Forall (fun x => 0 <= x) (map f xs).
Proof. intros H. induction xs; simpl; constructor; auto. Qed.

Lemma foldM_nonneg {A : Type} (body : Q -> A -> Res Q) xs :
  (forall t x t', 0 <= t -> body t x = Ok t' -> 0 <= t') ->
  forall t t', 0 <= t -> foldM body xs t = Ok t' -> 0 <= t'.
Proof. intros H. apply (foldM_invariant (fun t => 0 <= t)). exact H. Qed.

Lemma np_div_nonneg x y q : 0 <= x -> 0 <= y -> np_div x y = Ok q -> 0 <= q.
Proof.
  intros Hx Hy H. exact_arith. destruct (Qeq_bool y 0) eqn:E; [discriminate|].
  apply Ok_inj in H. subst q.
  assert (~ y == 0) by (intros C; apply Qeq_bool_iff in C; congruence).
  apply Qle_shift_div_l; lra.
Qed.

Lemma py_div_nonneg x y q : 0 <= x -> 0 <= y -> py_div x y = Ok q -> 0 <= q.
Proof.
  unfold py_div. intros Hx Hy H. exact_arith.
  destruct (Qeq_bool y 0) eqn:E; [discriminate|].
  apply Ok_inj in H. subst q.
  assert (~ y == 0) by (intros C; apply Qeq_bool_iff in C; congruence).
  apply Qle_shift_div_l; lra.
Qed.

Lemma square_nonneg (x : Q) : 0 <= x ^ 2.
Proof. simpl. nra. Qed.

(** When no link has a negative weight (in particular when no weight was
    set), [graph_homophily] and [graph_disagreement] never return a negative
    number. *)
Theorem homophily_disagreement_nonnegative G node_attr max_attr_value q :
  weights_nonnegative G ->
  graph_homophily G node_attr = Ok q
  \/ graph_disagreement G node_attr max_attr_value = Ok q ->
  0 <= q.
Proof.
  intros W [H|H].
  - unfold graph_homophily in H. inv_bind H as attrs Ha. inv_bind H as adj Hadj.
    inv_bind H as total Ht. exact_arith.
    assert (Htot : 0 <= total).
    { eapply foldM_nonneg; [ | | exact Ht]; [|lra].
      intros t node t' Ht0 Hb. cbv beta in Hb. inv_bind Hb as qn Hq.
      apply Ok_inj in Hb. subst t'. unfold neighbour_average in Hq.
      inv_bind Hq as row Hr. inv_bind Hq as a Hav.
      pose proof (adj_row_nonneg _ W Hadj Hr) as Hrow.
      assert (0 <= qn); [|lra].
      eapply np_div_nonneg; [ | | exact Hq].
      - apply np_dot_nonneg; auto. apply Forall_map_nonneg. intros x. apply Qabs_nonneg.
      - now apply np_sum_nonneg. }
    eapply py_div_nonneg; [exact Htot | | exact H].
    change 0 with (inject_Z 0). rewrite <- Zle_Qle. lia.
  - unfold graph_disagreement in H. inv_bind H as attrs Ha. inv_bind H as adj Hadj.
    inv_bind H as total Ht. apply Ok_inj in H. subst q. exact_arith.
    assert (Htot : 0 <= total).
    { eapply foldM_nonneg; [ | | exact Ht]; [|lra].
      intros t node t' Ht0 Hb. cbv beta in Hb.
      inv_bind Hb as row Hr. inv_bind Hb as a Hav. apply Ok_inj in Hb. subst t'.
      pose proof (adj_row_nonneg _ W Hadj Hr) as Hrow.
      assert (0 <= np_dot row (map (fun x => (x - a) ^ 2) attrs)); [|lra].
      apply np_dot_nonneg; auto. apply Forall_map_nonneg. intros x.
      apply square_nonneg. }
    apply Qle_shift_div_l; lra.
Qed.

(* ------------------------------------------------------------------ *)
(** ** The metrics at consensus *)

Lemma fold_Qplus_zero xs : Forall (fun x => x == 0) xs ->
  forall a, fold_left Qplus xs a == a.
Proof.
  induction 1 as [|x tl Hx _ IH]; simpl; intros a; [reflexivity|].
  rewrite IH, Hx. lra.
Qed.

Lemma np_sum_zero xs : Forall (fun x => x == 0) xs -> np_sum xs == 0.
Proof. intros H. unfold np_sum. exact_arith. now apply fold_Qplus_zero. Qed.

(** In binary64, consensus does not make the polarization zero.  On the
    path 0 - 1 - 2 with the value 0.1 on every node and [max_attr_value]
    1, the sum 0.1 + 0.1 + 0.1 is 0.30000000000000004 and the mean is
    0.10000000000000002, so that every centred value is [- 2^-56] and
    [graph_polarization] returns [3 * 2^-112], about 5.78e-34.
    [graph_disagreement] and [graph_homophily], which subtract the values
    from one another, return 0. *)
Theorem consensus_polarization_not_zero :
  consensus tenths_graph "A" (1 # 10)
  /\ scaled_values tenths_graph "A" 1%float
     = Ok [0x1.999999999999ap-4; 0x1.999999999999ap-4; 0x1.999999999999ap-4]%float
  /\ (0x1.999999999999ap-4 + 0x1.999999999999ap-4 + 0x1.999999999999ap-4)%float
     = 0x1.3333333333334p-2%float
  /\ (0x1.3333333333334p-2 / 3)%float = 0x1.999999999999bp-4%float
  /\ (0x1.999999999999ap-4 - 0x1.999999999999bp-4)%float = (- 0x1p-56)%float
  /\ graph_polarization tenths_graph "A" 1%float = Ok 0x1.8p-111%float
  /\ graph_disagreement tenths_graph "A" 1%float = Ok 0%float
  /\ graph_homophily tenths_graph "A" = Ok 0%float.
Proof.
  split.
  - intros node [<-|[<-|[<-|[]]]]; eexists; split; reflexivity.
  - repeat split; vm_compute; reflexivity.
Qed.

(* ------------------------------------------------------------------ *)
(** ** Homophily and isolated nodes *)

Lemma foldM_raises_only_in {A S : Type} (e0 : exn) (body : S -> A -> Res S) xs :
  (forall s x e, In x xs -> body s x = Raise e -> e = e0) ->
  forall s e, foldM body xs s = Raise e -> e = e0.
Proof.
  induction xs as [|x tl IH]; simpl; intros Hb s e H; [discriminate|].
  destruct (body s x) as [s1|e1] eqn:E; simpl in H.
  - eapply IH; eauto.
  - inversion H; subst. eapply Hb; eauto.
Qed.

Lemma py_index_range {A : Type} (xs : list A) n k :
  List.length xs = n -> (k < n)%nat ->
  py_index xs (Z.of_nat k) = match nth_error xs k with
                             | Some x => Ok x
                             | None => Raise IndexError
                             end.
Proof.
  intros Hl Hk. unfold py_index.
  destruct (Z.ltb_spec (Z.of_nat k) 0); [lia|].
  destruct (Z.ltb_spec (Z.of_nat k) 0); [lia|].
  now rewrite Nat2Z.id.
Qed.

Lemma nth_error_range n k :
  (k < n)%nat -> nth_error (map Z.of_nat (seq 0 n)) k = Some (Z.of_nat k).
Proof.
  intros H. rewrite nth_error_map, nth_error_seq.
  destruct (Nat.ltb_spec k n); [reflexivity | lia].
Qed.

Lemma adj_entry_isolated G v w : UG.adj G v = [] -> adj_entry G v w = 0.
Proof.
  intros H. unfold adj_entry, UG.edge_data, UG.edge_loc. now rewrite H.
Qed.

(** Homophily is undefined on a graph with an isolated node: when the nodes
    are numbered [0 .. n - 1] and all carry the attribute, a node of degree
    zero has a row of zeros, its average is a division of zero by zero, and
    the result is not a number ([nan], here [FloatingPointError]). *)
Theorem graph_homophily_isolated_node G node_attr n v :
  UG.nodes G = map Z.of_nat (seq 0 n) ->
  (forall node, In node (UG.nodes G) ->
     exists x, node_value G node_attr node = Ok x) ->
  In v (UG.nodes G) -> UG.degree G v = O ->
  graph_homophily G node_attr = Raise FloatingPointError.
Proof.
  intros Hn Hattr Hv Hd. apply degree_zero_adj in Hd.
  unfold graph_homophily.
  destruct (proj2 (mapM_Ok_iff (node_value G node_attr) (UG.nodes G)) Hattr)
    as [attrs Ha].
  rewrite Ha. cbn [bind].
  assert (Hla : List.length attrs = n).
  { apply mapM_Ok_Forall2, Forall2_length in Ha.
    rewrite <- Ha, Hn, length_map, length_seq. reflexivity. }
  destruct (adj_matrix G) as [adj|e] eqn:Hadj.
  2:{ unfold adj_matrix in Hadj. rewrite Hn in Hv.
      destruct (UG.nodes G); [rewrite Hn in *|discriminate].
      destruct n; [destruct Hv | discriminate]. }
  cbn [bind]. destruct (adj_matrix_Ok _ Hadj) as [_ Eadj].
  assert (Hlen : List.length adj = n).
  { rewrite Eadj, length_map, Hn, length_map, length_seq. reflexivity. }
  assert (Hrow : forall k, (k < n)%nat ->
            py_index adj (Z.of_nat k)
            = Ok (map (adj_entry G (Z.of_nat k)) (UG.nodes G))).
  { intros k Hk. rewrite (py_index_range adj Hlen Hk).
    rewrite Eadj, nth_error_map. rewrite Hn at 1.
    now rewrite (nth_error_range Hk). }
  match goal with
  | |- bind (foldM ?body ?xs ?s) _ = _ => destruct (foldM body xs s) as [total|e] eqn:Ef
  end.
  - exfalso. destruct (foldM_success_each _ _ _ Ef v Hv) as (t & t' & Hb).
    cbv beta in Hb. inv_bind Hb as q Hq. unfold neighbour_average in Hq.
    rewrite Hn in Hv. apply in_map_iff in Hv. destruct Hv as (k & <- & Hk).
    apply in_seq in Hk. rewrite Hrow in Hq by lia. cbn [bind] in Hq.
    inv_bind Hq as a Hav. exact_arith.
    assert (Hz : np_sum (map (adj_entry G (Z.of_nat k)) (UG.nodes G)) == 0).
    { apply np_sum_zero. apply Forall_forall. intros x Hx.
      apply in_map_iff in Hx. destruct Hx as (w & <- & _).
      now rewrite adj_entry_isolated. }
    apply Qeq_bool_iff in Hz. rewrite Hz in Hq. discriminate.
  - cbn [bind]. f_equal. eapply foldM_raises_only_in; [|exact Ef].
    intros t node e' Hnode Hb. cbv beta in Hb.
    rewrite Hn in Hnode. apply in_map_iff in Hnode. destruct Hnode as (k & <- & Hk).
    apply in_seq in Hk. unfold neighbour_average in Hb.
    rewrite Hrow in Hb by lia. cbn [bind] in Hb.
    rewrite (py_index_range attrs Hla) in Hb by lia.
    destruct (nth_error attrs k) as [a|] eqn:Ea;
      [|apply nth_error_None in Ea; lia].
    cbn [bind] in Hb. exact_arith.
    destruct (Qeq_bool _ 0); simpl in Hb; congruence.
Qed.

(* ------------------------------------------------------------------ *)
(** ** The threshold of [influencer_paths_within_distance] *)

Section InfluenceThreshold.

Variable Message : Type.
Variable dist_to_agent_brain : NodeAttrs -> Message -> Res Q.
Variable dijkstra_path : Graph -> Z -> Z -> Res (list Z).

Variables (citizens : list Citizen) (friend_links subscribers : list string).
Variables (target : string) (message : Message).

(** The call, cut at the dictionary [paths]: everything before it does not
    depend on the threshold. *)
Lemma influencer_paths_within_distance_steps threshold out :
  influencer_paths_within_distance dist_to_agent_brain dijkstra_path
    citizens friend_links subscribers target message threshold = Ok out
  <-> exists G target_id paths,
        weighted_graph dist_to_agent_brain citizens friend_links message = Ok G
        /\ parse_id target 1 = Ok target_id
        /\ foldM (fun paths subscriber =>
                    key <- parse_id subscriber 2 ;;
                    source <- parse_id subscriber 2 ;;
                    path <- dijkstra_path G source target_id ;;
                    Ok (zset key path paths)) subscribers [] = Ok paths
        /\ foldM (fun threshold_paths (entry : Z * list Z) =>
                    dist_path <- mapM (fun v => a <- UG.node_attrs G v ;;
                                         dist_to_agent_brain a message)
                                      (snd entry) ;;
                    let dist_path := removelast dist_path in
                    if within_threshold dist_path threshold
                    then Ok (zset (fst entry) dist_path threshold_paths)
                    else Ok threshold_paths) paths [] = Ok out.
Proof.
  unfold influencer_paths_within_distance, weighted_graph. split.
  - intros H. inv_bind H as G0 HG0. inv_bind H as G HG.
    inv_bind H as target_id Ht. inv_bind H as paths Hp.
    exists G, target_id, paths. rewrite HG0. simpl. auto.
  - intros (G & target_id & paths & HG & Ht & Hp & Hf).
    destruct (nlogo_graph_to_nx citizens friend_links) as [G0|e]; [|discriminate].
    simpl in *. rewrite HG. simpl. rewrite Ht. simpl. rewrite Hp. simpl. exact Hf.
Qed.

Lemma within_threshold_mono ds t t' :
  t <= t' -> within_threshold ds t = true -> within_threshold ds t' = true.
Proof.
  intros Ht H. apply within_threshold_true in H. apply within_threshold_true.
  eapply Forall_impl; [|exact H]. intros d Hd. cbv beta in *. lra.
Qed.

(** Raising the threshold only adds sources: a call that returns still
    returns with a larger threshold, and every source that was retained is
    retained with the same distance sequence. *)
Theorem influencer_paths_threshold_monotone threshold threshold' out :
  influencer_paths_within_distance dist_to_agent_brain dijkstra_path
    citizens friend_links subscribers target message threshold = Ok out ->
  threshold <= threshold' ->
  exists out',
    influencer_paths_within_distance dist_to_agent_brain dijkstra_path
      citizens friend_links subscribers target message threshold' = Ok out'
    /\ forall s ds, zget s out = Some ds -> zget s out' = Some ds.
Proof.
  intros H Hle. apply influencer_paths_within_distance_steps in H.
  destruct H as (G & target_id & paths & HG & Ht & Hp & Hf).
  destruct (paths_loop dijkstra_path G target_id subscribers [] Hp)
    as (ND & _).
  { constructor. }
  { intros k p Hk. discriminate. }
  destruct (filter_loop dist_to_agent_brain G message threshold paths [] Hf ND)
    as [F1 F2].
  assert (Htot : exists out',
    foldM (fun threshold_paths (entry : Z * list Z) =>
             dist_path <- mapM (fun v => a <- UG.node_attrs G v ;;
                                  dist_to_agent_brain a message) (snd entry) ;;
             let dist_path := removelast dist_path in
             if within_threshold dist_path threshold'
             then Ok (zset (fst entry) dist_path threshold_paths)
             else Ok threshold_paths) paths [] = Ok out' /\ True).
  { apply foldM_total; [|exact I]. intros acc [k p] Hin _.
    destruct (F1 k p Hin) as [ds Hds]. unfold distance_sequence in Hds.
    inv_bind Hds as full Hfull. simpl. rewrite Hfull. simpl.
    destruct (within_threshold _ _); eauto. }
  destruct Htot as (out' & Hf' & _). exists out'. split.
  - apply influencer_paths_within_distance_steps.
    exists G, target_id, paths. auto.
  - destruct (filter_loop dist_to_agent_brain G message threshold' paths [] Hf' ND)
      as [_ F2'].
    intros s ds Hs. rewrite F2 in Hs. rewrite F2'.
    destruct (zget s paths) as [p|]; [|discriminate].
    unfold kept in *.
    destruct (distance_sequence dist_to_agent_brain G message p) as [ds'|];
      [|discriminate].
    destruct (within_threshold ds' threshold) eqn:E; [|discriminate].
    now rewrite (within_threshold_mono _ Hle E).
Qed.

(** What is returned is a mapping from subscribers: no source occurs twice
    (also when a subscriber is listed twice), and every source is the
    identifier of one of the subscribers. *)
Theorem influencer_paths_keys threshold out :
  influencer_paths_within_distance dist_to_agent_brain dijkstra_path
    citizens friend_links subscribers target message threshold = Ok out ->
  NoDup (zkeys out)
  /\ forall s, In s (zkeys out) ->
       exists subscriber, In subscriber subscribers /\ parse_id subscriber 2 = Ok s.
Proof.
  intros H. pose proof H as H'.
  apply influencer_paths_within_distance_steps in H.
  destruct H as (G & target_id & paths & HG & Ht & Hp & Hf).
  split.
  - eapply (foldM_invariant (fun acc : list (Z * list Q) => NoDup (zkeys acc)));
      [ | | exact Hf]; [|constructor].
    intros acc entry acc' Hacc Hb. cbv beta in Hb. inv_bind Hb as ds Hds.
    cbv zeta in Hb. destruct (within_threshold _ _); apply Ok_inj in Hb; subst; auto.
    now apply NoDup_keys_set.
  - intros s Hs. apply influencer_paths_within_distance_inv in H'.
    destruct H' as (G1 & t1 & paths1 & _ & _ & Hpaths & _ & Hout).
    apply (in_keys_get Z.eq_dec) in Hs. destruct Hs as [ds Hds].
    fold (@zget (list Q) s out) in Hds. rewrite Hout in Hds.
    destruct (zget s paths1) as [p|] eqn:Ep; [|discriminate].
    destruct (Hpaths s p Ep) as (_ & Hsub & _). exact Hsub.
Qed.

End InfluenceThreshold.

Lemma influencer_paths_threshold_monotone_witness :
  exists out',
    influencer_paths_within_distance dist_A NX.dijkstra_path
      three_agents two_friendships [subscriber_0; subscriber_2; subscriber_1]
      "(citizen 2)" 0 5 = Ok out'
    /\ forall s ds, zget s only_source_2 = Some ds -> zget s out' = Some ds.
Proof.
  refine (@influencer_paths_threshold_monotone Q dist_A NX.dijkstra_path
            three_agents two_friendships [subscriber_0; subscriber_2; subscriber_1]
            "(citizen 2)" 0 4 5 only_source_2 eq_refl _).
  unfold Qle. simpl. lia.
Defined.

Lemma influencer_paths_keys_witness :
  NoDup (zkeys only_source_2)
  /\ forall s, In s (zkeys only_source_2) ->
       exists subscriber,
         In subscriber [subscriber_0; subscriber_2; subscriber_2]
         /\ parse_id subscriber 2 = Ok s.
Proof.
  exact (@influencer_paths_keys Q dist_A NX.dijkstra_path
           three_agents two_friendships [subscriber_0; subscriber_2; subscriber_2]
           "(citizen 2)" 0 4 only_source_2 eq_refl).
Defined.

(** A subscriber who is the target itself is always retained, with the
    empty distance sequence, whatever the threshold, a negative one
    included: its path is the target alone, and the last node of a path is
    dropped before the threshold is looked at.  (The distance of the target
    is still computed, so it has to be defined.) *)
Theorem target_subscriber_always_kept (Message : Type)
    (dist_to_agent_brain : NodeAttrs -> Message -> Res Q)
    citizens friend_links subscriber target message threshold G target_id a d :
  weighted_graph dist_to_agent_brain citizens friend_links message = Ok G ->
  parse_id target 1 = Ok target_id ->
  parse_id subscriber 2 = Ok target_id ->
  UG.node_attrs G target_id = Ok a ->
  dist_to_agent_brain a message = Ok d ->
  influencer_paths_within_distance dist_to_agent_brain NX.dijkstra_path
    citizens friend_links [subscriber] target message threshold
  = Ok [(target_id, [])].
Proof.
  intros HG Ht Hs Ha Hd.
  apply influencer_paths_within_distance_steps.
  exists G, target_id, [(target_id, [target_id])]. repeat split; auto.
  - simpl. rewrite Hs. simpl.
    assert (Hp : NX.dijkstra_path G target_id target_id = Ok [target_id]).
    { unfold NX.dijkstra_path, UG.has_node, zhas, Dict.mem.
      unfold UG.node_attrs, zget in Ha.
      destruct (Dict.get Z.eq_dec target_id (g_nodes G)); [|discriminate].
      simpl. now rewrite Z.eqb_refl. }
    rewrite Hp. reflexivity.
  - simpl. rewrite Ha. simpl. rewrite Hd. reflexivity.
Qed.

Lemma target_subscriber_always_kept_witness :
  influencer_paths_within_distance dist_A NX.dijkstra_path
    three_agents one_friendship [subscriber_1] "(citizen 1)" 0 (-1)
  = Ok [(1%Z, [])].
Proof.
  exact (@target_subscriber_always_kept Q dist_A three_agents one_friendship
           subscriber_1 "(citizen 1)" 0 (-1) _ 1%Z _ _
           eq_refl eq_refl eq_refl eq_refl eq_refl).
Defined.

(* ------------------------------------------------------------------ *)
(** ** No pair twice from [bidirected_graph] *)

Lemma set_add_NoDup x s : NoDup s -> NoDup (set_add x s).
Proof.
  unfold set_add. destruct (zmem x s) eqn:E; auto.
  intros H. apply zmem_false in E. now apply NoDup_snoc.
Qed.

Lemma Forall_zset {V : Type} (P : Z * V -> Prop) k v d :
  Forall P d -> (forall k', P (k', v)) -> Forall P (zset k v d).
Proof.
  intros Hd Hv. unfold zset.
  induction Hd as [|[k0 v0] tl H0 Htl IH]; simpl.
  - constructor; [apply Hv | constructor].
  - destruct (Z.eq_dec k k0); constructor; auto.
Qed.

Lemma dg_wf_add_node n D : dg_wf D -> dg_wf (DG.add_node n D).
Proof.
  intros [ND F]. unfold DG.add_node, zhas.
  destruct (Dict.mem Z.eq_dec n D) eqn:E; [split; auto|].
  apply mem_false in E. split.
  - unfold zkeys, Dict.keys. rewrite map_app. simpl. now apply NoDup_snoc.
  - apply Forall_app. split; auto. constructor; [constructor|constructor].
Qed.

Lemma dg_succ_NoDup D u : dg_wf D -> NoDup (DG.succ D u).
Proof.
  intros [_ F]. unfold DG.succ.
  destruct (zget u D) as [ss|] eqn:E; [|constructor].
  apply get_Some_in in E. rewrite Forall_forall in F. apply (F _ E).
Qed.

Lemma dg_wf_add_edge u v D : dg_wf D -> dg_wf (DG.add_edge u v D).
Proof.
  intros W. unfold DG.add_edge.
  set (D2 := DG.add_node v (DG.add_node u D)).
  assert (W2 : dg_wf D2) by (unfold D2; now repeat apply dg_wf_add_node).
  destruct W2 as [ND F]. split.
  - now apply NoDup_keys_set.
  - apply Forall_zset; auto.
    intros k'. simpl. apply set_add_NoDup. apply dg_succ_NoDup. split; auto.
Qed.

Lemma dg_edges_in_keys D a b : In (a, b) (DG.edges D) -> In a (zkeys D).
Proof.
  unfold DG.edges. intros H. apply in_flat_map in H.
  destruct H as ([k ss] & Hin & Hab). simpl in Hab.
  apply in_map_iff in Hab. destruct Hab as (y & E & _). injection E as <- <-.
  apply in_map_iff. exists (k, ss). auto.
Qed.

Lemma dg_wf_edges_NoDup D : dg_wf D -> NoDup (DG.edges D).
Proof.
  intros [ND F]. induction D as [|[k ss] tl IH]; simpl; [constructor|].
  inversion ND as [|? ? Hk ND']; subst. inversion F as [|? ? Hs F']; subst.
  apply NoDup_app; auto.
  - simpl in Hs. clear - Hs. induction Hs as [|y l Hy _ IH]; simpl; constructor; auto.
    intros C. apply in_map_iff in C. destruct C as (z & E & Hz).
    injection E as <-. contradiction.
  - intros [a b] Hab C. simpl in Hab. apply in_map_iff in Hab.
    destruct Hab as (y & E & _). injection E as <- <-.
    apply Hk. eapply dg_edges_in_keys; eauto.
Qed.

Lemma bidirected_graph_wf G : dg_wf (bidirected_graph G).
Proof.
  unfold bidirected_graph.
  assert (H : dg_wf DG.empty) by (split; constructor).
  revert H. generalize DG.empty. generalize (UG.edges G).
  induction l as [|e tl IH]; simpl; intros D W; auto.
  apply IH. now repeat apply dg_wf_add_edge.
Qed.

(** Whatever the graph, the record made from [bidirected_graph] lists no
    node twice and no ordered pair twice: NetLogo is never asked for the
    same directed link a second time. *)
Theorem bidirected_record_without_duplicates (LT : Type) (G : Graph) :
  NoDup (nl_nodes (@nlogo_safe_nodes_edges LT _ _ (bidirected_graph G)))
  /\ NoDup (nl_edges (@nlogo_safe_nodes_edges LT _ _ (bidirected_graph G))).
Proof.
  rewrite nlogo_safe_edges, nlogo_safe_nodes. simpl.
  pose proof (bidirected_graph_wf G) as W. split.
  - apply W.
  - now apply dg_wf_edges_NoDup.
Qed.

(* ------------------------------------------------------------------ *)
(** ** The graph made from agents and links *)

Lemma set_node_attr_present n attr x G :
  In n (UG.nodes G) -> exists G', UG.set_node_attr n attr x G = Ok G'.
Proof.
  intros H. apply (in_keys_get Z.eq_dec) in H. destruct H as [e He].
  unfold UG.set_node_attr, zget. rewrite He. eauto.
Qed.

(** The loop that copies a group of attributes changes neither the nodes
    nor the adjacency. *)
Lemma copy_attrs_keeps cit id attrs : forall g g',
  foldM (fun G attr => x <- cit_get cit attr ;; UG.set_node_attr id attr x G)
        attrs g = Ok g' ->
  UG.nodes g' = UG.nodes g
  /\ forall u v, UG.edge_loc g' u v = UG.edge_loc g u v.
Proof.
  induction attrs as [|attr tl IH]; simpl; intros g g' H.
  - apply Ok_inj in H. subst. auto.
  - inv_bind H as g1 H1. inv_bind H1 as x Hx.
    destruct (set_node_attr_keeps _ _ _ _ H1) as (En & _ & El).
    destruct (IH _ _ H) as [En' El']. split; [congruence|].
    intros u v. now rewrite El', El.
Qed.

Lemma copy_attrs_total cit id attrs : forall g,
  In id (UG.nodes g) ->
  (forall attr, In attr attrs -> exists x, cit_get cit attr = Ok x) ->
  exists g',
    foldM (fun G attr => x <- cit_get cit attr ;; UG.set_node_attr id attr x G)
          attrs g = Ok g'.
Proof.
  induction attrs as [|attr tl IH]; simpl; intros g Hid Hget; [eauto|].
  destruct (Hget attr (or_introl eq_refl)) as [x Hx]. rewrite Hx. simpl.
  destruct (@set_node_attr_present id attr x g Hid) as [g1 H1]. rewrite H1. simpl.
  apply IH; auto.
  destruct (set_node_attr_keeps _ _ _ _ H1) as (En & _). now rewrite En.
Qed.

Lemma link_step_inv G link G' :
  (let link_split := split " "%char link in
   end1 <- item link_split 1 ;;
   end2' <- item link_split 2 ;;
   let end2 := remove_char ")"%char end2' in
   u <- py_int end1 ;;
   v <- py_int end2 ;;
   Ok (UG.add_edge u v G)) = Ok G' ->
  exists u v, link_ends link = Ok (u, v) /\ G' = UG.add_edge u v G.
Proof.
  cbv zeta. intros H. unfold link_ends. cbv zeta.
  inv_bind H as end1 H1. inv_bind H as end2 H2.
  inv_bind H as u Hu. inv_bind H as v Hv. apply Ok_inj in H.
  rewrite H1. simpl. rewrite H2. simpl. rewrite Hu. simpl. rewrite Hv. simpl.
  eauto.
Qed.

Lemma link_step_total G link u v :
  link_ends link = Ok (u, v) ->
  (let link_split := split " "%char link in
   end1 <- item link_split 1 ;;
   end2' <- item link_split 2 ;;
   let end2 := remove_char ")"%char end2' in
   u <- py_int end1 ;;
   v <- py_int end2 ;;
   Ok (UG.add_edge u v G)) = Ok (UG.add_edge u v G).
Proof.
  unfold link_ends. cbv zeta. intros H.
  inv_bind H as end1 H1. inv_bind H as end2 H2.
  inv_bind H as u' Hu. inv_bind H as v' Hv. apply Ok_inj in H.
  injection H as -> ->.
  rewrite H1. simpl. rewrite H2. simpl. rewrite Hu. simpl. rewrite Hv. reflexivity.
Qed.

(** On plain input (numeric attributes, ASCII links), [nlogo_graph_to_nx]
    returns a graph exactly when every attribute that a citizen lists under
    ['malleable'] or ['prior'] is a key of that citizen, and every link has
    a second and a third word that read as integers (the third after its
    parentheses are removed); it raises otherwise. *)
Theorem nlogo_graph_to_nx_returns_iff citizens friend_links :
  plain_input citizens friend_links ->
  (exists G, nlogo_graph_to_nx citizens friend_links = Ok G)
  <-> (forall cit attr, In cit citizens ->
         In attr (cit_malleable cit ++ cit_prior cit) ->
         exists x, cit_get cit attr = Ok x)
      /\ (forall link, In link friend_links -> exists ends, link_ends link = Ok ends).
Proof.
  intros _. unfold nlogo_graph_to_nx. split.
  - intros [G H]. inv_bind H as G1 H1. split.
    + intros cit attr Hc Ha.
      destruct (foldM_success_each _ _ _ H1 cit Hc) as (t & t' & Hb).
      cbv beta zeta in Hb. inv_bind Hb as g2 Hg2.
      apply in_app_iff in Ha. destruct Ha as [Ha|Ha].
      * destruct (foldM_success_each _ _ _ Hg2 attr Ha) as (s & s' & Hs).
        cbv beta in Hs. inv_bind Hs as x Hx. eauto.
      * destruct (foldM_success_each _ _ _ Hb attr Ha) as (s & s' & Hs).
        cbv beta in Hs. inv_bind Hs as x Hx. eauto.
    + intros link Hl.
      destruct (foldM_success_each _ _ _ H link Hl) as (t & t' & Hb).
      apply link_step_inv in Hb. destruct Hb as (u & v & Hends & _). eauto.
  - intros [Hattr Hlinks].
    match goal with
    | |- exists G, bind (foldM ?body ?xs ?s) _ = _ =>
        assert (H1 : exists G1, foldM body xs s = Ok G1 /\ True)
    end.
    { apply foldM_total; [|exact I]. intros g cit Hc _. cbv beta zeta.
      destruct (@copy_attrs_total cit (int_of_number (cit_ID cit))
                  (cit_malleable cit)
                  (UG.add_node (int_of_number (cit_ID cit)) g)) as [g2 Hg2].
      { apply nodes_add_node. now left. }
      { intros attr Ha. apply (Hattr cit attr Hc). apply in_app_iff. now left. }
      rewrite Hg2. cbn [bind].
      destruct (@copy_attrs_total cit (int_of_number (cit_ID cit))
                  (cit_prior cit) g2) as [g3 Hg3].
      { rewrite (proj1 (copy_attrs_keeps _ _ _ _ Hg2)).
        apply nodes_add_node. now left. }
      { intros attr Ha. apply (Hattr cit attr Hc). apply in_app_iff. now right. }
      eauto. }
    destruct H1 as (G1 & H1 & _). rewrite H1. cbn [bind].
    match goal with
    | |- exists G, foldM ?body ?xs ?s = _ =>
        assert (H2 : exists G, foldM body xs s = Ok G /\ True);
          [|destruct H2 as (G & H2 & _); eauto]
    end.
    apply foldM_total; [|exact I]. intros g link Hl _.
    destruct (Hlinks link Hl) as [[u v] He].
    exists (UG.add_edge u v g). split; auto.
    now apply link_step_total.
Qed.

(** The citizens' loop adds the identifiers of the citizens as nodes and
    no link. *)
Lemma citizens_loop citizens : forall G0 G1,
  foldM (fun G cit =>
           let cit_id := int_of_number (cit_ID cit) in
           let G := UG.add_node cit_id G in
           G <- foldM (fun G attr =>
                  x <- cit_get cit attr ;; UG.set_node_attr cit_id attr x G)
                (cit_malleable cit) G ;;
           foldM (fun G attr =>
                  x <- cit_get cit attr ;; UG.set_node_attr cit_id attr x G)
                (cit_prior cit) G)
        citizens G0 = Ok G1 ->
  (forall n, In n (UG.nodes G1) <->
     In n (UG.nodes G0)
     \/ exists cit, In cit citizens /\ int_of_number (cit_ID cit) = n)
  /\ forall u v, UG.edge_loc G1 u v = UG.edge_loc G0 u v.
Proof.
  induction citizens as [|cit tl IH]; simpl; intros G0 G1 H.
  - apply Ok_inj in H. subst. split; [|auto].
    intros n. split; [auto | intros [?|(c & [] & _)]; auto].
  - inv_bind H as g3 H3. inv_bind H3 as g2 H2.
    destruct (copy_attrs_keeps _ _ _ _ H2) as [N2 E2].
    destruct (copy_attrs_keeps _ _ _ _ H3) as [N3 E3].
    destruct (IH _ _ H) as [IN IE]. split.
    + intros n. rewrite IN, N3, N2, nodes_add_node. split.
      * intros [[->|?]|(c & Hc & E)]; eauto.
      * intros [?|(c & [<-|Hc] & E)]; eauto.
    + intros u v. now rewrite IE, E3, E2, edge_loc_add_node.
Qed.

(** The links' loop adds the two ends of every link as nodes, and the
    link between them. *)
Lemma links_loop friend_links : forall G1 G,
  foldM (fun G link =>
           let link_split := split " "%char link in
           end1 <- item link_split 1 ;;
           end2' <- item link_split 2 ;;
           let end2 := remove_char ")"%char end2' in
           u <- py_int end1 ;;
           v <- py_int end2 ;;
           Ok (UG.add_edge u v G))
        friend_links G1 = Ok G ->
  (forall n, In n (UG.nodes G) <->
     In n (UG.nodes G1)
     \/ exists link u v, In link friend_links /\ link_ends link = Ok (u, v)
                         /\ (n = u \/ n = v))
  /\ forall a b, UG.has_edge G a b = true <->
       UG.has_edge G1 a b = true
       \/ exists link u v, In link friend_links /\ link_ends link = Ok (u, v)
                           /\ same_link u v a b = true.
Proof.
  induction friend_links as [|link tl IH]; intros G1 G H.
  - simpl in H. apply Ok_inj in H. subst. split.
    + intros n. split; [auto | intros [?|(l & u & v & [] & _)]; auto].
    + intros a b. split; [auto | intros [?|(l & u & v & [] & _)]; auto].
  - cbn [foldM] in H. inv_bind H as g2 H2. apply link_step_inv in H2.
    destruct H2 as (u & v & Hends & ->).
    destruct (IH _ _ H) as [IN IE]. split.
    + intros n. rewrite IN, nodes_add_edge. split.
      * intros [[->|[->|?]]|(l & u' & v' & Hl & He & Hn)]; auto.
        -- right. exists link, u, v. simpl. auto.
        -- right. exists link, u, v. simpl. auto.
        -- right. exists l, u', v'. simpl. auto.
      * intros [?|(l & u' & v' & [<-|Hl] & He & Hn)]; auto.
        -- rewrite Hends in He. injection He as <- <-. left. tauto.
        -- right. exists l, u', v'. auto.
    + intros a b. rewrite IE, has_edge_add_edge, orb_true_iff. split.
      * intros [[?|?]|(l & u' & v' & Hl & He & Hs)]; auto.
        -- right. exists link, u, v. simpl. auto.
        -- right. exists l, u', v'. simpl. auto.
      * intros [?|(l & u' & v' & [<-|Hl] & He & Hs)]; auto.
        -- rewrite Hends in He. injection He as <- <-. auto.
        -- right. exists l, u', v'. auto.
Qed.

(** What [nlogo_graph_to_nx] builds: an undirected graph whose nodes are
    the identifiers of the citizens and the ends of the links (an end that
    is no citizen becomes a node without attributes), and in which two
    nodes are adjacent exactly when some link names them, in either order. *)
Theorem nlogo_graph_to_nx_nodes_and_links citizens friend_links G :
  nlogo_graph_to_nx citizens friend_links = Ok G ->
  UG.wf G
  /\ (forall n, In n (UG.nodes G) <->
        (exists cit, In cit citizens /\ int_of_number (cit_ID cit) = n)
        \/ exists link u v, In link friend_links /\ link_ends link = Ok (u, v)
                            /\ (n = u \/ n = v))
  /\ (forall a b, UG.has_edge G a b = true <->
        exists link u v, In link friend_links /\ link_ends link = Ok (u, v)
                         /\ same_link u v a b = true).
Proof.
  intros H. split; [apply (nlogo_graph_to_nx_wf _ _ H)|].
  unfold nlogo_graph_to_nx in H. inv_bind H as G1 H1.
  destruct (citizens_loop _ _ H1) as [CN CE].
  destruct (links_loop _ _ H) as [LN LE]. split.
  - intros n. rewrite LN, CN. simpl. tauto.
  - intros a b. rewrite LE. unfold UG.has_edge at 1. rewrite CE. simpl.
    split; [intros [C|?]; [discriminate|auto] | auto].
Qed.

Lemma nlogo_graph_to_nx_returns_iff_witness :
  plain_input three_agents one_friendship
  /\ ((exists G, nlogo_graph_to_nx three_agents one_friendship = Ok G)
      <-> (forall cit attr, In cit three_agents ->
             In attr (cit_malleable cit ++ cit_prior cit) ->
             exists x, cit_get cit attr = Ok x)
          /\ (forall link, In link one_friendship ->
                exists ends, link_ends link = Ok ends)).
Proof.
  assert (H : plain_input three_agents one_friendship).
  { split.
    - intros cit attr [<-|[<-|[<-|[]]]] [<-|[]]; split; discriminate.
    - intros link [<-|[]]; reflexivity. }
  split; [exact H|].
  exact (@nlogo_graph_to_nx_returns_iff three_agents one_friendship H).
Defined.

Lemma nlogo_graph_to_nx_nodes_and_links_witness :
  exists G,
    nlogo_graph_to_nx three_agents one_friendship = Ok G
    /\ UG.wf G
    /\ UG.has_edge G 1 0 = true.
Proof.
  eexists. split; [reflexivity|].
  destruct (@nlogo_graph_to_nx_nodes_and_links three_agents one_friendship _ eq_refl)
    as (W & _ & HE).
  split; [exact W|]. apply HE.
  exists "(link 0 1)"%string, 0%Z, 1%Z. split; [now left|]. split; reflexivity.
Defined.

(* ------------------------------------------------------------------ *)
(** ** The metrics on small graphs *)

Lemma graph_polarization_nonnegative_witness :
  exists q, graph_polarization path_graph "A" 10 = Ok q /\ 0 <= q.
Proof.
  eexists. split; [reflexivity|].
  exact (@graph_polarization_nonnegative path_graph "A"%string 10 _ eq_refl).
Defined.

Lemma metrics_index_by_node_id_witness :
  exists q, graph_homophily path_graph "A" = Ok q
    /\ UG.nodes path_graph <> []
    /\ forall node, In node (UG.nodes path_graph) -> (- 3 <= node < 3)%Z.
Proof.
  eexists. split; [reflexivity|].
  exact (@metrics_index_by_node_id path_graph "A"%string 10 _ (or_introl eq_refl)).
Defined.

Lemma path_graph_weights_nonnegative : weights_nonnegative path_graph.
Proof. intros d w [<-|[<-|[]]]; simpl; discriminate. Qed.

Lemma homophily_disagreement_nonnegative_witness :
  exists q, graph_disagreement path_graph "A" 10 = Ok q /\ 0 <= q.
Proof.
  eexists. split; [reflexivity|].
  exact (@homophily_disagreement_nonnegative path_graph "A"%string 10 _
           path_graph_weights_nonnegative (or_intror eq_refl)).
Defined.

Lemma graph_homophily_isolated_node_witness :
  graph_homophily lonely_agent_graph "A" = Raise FloatingPointError.
Proof.
  refine (@graph_homophily_isolated_node lonely_agent_graph "A"%string 3 2%Z
            eq_refl _ _ eq_refl).
  - intros node [<-|[<-|[<-|[]]]]; eexists; reflexivity.
  - simpl. auto.
Defined.

(* ------------------------------------------------------------------ *)
(** ** The links that the Kronecker pruning keeps *)

(** Between two nodes that [kronecker_graph] returns, an edge is returned
    (in one of the two orders) exactly when the sampled graph had the link:
    the pruning drops the links of removed nodes only, and adds none. *)
Theorem kronecker_graph_keeps_links (LT : Type) kronecker_pow seed k rnd
    (r : Nlogo LT) :
  kronecker_graph LT kronecker_pow seed k rnd = Ok r ->
  exists G_array G draws,
    kronecker_pow seed k = Ok G_array
    /\ kronecker_sample G_array rnd = Ok (G, draws)
    /\ forall a b, In a (nl_nodes r) -> In b (nl_nodes r) ->
         (linked (nl_edges r) a b <-> UG.has_edge G a b = true).
Proof.
  unfold kronecker_graph. intros H.
  inv_bind H as G_array HA. inv_bind H as [G c0] HS. inv_bind H as G' HK.
  apply Ok_inj in H. subst r.
  exists G_array, G, c0. split; auto. split; auto.
  intros a b Ha Hb. rewrite nlogo_safe_edges. rewrite nlogo_safe_nodes in Ha, Hb.
  simpl in *.
  pose proof (kronecker_sample_wf _ _ HS) as W.
  pose proof (keep_largest_component_wf W HK) as W'.
  unfold keep_largest_component in HK. inv_bind HK as best Hbest.
  apply Ok_inj in HK. subst G'.
  apply nodes_remove_nodes_from in Ha, Hb.
  unfold linked. rewrite (edges_iff_edge_loc a b W').
  rewrite edge_loc_remove_nodes_from by tauto.
  unfold UG.has_edge. destruct (UG.edge_loc G a b); split; eauto; try discriminate.
  intros [l C]. discriminate.
Qed.

Lemma kronecker_graph_keeps_links_witness :
  exists (r : Nlogo unit) G_array G draws,
    kronecker_graph unit kronecker_pow_first seed_08_02 1 (fun _ => 1 # 10) = Ok r
    /\ kronecker_pow_first seed_08_02 1 = Ok G_array
    /\ kronecker_sample G_array (fun _ => 1 # 10) = Ok (G, draws)
    /\ forall a b, In a (nl_nodes r) -> In b (nl_nodes r) ->
         (linked (nl_edges r) a b <-> UG.has_edge G a b = true).
Proof.
  eexists.
  destruct (@kronecker_graph_keeps_links unit kronecker_pow_first
              seed_08_02 1%Z (fun _ => 1 # 10) _ eq_refl)
    as (G_array & G & draws & H1 & H2 & H3).
  exists G_array, G, draws. split; [reflexivity|]. repeat split; auto; apply H3; auto.
Defined.
